(** * Range-separation JK builder (pyscf/pbc/scf/rsjk.py)

    A shallow embedding of [RangeSeparationJKBuilder], of the two
    reciprocal-space kernels [_LongRangeAFT] and [_ShortRangeAFT], and of the
    helpers [_make_extended_mole] and [_split_cell].

    Conventions of the embedding:
    - a Python float / numpy float64 is a real number ([R]); rounding is not
      modelled, arithmetic is exact;
    - a one-dimensional numpy array is a list, a two-dimensional one a list
      of rows; where only the shape of an array matters (the density and
      J/K matrices of [get_jk]) the array is represented by its shape;
    - a Python exception is a value of [exn]; a function that may raise
      returns a [result];
    - functions of other pyscf modules (the plane-wave Coulomb kernel, the
      integral engine, k2gamma, ...) are section variables. *)

From Stdlib Require Import String Reals Lra Lia Bool Arith List Sorted.
Import ListNotations.
Open Scope R_scope.

(** ** Exceptions and fallible computations *)

Inductive exn : Type :=
| NotImplementedError
| RuntimeError (msg : string)
| ValueError
| TypeError
| IndexError
| AttributeError
| ZeroDivisionError.

Definition result (A : Type) : Type := (exn + A)%type.

Definition ok {A : Type} (x : A) : result A := inr x.

Definition raise {A : Type} (e : exn) : result A := inl e.

Definition bind {A B : Type} (m : result A) (k : A -> result B) : result B :=
  match m with
  | inl e => inl e
  | inr x => k x
  end.

Notation "x <- m ;; k" := (bind m (fun x => k))
  (at level 61, m at next level, right associativity).

Notation "' pat <- m ;; k" := (bind m (fun x => match x with pat => k end))
  (at level 61, pat pattern, m at next level, right associativity).

(** ** Comparisons on floats *)

Definition Rgtb (x y : R) : bool := if Rgt_dec x y then true else false.

Definition Reqb (x y : R) : bool := if Req_dec_T x y then true else false.

(** ** numpy-style array helpers *)

Module Np.

(** [np.all(row == 0)] for one row of a two-dimensional array. *)
Definition all_zero (row : list R) : bool :=
  forallb (fun x => Reqb x 0) row.

(** [a[mask]] for a boolean [mask] of the length of [a] (numpy refuses a
    mask of another length). *)
Fixpoint select {A : Type} (mask : list bool) (a : list A) : list A :=
  match mask, a with
  | m :: mask', x :: a' => if m then x :: select mask' a' else select mask' a'
  | _, _ => []
  end.

Definition getitem_mask {A : Type} (a : list A) (mask : list bool) : result (list A) :=
  if Nat.eqb (length mask) (length a) then ok (select mask a) else raise IndexError.

(** [a[mask] -= c], in place, for a boolean [mask] of the length of [a]. *)
Fixpoint isub_where (a : list R) (mask : list bool) (c : R) : list R :=
  match a, mask with
  | x :: a', m :: mask' => (if m then x - c else x) :: isub_where a' mask' c
  | _, _ => a
  end.

(** [a[mask] += c]. *)
Fixpoint iadd_where (a : list R) (mask : list bool) (c : R) : list R :=
  match a, mask with
  | x :: a', m :: mask' => (if m then x + c else x) :: iadd_where a' mask' c
  | _, _ => a
  end.

(** The integration weights of [get_Gv_weights]: one number, or one
    weight per plane wave. *)
Inductive weights : Type :=
| WScalar (w : R)
| WArray (ws : list R).

(** The weight that multiplies entry [i]. *)
Definition weight_at (kws : weights) (i : nat) : R :=
  match kws with
  | WScalar w => w
  | WArray [w] => w
  | WArray ws => nth i ws 0
  end.

(** [a *= kws], in place: [kws] is broadcast to the shape of [a]. *)
Definition imul (a : list R) (kws : weights) : result (list R) :=
  match kws with
  | WScalar w => ok (map (fun x => x * w) a)
  | WArray [w] => ok (map (fun x => x * w) a)
  | WArray ws =>
      if Nat.eqb (length ws) (length a)
      then ok (map (fun xw => fst xw * snd xw) (combine a ws))
      else raise ValueError
  end.

(** [a[start:start+n]]; numpy clips a slice to the array. *)
Definition slice {A : Type} (a : list A) (start n : nat) : list A :=
  firstn n (skipn start a).

(** [a[start:start+n] = vals], in place; the lengths must agree. *)
Definition set_slice (a : list R) (start n : nat) (vals : list R) : result (list R) :=
  if Nat.eqb (length vals) (length (slice a start n))
  then ok (firstn start a ++ vals ++ skipn (start + n) a)
  else raise ValueError.

Definition count_nonzero (mask : list bool) : nat :=
  length (filter (fun m => m) mask).

(** [a.max()] of a one-dimensional array. *)
Definition max (a : list R) : result R :=
  match a with
  | [] => raise ValueError
  | x :: a' => ok (fold_left Rmax a' x)
  end.

(** [c.T.ravel()] for a two-dimensional [c] with [ncol] columns. *)
Definition transpose_ravel (ncol : nat) (c : list (list R)) : list R :=
  flat_map (fun k => map (fun row => nth k row 0) c) (seq 0 ncol).

(** All results of a list of computations, or the first exception. *)
Fixpoint sequence {A : Type} (l : list (result A)) : result (list A) :=
  match l with
  | [] => ok []
  | m :: l' => x <- m ;; xs <- sequence l' ;; ok (x :: xs)
  end.

(** One axis of numpy broadcasting: equal lengths, or one operand of
    length one that is repeated along the axis. *)
Definition broadcast1 {A B C : Type} (f : A -> B -> C) (a : list A) (b : list B)
    : result (list C) :=
  match a, b with
  | [x], _ => ok (map (f x) b)
  | _, [y] => ok (map (fun x => f x y) a)
  | _, _ =>
      if Nat.eqb (length a) (length b)
      then ok (map (fun p => f (fst p) (snd p)) (combine a b))
      else raise ValueError
  end.

(** [a - b] for two-dimensional arrays. *)
Definition sub2 (a b : list (list R)) : result (list (list R)) :=
  rows <- broadcast1 (broadcast1 Rminus) a b ;;
  sequence rows.

(** [abs(a).max()] for a two-dimensional array. *)
Definition absmax2 (a : list (list R)) : result R :=
  max (map Rabs (concat a)).

(** Python's [min(a)]. *)
Definition py_min (a : list R) : result R :=
  match a with
  | [] => raise ValueError
  | x :: a' => ok (fold_left Rmin a' x)
  end.

End Np.

(** ** Cells *)

(** One row of [cell._bas] (libcint layout): the slots that pyscf.gto names
    ATOM_OF, ANG_OF, NPRIM_OF, NCTR_OF, KAPPA_OF, PTR_EXP, PTR_COEFF. *)
Record bas_row : Type := mk_bas {
  ATOM_OF : nat;
  ANG_OF : nat;
  NPRIM_OF : nat;
  NCTR_OF : nat;
  KAPPA_OF : nat;
  PTR_EXP : nat;
  PTR_COEFF : nat
}.

Module Cell.

Record t : Type := mk {
  _bas : list bas_row;
  _env : list R;
  (** maps the shells of a split cell to the shells of the original cell *)
  _bas_idx : list nat;
  rcut : R;
  precision : R;
  (** the cell's own range-separation parameter *)
  omega : R;
  dimension : nat
}.

Definition nbas (cell : t) : nat := length (_bas cell).

End Cell.

(** ** Reciprocal-space kernels *)

(** The [exx] argument of [weighted_coulG]: [False]/[True], [None], or the
    name of an exchange-divergence treatment. *)
Inductive exx_arg : Type :=
| ExxBool (b : bool)
| ExxNone
| ExxStr (s : string).

(** Python's [not exx]. *)
Definition py_not (exx : exx_arg) : bool :=
  match exx with
  | ExxBool b => negb b
  | ExxNone => true
  | ExxStr s => String.eqb s ""
  end.

(** Python's [exx == 'ewald']. *)
Definition eq_ewald (exx : exx_arg) : bool :=
  match exx with
  | ExxStr s => String.eqb s "ewald"
  | _ => false
  end.

(** [np.pi/self.omega**2] on Python floats. *)
Definition pi_over_omega2 (omega : option R) : result R :=
  match omega with
  | None => raise TypeError
  | Some w => if Reqb (w ^ 2) 0 then raise ZeroDivisionError else ok (PI / w ^ 2)
  end.

Definition kernel_error : string :=
  "RangeSeparationJKBuilder cannot be used to evaluate the long-range HF exchange in RSH functional".

(** The fields of an [aft.AFTDF] object that the two subclasses read. *)
Module AFTDF.

Record t : Type := mk {
  cell : Cell.t;
  kpts : list (list R);
  omega : option R;
  mesh : list nat;
  ke_cutoff : option R
}.

End AFTDF.

Module LongRangeAFT.

Section WeightedCoulG.

(** [cell.get_Gv_weights(mesh)]: plane waves, their base and the weights. *)
Variable get_Gv_weights :
  Cell.t -> list nat -> list (list R) * list (list R) * Np.weights.
(** [pbctools.get_coulG(cell, kpt, exx, mf, mesh, Gv, omega=...)]. *)
Variable get_coulG :
  Cell.t -> list R -> exx_arg -> AFTDF.t -> list nat -> list (list R) ->
  option R -> list R.
(** [kpts_helper.gamma_point]. *)
Variable gamma_point : list R -> bool.

(** Lines 361-364: the G=0 term of the long-range kernel. *)
Definition adjust_G0 (self : AFTDF.t) (kpt : list R) (exx : exx_arg)
    (Gv : list (list R)) (coulG : list R) : result (list R) :=
  if py_not exx || eq_ewald exx then
    if gamma_point kpt then
      let gamma_idx := map Np.all_zero Gv in
      _ <- Np.getitem_mask coulG gamma_idx ;;
      c <- pi_over_omega2 (AFTDF.omega self) ;;
      ok (Np.isub_where coulG gamma_idx c)
    else ok coulG
  else ok coulG.

Definition weighted_coulG (self : AFTDF.t) (kpt : list R) (exx : exx_arg)
    (mesh : option (list nat)) : result (list R) :=
  let cell := AFTDF.cell self in
  let mesh := match mesh with None => AFTDF.mesh self | Some m => m end in
  if negb (Reqb (Cell.omega cell) 0) then raise (RuntimeError kernel_error)
  else
    let '(Gv, Gvbase, kws) := get_Gv_weights cell mesh in
    let coulG := get_coulG cell kpt exx self mesh Gv (AFTDF.omega self) in
    coulG <- adjust_G0 self kpt exx Gv coulG ;;
    Np.imul coulG kws.

End WeightedCoulG.

End LongRangeAFT.

Module ShortRangeAFT.

Section WeightedCoulG.

Variable get_Gv_weights :
  Cell.t -> list nat -> list (list R) * list (list R) * Np.weights.
Variable get_coulG :
  Cell.t -> list R -> exx_arg -> AFTDF.t -> list nat -> list (list R) ->
  option R -> list R.
Variable gamma_point : list R -> bool.

(** Lines 389-392: the G=0 term of the short-range-complement kernel. *)
Definition adjust_G0 (self : AFTDF.t) (kpt : list R) (exx : exx_arg)
    (Gv : list (list R)) (coulG : list R) : result (list R) :=
  if py_not exx || eq_ewald exx then
    if gamma_point kpt then
      let gamma_idx := map Np.all_zero Gv in
      _ <- Np.getitem_mask coulG gamma_idx ;;
      c <- pi_over_omega2 (AFTDF.omega self) ;;
      ok (Np.iadd_where coulG gamma_idx c)
    else ok coulG
  else ok coulG.

(** [-self.omega]. *)
Definition neg_omega (self : AFTDF.t) : result R :=
  match AFTDF.omega self with
  | None => raise TypeError
  | Some w => ok (- w)
  end.

Definition weighted_coulG (self : AFTDF.t) (kpt : list R) (exx : exx_arg)
    (mesh : option (list nat)) : result (list R) :=
  let cell := AFTDF.cell self in
  let mesh := match mesh with None => AFTDF.mesh self | Some m => m end in
  if negb (Reqb (Cell.omega cell) 0) then raise (RuntimeError kernel_error)
  else
    let '(Gv, Gvbase, kws) := get_Gv_weights cell mesh in
    momega <- neg_omega self ;;
    let coulG := get_coulG cell kpt ExxNone self mesh Gv (Some momega) in
    coulG <- adjust_G0 self kpt exx Gv coulG ;;
    Np.imul coulG kws.

End WeightedCoulG.

End ShortRangeAFT.

(** ** Range-separation selector (lines 145-147 of [build]) *)

(** Python's [x ** .5] on a positive float. *)
Definition pow_half (x : R) : R := Rpower x (/ 2).

(** [tau = self.omega / (self.omega**2 + eta/2)**.5] *)
Definition build_tau (omega eta : R) : R :=
  omega / pow_half (omega ^ 2 + eta / 2).

(** Lines 145-147: [tau], the initial guess, and the assignment that
    overwrites it. *)
Definition build_rcut_sr (direct_scf_tol omega eta : R) : R :=
  let tau := build_tau omega eta in
  let rcut_sr := 10 in
  let rcut_sr :=
    pow_half (- ln (direct_scf_tol * tau * (eta * rcut_sr) ^ 2 / PI)
              / (tau ^ 2 * eta / 2)) in
  rcut_sr.

(** The spec's reading of the same lines: the attenuation ratio, the
    update of line 147 as a function of the previous radius, and the radius
    after [n] substitutions into the initial guess 10. *)
Definition spec_tau (omega eta : R) : R :=
  omega / sqrt (omega ^ 2 + eta / 2).

Definition rcut_update (direct_scf_tol tau eta r : R) : R :=
  pow_half (- ln (direct_scf_tol * tau * (eta * r) ^ 2 / PI)
            / (tau ^ 2 * eta / 2)).

Definition spec_rcut_sr (n : nat) (direct_scf_tol omega eta : R) : R :=
  Nat.iter n (rcut_update direct_scf_tol (spec_tau omega eta) eta) 10.

(** ** Basis partitioner: [_split_cell] *)

(** Modelled from the spec: [cell.bas_exp(ib)] and
    [cell._libcint_ctr_coeff(ib)] belong to pyscf.gto.Mole, which is not in
    this file. A shell is its ordered list of (exponent, coefficient)
    primitive pairs, kept in packed storage; the layout is the one that
    lines 469-470 write back: the exponents are
    [env[PTR_EXP : PTR_EXP+nprim]] and the coefficients
    [env[PTR_COEFF : PTR_COEFF+nprim*nctr].reshape(nctr, nprim).T], one row
    per primitive. Here for the shell descriptor [b] read against [env]. *)
Definition bas_exp (env : list R) (b : bas_row) : list R :=
  Np.slice env (PTR_EXP b) (NPRIM_OF b).

Definition libcint_ctr_coeff (env : list R) (b : bas_row) : result (list (list R)) :=
  let nprim := NPRIM_OF b in
  let nctr := NCTR_OF b in
  let flat := Np.slice env (PTR_COEFF b) (nprim * nctr) in
  if Nat.eqb (length flat) (nctr * nprim)
  then ok (map (fun p => map (fun k => nth (k * nprim + p) flat 0) (seq 0 nctr))
               (seq 0 nprim))
  else raise ValueError.

(** The primitives a shell descriptor carries in [env], in contraction
    order: each exponent with its row of contraction coefficients. *)
Definition primitives (env : list R) (b : bas_row) : result (list (R * list R)) :=
  cs <- libcint_ctr_coeff env b ;;
  ok (combine (bas_exp env b) cs).

Definition set_NPRIM_OF (b : bas_row) (n : nat) : bas_row :=
  mk_bas (ATOM_OF b) (ANG_OF b) n (NCTR_OF b) (KAPPA_OF b) (PTR_EXP b) (PTR_COEFF b).

Definition set_PTR_EXP (b : bas_row) (p : nat) : bas_row :=
  mk_bas (ATOM_OF b) (ANG_OF b) (NPRIM_OF b) (NCTR_OF b) (KAPPA_OF b) p (PTR_COEFF b).

Definition set_PTR_COEFF (b : bas_row) (p : nat) : bas_row :=
  mk_bas (ATOM_OF b) (ANG_OF b) (NPRIM_OF b) (NCTR_OF b) (KAPPA_OF b) (PTR_EXP b) p.

Definition set_ANG_OF (b : bas_row) (l : nat) : bas_row :=
  mk_bas (ATOM_OF b) l (NPRIM_OF b) (NCTR_OF b) (KAPPA_OF b) (PTR_EXP b) (PTR_COEFF b).

Module SplitCell.

(** The local variables of [_split_cell] that its loop updates. *)
Record locals : Type := mk_locals {
  l_env : list R;
  dense_bas : list bas_row;
  sparse_bas : list bas_row;
  dense_bas_idx : list nat;
  sparse_bas_idx : list nat;
  dense_cell_rcut : R;
  ke_cutoff : R
}.

Definition getitem {A : Type} (a : list A) (i : nat) : result A :=
  match nth_error a i with
  | Some x => ok x
  | None => raise IndexError
  end.

Section Loop.

Variable cell : Cell.t.
Variable ke_cut : R.
(** The two arrays of [_primitive_gto_cutoff(cell, cell.precision)]. *)
Variable rcuts kecuts : list (list R).

(** One iteration of the loop of lines 442-489. *)
Definition step (st : locals) (ib : nat) (orig_bas : bas_row) : result locals :=
  let nprim := NPRIM_OF orig_bas in
  let nctr := NCTR_OF orig_bas in
  ke <- getitem kecuts ib ;;
  let dense_mask := map (fun k => Rgtb k ke_cut) ke in
  let np1 := Np.count_nonzero dense_mask in
  if Nat.eqb np1 0 then
    ok (mk_locals (l_env st) (dense_bas st) (sparse_bas st ++ [orig_bas])
          (dense_bas_idx st) (sparse_bas_idx st ++ [ib])
          (dense_cell_rcut st) (ke_cutoff st))
  else if Nat.eqb np1 nprim then
    kemax <- Np.max ke ;;
    rc <- getitem rcuts ib ;;
    rcmax <- Np.max rc ;;
    ok (mk_locals (l_env st) (dense_bas st ++ [orig_bas]) (sparse_bas st)
          (dense_bas_idx st ++ [ib]) (sparse_bas_idx st)
          (Rmax (dense_cell_rcut st) rcmax) (Rmax (ke_cutoff st) kemax))
  else
    let es := bas_exp (Cell._env cell) orig_bas in
    cs <- libcint_ctr_coeff (Cell._env cell) orig_bas ;;
    e1 <- Np.getitem_mask es dense_mask ;;
    e2 <- Np.getitem_mask es (map negb dense_mask) ;;
    c1 <- Np.getitem_mask cs dense_mask ;;
    c2 <- Np.getitem_mask cs (map negb dense_mask) ;;
    let pexp := PTR_EXP orig_bas in
    let pcoeff := PTR_COEFF orig_bas in
    env1 <- Np.set_slice (l_env st) pcoeff (nprim * nctr)
              (Np.transpose_ravel nctr c1 ++ Np.transpose_ravel nctr c2) ;;
    env2 <- Np.set_slice env1 pexp nprim (e1 ++ e2) ;;
    let bas1 := set_NPRIM_OF orig_bas np1 in
    let bas2 := set_NPRIM_OF orig_bas (nprim - np1) in
    let bas1 := set_PTR_EXP bas1 pexp in
    let bas2 := set_PTR_EXP bas2 (pexp + length e1) in
    let bas1 := set_PTR_COEFF bas1 pcoeff in
    let bas2 := set_PTR_COEFF bas2 (pcoeff + length (concat c1)) in
    ke1 <- Np.getitem_mask ke dense_mask ;;
    kemax <- Np.max ke1 ;;
    rc <- getitem rcuts ib ;;
    rc1 <- Np.getitem_mask rc dense_mask ;;
    rcmax <- Np.max rc1 ;;
    ok (mk_locals env2 (dense_bas st ++ [bas1]) (sparse_bas st ++ [bas2])
          (dense_bas_idx st ++ [ib]) (sparse_bas_idx st ++ [ib])
          (Rmax (dense_cell_rcut st) rcmax) (Rmax (ke_cutoff st) kemax)).

(** [for ib, orig_bas in enumerate(cell._bas)], from shell [ib] on. *)
Fixpoint loop (st : locals) (ib : nat) (bas : list bas_row) : result locals :=
  match bas with
  | [] => ok st
  | orig_bas :: rest =>
      st' <- step st ib orig_bas ;;
      loop st' (S ib) rest
  end.

(** The locals when the loop has finished. *)
Definition run : result locals :=
  loop (mk_locals (Cell._env cell) [] [] [] [] 0 0) 0%nat (Cell._bas cell).

End Loop.

End SplitCell.

(** [_split_cell(cell, ke_cut)]. The two cells are shallow copies of [cell]
    with [_bas], [_bas_idx] (and [rcut] of the dense one) replaced; the
    local [_env] is not stored in either of them. *)
Definition _split_cell
    (_primitive_gto_cutoff : Cell.t -> R -> list (list R) * list (list R))
    (cell : Cell.t) (ke_cut : R) : result (Cell.t * Cell.t * R) :=
  let '(rcuts, kecuts) := _primitive_gto_cutoff cell (Cell.precision cell) in
  st <- SplitCell.run cell ke_cut rcuts kecuts ;;
  let cell_dense :=
    Cell.mk (SplitCell.dense_bas st) (Cell._env cell) (SplitCell.dense_bas_idx st)
      (SplitCell.dense_cell_rcut st) (Cell.precision cell) (Cell.omega cell)
      (Cell.dimension cell) in
  let cell_sparse :=
    Cell.mk (SplitCell.sparse_bas st) (Cell._env cell) (SplitCell.sparse_bas_idx st)
      (Cell.rcut cell) (Cell.precision cell) (Cell.omega cell)
      (Cell.dimension cell) in
  ok (cell_dense, cell_sparse, SplitCell.ke_cutoff st).

(** ** Supercell builder: [_make_extended_mole] *)

Module SupMol.

(** The molecule object of the supercell: its shells, and the attributes
    that [_make_extended_mole] and [build] attach to it. *)
Record t : Type := mk {
  _atm : list (list nat);
  _bas : list bas_row;
  _env : list R;
  bvkcell_shl_id : list nat;
  bas_mask : list bool;
  omega : R
}.

Definition nbas (supmol : t) : nat := length (_bas supmol).

Definition with_bas (supmol : t) (bas : list bas_row) : t :=
  mk (_atm supmol) bas (_env supmol) (bvkcell_shl_id supmol) (bas_mask supmol)
     (omega supmol).

Definition with_omega (supmol : t) (w : R) : t :=
  mk (_atm supmol) (_bas supmol) (_env supmol) (bvkcell_shl_id supmol)
     (bas_mask supmol) w.

(** [supmol_only_s = supmol.copy(); supmol_only_s._bas[:,ANG_OF] = 0] *)
Definition only_s (supmol : t) : t :=
  with_bas supmol (map (fun b => set_ANG_OF b 0) (_bas supmol)).

End SupMol.

(** Elementwise sum of two vectors. *)
Definition vec_add (u v : list R) : list R :=
  map (fun p => fst p + snd p) (combine u v).

(** [abs(s0).max(axis=0)]: for every column the largest magnitude. *)
Definition absmax_axis0 (s0 : list (list R)) : result (list R) :=
  match s0 with
  | [] => raise ValueError
  | r :: rows =>
      ok (fold_left
            (fun acc row => map (fun p => Rmax (fst p) (snd p)) (combine acc (map Rabs row)))
            rows (map Rabs r))
  end.

(** [np.repeat(a.reshape(1,-1), n, axis=0).ravel()] *)
Definition repeat_ravel {A : Type} (a : list A) (n : nat) : list A :=
  concat (repeat a n).

Section ExtendedMole.

(** [cell.to_mol()] followed by [pbctools.pbc._build_supcell_]: the
    molecule with one copy of the cell's shells per translation vector. *)
Variable build_supcell : Cell.t -> list (list R) -> SupMol.t.
(** [mol.intor('int1e_ovlp', shls_slice=...)] *)
Variable intor_ovlp : SupMol.t -> nat * nat * nat * nat -> list (list R).

Definition _make_extended_mole (cell : Cell.t) (Ls bvkmesh_Ls : list (list R))
    (precision : option R) : result SupMol.t :=
  let precision :=
    match precision with
    | None => Cell.precision cell * 1e-2
    | Some p => p
    end in
  let LKs := map (fun L => map (fun K => vec_add L K) bvkmesh_Ls) Ls in
  let nimgs := length Ls in
  let nk := length bvkmesh_Ls in
  let nbas := Cell.nbas cell in
  let bvkcell_shl_id := repeat_ravel (seq 0 (nk * nbas)) nimgs in
  let supmol := build_supcell cell (concat LKs) in
  let supmol_only_s := SupMol.only_s supmol in
  let s0 := intor_ovlp supmol_only_s (0, nbas, 0, SupMol.nbas supmol)%nat in
  s0max <- absmax_axis0 s0 ;;
  let bas_mask := map (fun x => Rgtb x precision) s0max in
  bas <- Np.getitem_mask (SupMol._bas supmol) bas_mask ;;
  shl_id <- Np.getitem_mask bvkcell_shl_id bas_mask ;;
  ok (SupMol.mk (SupMol._atm supmol) bas (SupMol._env supmol) shl_id bas_mask
        (SupMol.omega supmol)).

End ExtendedMole.

(** Lines 162-171 of [build]: the BvK shell id and the smoothness class of
    every shell that [_make_extended_mole] kept. *)
Definition build_bvkcell_shl_id (bas_mask : list bool) (nkpts nimgs cell_nbas : nat)
    (cell_dense cell_sparse : Cell.t) : result (list nat) :=
  let bas_idx := Cell._bas_idx cell_dense ++ Cell._bas_idx cell_sparse in
  let kbas_idx :=
    map (fun k => map (fun b => (b + k * cell_nbas)%nat) bas_idx) (seq 0 nkpts) in
  let bvkcell_shl_id := repeat_ravel (concat kbas_idx) nimgs in
  Np.getitem_mask bvkcell_shl_id bas_mask.

Definition build_smooth_mask (bas_mask : list bool) (nkpts nimgs : nat)
    (cell_dense cell_merged : Cell.t) : result (list bool) :=
  let row := map (fun b => Nat.leb (Cell.nbas cell_dense) b)
                 (seq 0 (Cell.nbas cell_merged)) in
  let smooth_mask := concat (repeat row (nkpts * nimgs)) in
  Np.getitem_mask smooth_mask bas_mask.

(** ** Array shapes *)

Module Shape.

Definition t : Type := list nat.

Definition size (s : t) : nat := fold_right Nat.mul 1%nat s.

(** [a.reshape(-1, *tail)] *)
Definition reshape_infer (s : t) (tail : list nat) : result t :=
  let p := size tail in
  if Nat.eqb p 0 then raise ValueError
  else if Nat.eqb (size s mod p) 0 then ok ((size s / p)%nat :: tail)
  else raise ValueError.

Fixpoint broadcast_rev (a b : list nat) : result (list nat) :=
  match a, b with
  | [], _ => ok b
  | _, [] => ok a
  | x :: a', y :: b' =>
      r <- broadcast_rev a' b' ;;
      if Nat.eqb x y then ok (x :: r)
      else if Nat.eqb x 1 then ok (y :: r)
      else if Nat.eqb y 1 then ok (x :: r)
      else raise ValueError
  end.

(** The shape of [a + b]: numpy aligns the shapes at their last axis. *)
Definition broadcast (a b : t) : result t :=
  r <- broadcast_rev (rev a) (rev b) ;;
  ok (rev r).

(** [a += b], in place: [b] is broadcast to the shape of [a], which
    does not change. *)
Definition iadd (a b : t) : result t :=
  r <- broadcast a b ;;
  if list_eq_dec Nat.eq_dec r a then ok a else raise ValueError.

(** [a[0]] *)
Definition first (a : t) : result t :=
  match a with
  | [] => raise IndexError
  | n :: rest => if Nat.eqb n 0 then raise IndexError else ok rest
  end.

(** [a[:,:,idx[:,None],idx]] for a four-dimensional [a]. *)
Definition block (a : t) (idx : list nat) : result t :=
  match a with
  | [n; k; u; v] =>
      if forallb (fun i => Nat.ltb i u) idx && forallb (fun i => Nat.ltb i v) idx
      then ok [n; k; length idx; length idx]
      else raise IndexError
  | _ => raise IndexError
  end.

(** [lib.einsum('Rk,nkuv,Sk->nRuSv', phase, dm, phase.conj())]: the
    operands have two and four axes and agree on [k]. *)
Definition einsum_fold (phase dm : t) : result t :=
  match phase, dm with
  | [nR; k], [n; k'; u; v] =>
      if Nat.eqb k k' then ok [n; nR; u; nR; v] else raise ValueError
  | _, _ => raise ValueError
  end.

(** [lib.einsum('nuRv,Rk->nkuv', v, expRk)]: the operands agree on [R]. *)
Definition einsum_unfold (v expRk : t) : result t :=
  match v, expRk with
  | [n; u; nR; w], [nR'; k] =>
      if Nat.eqb nR nR' then ok [n; k; u; w] else raise ValueError
  | _, _ => raise ValueError
  end.

End Shape.

(** A density argument of [get_jk]: the shape of the array and the one
    property of its values that [get_jk] branches on, whether the density
    folded into the supercell has an imaginary part above 1e-6. *)
Module Density.

Record t : Type := mk {
  shape : Shape.t;
  folded_imag_above_tol : bool
}.

End Density.

Module VHFOpt.

(** [_vhf.VHFOpt(supmol, 'int2e_sph', qcondname=...)], created under the
    integral screen [screen], with the attribute [build] sets. *)
Record t : Type := mk {
  mol : SupMol.t;
  screen : R;
  direct_scf_tol : R
}.

End VHFOpt.

(** ** The builder object *)

Module RangeSeparationJKBuilder.

(** The instance attributes; [None] is [None]. [supmol_Ls] does not exist
    before the first [build]. *)
Record t : Type := mk {
  cell : Cell.t;
  stdout : nat;
  verbose : nat;
  max_memory : nat;
  mesh : option (list nat);
  kpts : list (list R);
  omega : option R;
  cell_dense : option Cell.t;
  cell_sparse : option Cell.t;
  bvkcell : option Cell.t;
  bvkmesh_Ls : option (list (list R));
  phase : option Shape.t;
  supmol : option SupMol.t;
  supmol_dense : option SupMol.t;
  supmol_sparse : option SupMol.t;
  bvkcell_shl_id : option (list nat);
  ovlp_mask : option (list (list nat));
  lr_aft : option AFTDF.t;
  sr_aft : option AFTDF.t;
  ke_cutoff : option R;
  vhfopt : option VHFOpt.t;
  blockdim : nat;
  _keys : list string;
  supmol_Ls : option (list (list R))
}.

(** [__init__(self, cell, kpts)]; [stdout], [verbose] and [max_memory]
    are the cell's, [blockdim] comes from the configuration. *)
Definition __init__ (cell : Cell.t) (stdout verbose max_memory blockdim : nat)
    (kpts : list (list R)) : t :=
  mk cell stdout verbose max_memory None kpts (Some 0.5) None None None None None
     None None None None None None None None None blockdim
     ["cell"; "stdout"; "verbose"; "max_memory"; "mesh"; "kpts"; "omega";
      "cell_dense"; "cell_sparse"; "bvkcell"; "bvkmesh_Ls"; "phase"; "supmol";
      "supmol_dense"; "supmol_sparse"; "bvkcell_shl_id"; "ovlp_mask"; "lr_aft";
      "sr_aft"; "ke_cutoff"; "vhfopt"; "blockdim"]%string
     None.

(** [reset(self, cell=None)], the second definition of the class body
    (line 82), which replaces the one of line 70. *)
Definition reset (self : t) (new_cell : option Cell.t) : t :=
  let self :=
    match new_cell with
    | Some c =>
        mk c (stdout self) (verbose self) (max_memory self) (mesh self) (kpts self)
           (omega self) (cell_dense self) (cell_sparse self) (bvkcell self)
           (bvkmesh_Ls self) (phase self) (supmol self) (supmol_dense self)
           (supmol_sparse self) (bvkcell_shl_id self) (ovlp_mask self) (lr_aft self)
           (sr_aft self) (ke_cutoff self) (vhfopt self) (blockdim self) (_keys self)
           (supmol_Ls self)
    | None => self
    end in
  mk (cell self) (stdout self) (verbose self) (max_memory self) (mesh self)
     (kpts self) (omega self) (cell_dense self) (cell_sparse self) (bvkcell self)
     (bvkmesh_Ls self) (phase self) None (supmol_dense self)
     (supmol_sparse self) (bvkcell_shl_id self) (ovlp_mask self) (lr_aft self)
     (sr_aft self) (ke_cutoff self) (vhfopt self) (blockdim self) (_keys self)
     (supmol_Ls self).

(** [abs(S) > tol] as int8, then 2 wherever both shells are smooth. *)
Definition make_ovlp_mask (ovlp : list (list R)) (tol : R) (smooth_mask : list bool)
    : result (list (list nat)) :=
  let n := length smooth_mask in
  if Nat.eqb (length ovlp) n && forallb (fun row => Nat.eqb (length row) n) ovlp
  then ok (map (fun ri =>
                  map (fun xj =>
                         if fst ri && snd xj then 2%nat
                         else if Rgtb (Rabs (fst xj)) tol then 1%nat else 0%nat)
                      (combine (snd ri) smooth_mask))
               (combine smooth_mask ovlp))
  else raise IndexError.

Section Methods.

(** Functions of pyscf.pbc.tools, pyscf.pbc.df.aft and k2gamma. *)
Variable mesh_to_cutoff : Cell.t -> list nat -> list R.
Variable estimate_omega_for_ke_cutoff : Cell.t -> R -> R.
Variable estimate_ke_cutoff_for_omega : Cell.t -> R -> R.
Variable cutoff_to_mesh : Cell.t -> R -> list nat.
Variable estimate_eta_for_ke_cutoff : Cell.t -> R -> R -> R.
Variable kpts_to_kmesh : Cell.t -> list (list R) -> list nat.
Variable get_phase : Cell.t -> list (list R) -> list nat -> Cell.t * Shape.t.
Variable translation_vectors_for_kmesh : Cell.t -> list nat -> list (list R).
(** [bvkcell.get_lattice_Ls(rcut=...)] and [Ls[norm(Ls).argsort()]]. *)
Variable get_lattice_Ls : Cell.t -> R -> list (list R).
Variable sort_by_norm : list (list R) -> list (list R).
Variable _primitive_gto_cutoff : Cell.t -> R -> list (list R) * list (list R).
(** [cell_dense + cell_sparse] *)
Variable cell_add : Cell.t -> Cell.t -> Cell.t.
Variable build_supcell : Cell.t -> list (list R) -> SupMol.t.
Variable intor_ovlp : SupMol.t -> nat * nat * nat * nat -> list (list R).
Variable intor_symmetric_ovlp : SupMol.t -> list (list R).

(** Lines 94-106: the range-separation parameter, the cutoff and the mesh. *)
Definition select_omega (self : t) (omega_arg : option R)
    : result (R * R * list nat) :=
  let self_omega :=
    match omega_arg with
    | Some w => Some w
    | None => omega self
    end in
  match self_omega with
  | None =>
      match mesh self with
      | None => raise TypeError
      | Some m =>
          ke <- Np.py_min
                  (mesh_to_cutoff (cell self) (firstn (Cell.dimension (cell self)) m)) ;;
          ok (estimate_omega_for_ke_cutoff (cell self) ke, ke, m)
      end
  | Some w =>
      let ke := estimate_ke_cutoff_for_omega (cell self) w in
      ok (w, ke, cutoff_to_mesh (cell self) ke)
  end.

Definition build (self : t) (omega_arg : option R) (direct_scf_tol : option R)
    : result t :=
  let cell := cell self in
  let kpts := kpts self in
  '(omega, ke_cutoff, mesh) <- select_omega self omega_arg ;;
  let direct_scf_tol :=
    match direct_scf_tol with
    | None => Cell.precision cell * 1e-3
    | Some tol => tol
    end in
  let kmesh := kpts_to_kmesh cell kpts in
  let '(bvkcell, phase) := get_phase cell kpts kmesh in
  let Ks := translation_vectors_for_kmesh cell kmesh in
  let eta := estimate_eta_for_ke_cutoff cell ke_cutoff direct_scf_tol in
  let rcut_sr := build_rcut_sr direct_scf_tol omega eta in
  let Ls := sort_by_norm (get_lattice_Ls bvkcell (Cell.rcut cell + rcut_sr)) in
  let nimgs := length Ls in
  '(cell_dense, cell_sparse, _) <- _split_cell _primitive_gto_cutoff cell ke_cutoff ;;
  let cell_merged := cell_add cell_dense cell_sparse in
  supmol <- _make_extended_mole build_supcell intor_ovlp cell_merged Ls Ks
              (Some direct_scf_tol) ;;
  let bas_mask := SupMol.bas_mask supmol in
  let nkpts := length kpts in
  shl_id <- build_bvkcell_shl_id bas_mask nkpts nimgs (Cell.nbas cell)
              cell_dense cell_sparse ;;
  smooth_mask <- build_smooth_mask bas_mask nkpts nimgs cell_dense cell_merged ;;
  let supmol := SupMol.with_omega supmol (- omega) in
  let vhfopt := VHFOpt.mk supmol (direct_scf_tol ^ 2) direct_scf_tol in
  let supmol_only_s := SupMol.only_s supmol in
  ovlp_mask <- make_ovlp_mask (intor_symmetric_ovlp supmol_only_s) direct_scf_tol
                 smooth_mask ;;
  let lr_aft := AFTDF.mk cell kpts (Some omega) mesh (Some ke_cutoff) in
  let sr_aft :=
    if Nat.ltb 0 (Cell.nbas cell_sparse)
    then Some (AFTDF.mk cell_sparse kpts (Some omega) mesh (Some ke_cutoff))
    else sr_aft self in
  ok (mk cell (stdout self) (verbose self) (max_memory self) (Some mesh) kpts
        (Some omega) (Some cell_dense) (Some cell_sparse) (Some bvkcell) (Some Ks)
        (Some phase) (Some supmol) (supmol_dense self) (supmol_sparse self)
        (Some shl_id) (Some ovlp_mask) (Some lr_aft) sr_aft (Some ke_cutoff)
        (Some vhfopt) (blockdim self) (_keys self) (Some Ls)).

(** [cell.nao] and [cell.ao_loc] of pyscf.gto.Mole, and the [get_jk] that
    the two kernel objects inherit from [aft.AFTDF]; it returns the shapes
    of its J and K, [None] for the one not asked for. *)
Variable Cell_nao : Cell.t -> nat.
Variable Cell_ao_loc : Cell.t -> list nat.
Variable aft_get_jk :
  AFTDF.t -> Shape.t -> nat -> list (list R) -> option (list (list R)) ->
  bool -> bool -> exx_arg -> result (option Shape.t * option Shape.t).

(** Reading an attribute of, or calling a method on, [None]. *)
Definition attr {A : Type} (x : option A) : result A :=
  match x with
  | Some a => ok a
  | None => raise AttributeError
  end.

(** An operand that must be an array. *)
Definition array {A : Type} (x : option A) : result A :=
  match x with
  | Some a => ok a
  | None => raise TypeError
  end.

(** Lines 217-219: the k-point check. *)
Definition check_kpts (self : t) (kpts_arg : option (list (list R))) : result unit :=
  match kpts_arg with
  | None => ok tt
  | Some k =>
      d <- Np.sub2 k (kpts self) ;;
      m <- Np.absmax2 d ;;
      if Rgtb m 1e-7 then raise (RuntimeError "kpts error") else ok tt
  end.

(** [np.hstack([np.arange(ao_loc[i], ao_loc[i+1]) for i in bas_idx])] *)
Definition sr_ao_idx (ao_loc : list nat) (bas_idx : list nat) : result (list nat) :=
  ranges <- Np.sequence
              (map (fun i =>
                      a <- SplitCell.getitem ao_loc i ;;
                      b <- SplitCell.getitem ao_loc (S i) ;;
                      ok (seq a (b - a)))
                   bas_idx) ;;
  match ranges with
  | [] => raise ValueError
  | _ => ok (concat ranges)
  end.

(** Lines 322-328 (and 330-336): one of the two outputs, from the raw
    output [v] of the real-space contraction. *)
Definition finish (ndim : nat) (v expRk : Shape.t)
    (sr : option (list nat * option Shape.t)) (v1 : option Shape.t) : result Shape.t :=
  v <- Shape.einsum_unfold v expRk ;;
  _ <- match sr with
       | None => ok v
       | Some (idx, v2) =>
           blk <- Shape.block v idx ;;
           v2 <- array v2 ;;
           Shape.iadd blk v2
       end ;;
  v <- (if Nat.eqb ndim 3 then Shape.first v else ok v) ;;
  v1 <- array v1 ;;
  Shape.iadd v v1.

(** Lines 227-339, with [kpts = self.kpts] and [kpts_band = None]. *)
Definition get_jk_body (self : t) (kpts : list (list R)) (dm_kpts : Density.t)
    (hermi : nat) (with_j with_k : bool) (exxdiv : exx_arg)
    : result (option Shape.t * option Shape.t) :=
  let cell := cell self in
  let nkpts := length kpts in
  bvkcell <- attr (bvkcell self) ;;
  let nao := Cell_nao cell in
  let k_nao := Cell_nao bvkcell in
  supmol <- attr (supmol self) ;;
  shl_id <- attr (bvkcell_shl_id self) ;;
  _ <- Np.sequence (map (SplitCell.getitem (Cell_ao_loc bvkcell)) shl_id) ;;
  let ndim := length (Density.shape dm_kpts) in
  dm <- (if negb (Nat.eqb ndim 4)
         then Shape.reshape_infer (Density.shape dm_kpts) [nkpts; nao; nao]
         else ok (Density.shape dm_kpts)) ;;
  n_dm <- SplitCell.getitem dm 0 ;;
  phase <- array (phase self) ;;
  sc_dm <- Shape.einsum_fold phase dm ;;
  let is_complex_dm := Density.folded_imag_above_tol dm_kpts in
  let sc_dm :=
    if is_complex_dm
    then match sc_dm with n :: rest => (2 * n)%nat :: rest | [] => [] end
    else sc_dm in
  sc_dm <- Shape.reshape_infer sc_dm [k_nao; k_nao] ;;
  n_sc_dm <- SplitCell.getitem sc_dm 0 ;;
  _ <- (if Nat.eqb n_sc_dm 0 then raise ValueError else ok tt) ;;
  let vs : Shape.t :=
    if with_j && with_k then [2; n_sc_dm; nao; nkpts; nao]%nat
    else [1; n_sc_dm; nao; nkpts; nao]%nat in
  cell_dense <- attr (cell_dense self) ;;
  cell_sparse <- attr (cell_sparse self) ;;
  vs <- (if is_complex_dm
         then
           match vs with
           | c :: n :: rest =>
               Shape.broadcast (c :: Nat.min n_dm n :: rest) (c :: (n - n_dm)%nat :: rest)
           | _ => raise IndexError
           end
         else ok vs) ;;
  v <- Shape.first vs ;;
  let vj := if with_j then Some v else None in
  let vk := if with_j && negb with_k then None else Some v in
  sr <- match sr_aft self with
        | None => ok None
        | Some sr =>
            idx <- sr_ao_idx (Cell_ao_loc cell) (Cell._bas_idx (AFTDF.cell sr)) ;;
            sr_dm <- Shape.block dm idx ;;
            '(vj2, vk2) <- aft_get_jk sr sr_dm hermi kpts None with_j with_k exxdiv ;;
            ok (Some (idx, vj2, vk2))
        end ;;
  lr <- attr (lr_aft self) ;;
  '(vj1, vk1) <- aft_get_jk lr (Density.shape dm_kpts) hermi kpts None with_j with_k
                   exxdiv ;;
  Ls <- array (bvkmesh_Ls self) ;;
  let expRk : Shape.t := [length Ls; nkpts] in
  vj <- (if with_j
         then
           vj <- array vj ;;
           r <- finish ndim vj expRk
                  (match sr with Some (idx, vj2, _) => Some (idx, vj2) | None => None end)
                  vj1 ;;
           ok (Some r)
         else ok vj) ;;
  vk <- (if with_k
         then
           vk <- array vk ;;
           r <- finish ndim vk expRk
                  (match sr with Some (idx, _, vk2) => Some (idx, vk2) | None => None end)
                  vk1 ;;
           ok (Some r)
         else ok vk) ;;
  ok (vj, vk).

(** [get_jk]: the three guards, the lazy build, the evaluation. The
    result is the builder after the call and the shapes of J and K. *)
Definition get_jk (self : t) (dm_kpts : Density.t) (hermi : nat)
    (kpts_arg kpts_band : option (list (list R))) (with_j with_k : bool)
    (omega_arg : option R) (exxdiv : exx_arg)
    : result (t * (option Shape.t * option Shape.t)) :=
  match omega_arg with
  | Some _ => raise NotImplementedError
  | None =>
      _ <- check_kpts self kpts_arg ;;
      let kpts := kpts self in
      match kpts_band with
      | Some _ => raise NotImplementedError
      | None =>
          self <- match supmol self with
                  | None => build self None None
                  | Some _ => ok self
                  end ;;
          jk <- get_jk_body self kpts dm_kpts hermi with_j with_k exxdiv ;;
          ok (self, jk)
      end
  end.

End Methods.

End RangeSeparationJKBuilder.

(** ** Concrete inputs *)

(** Small instances of the functions of other modules and of the inputs,
    on which the properties below are evaluated. *)
Module Example.

Definition cell0 : Cell.t := Cell.mk [] [] [] 0 1e-8 0 3.

(** A cell of an already range-separated Hamiltonian. *)
Definition cell_rsh : Cell.t := Cell.mk [] [] [] 0 1e-8 0.11 3.

(** Two plane waves, the first one G=0, with one common weight. *)
Definition get_Gv_weights (cell : Cell.t) (mesh : list nat)
    : list (list R) * list (list R) * Np.weights :=
  ([[0; 0; 0]; [1; 0; 0]], [], Np.WScalar (1 / 2)).

(** 4 pi / G^2, and 0 at G=0. *)
Definition get_coulG (cell : Cell.t) (kpt : list R) (exx : exx_arg) (mf : AFTDF.t)
    (mesh : list nat) (Gv : list (list R)) (omega : option R) : list R :=
  [0; 4 * PI].

Definition gamma_point (kpt : list R) : bool := Np.all_zero kpt.

Definition aft0 : AFTDF.t := AFTDF.mk cell0 [[0; 0; 0]] (Some 1) [1; 1; 1]%nat None.

Definition aft_rsh : AFTDF.t :=
  AFTDF.mk cell_rsh [[0; 0; 0]] (Some 1) [1; 1; 1]%nat None.

(** A cell with one steep and one smooth s shell, a Gamma-point builder on
    it, and functions of the other modules that make [build] and [get_jk]
    run: two lattice images, of which the steep shell of the second one
    overlaps too little to be kept. *)
Definition shell_steep : bas_row := mk_bas 0 0 1 1 0 0 1.

Definition shell_smooth : bas_row := mk_bas 0 0 1 1 0 2 3.

Definition cell1 : Cell.t :=
  Cell.mk [shell_steep; shell_smooth] [2.1; 1; 0.1; 0.2] [] 5 1e-8 0 3.

Definition mesh_to_cutoff (cell : Cell.t) (mesh : list nat) : list R := [10; 10; 10].

Definition estimate_omega_for_ke_cutoff (cell : Cell.t) (ke : R) : R := 0.5.

Definition estimate_ke_cutoff_for_omega (cell : Cell.t) (w : R) : R := 10.

Definition cutoff_to_mesh (cell : Cell.t) (ke : R) : list nat := [5; 5; 5]%nat.

Definition estimate_eta_for_ke_cutoff (cell : Cell.t) (ke tol : R) : R := 1.

Definition kpts_to_kmesh (cell : Cell.t) (kpts : list (list R)) : list nat :=
  [1; 1; 1]%nat.

Definition get_phase (cell : Cell.t) (kpts : list (list R)) (kmesh : list nat)
    : Cell.t * Shape.t :=
  (cell, [1%nat; length kpts]).

Definition translation_vectors_for_kmesh (cell : Cell.t) (kmesh : list nat)
    : list (list R) :=
  [[0; 0; 0]].

Definition get_lattice_Ls (bvkcell : Cell.t) (rcut : R) : list (list R) :=
  [[0; 0; 0]; [1.8; 0; 0]].

Definition sort_by_norm (Ls : list (list R)) : list (list R) := Ls.

Definition _primitive_gto_cutoff (cell : Cell.t) (precision : R)
    : list (list R) * list (list R) :=
  ([[3]; [9]], [[50]; [2]]).

Definition cell_add (a b : Cell.t) : Cell.t :=
  Cell.mk (Cell._bas a ++ Cell._bas b) (Cell._env a) [] (Cell.rcut a)
    (Cell.precision a) (Cell.omega a) (Cell.dimension a).

Definition build_supcell (cell : Cell.t) (LKs : list (list R)) : SupMol.t :=
  SupMol.mk [] (concat (map (fun _ => Cell._bas cell) LKs)) (Cell._env cell) [] [] 0.

Definition intor_ovlp (supmol : SupMol.t) (shls_slice : nat * nat * nat * nat)
    : list (list R) :=
  [[1; 0.3; 1e-13; 1e-5]; [0.3; 1; 1e-12; 1e-3]].

Definition intor_symmetric_ovlp (supmol : SupMol.t) : list (list R) :=
  [[1; 0.3; 1e-5]; [0.3; 1; 1e-3]; [1e-5; 1e-3; 1]].

Definition Cell_nao (cell : Cell.t) : nat := Cell.nbas cell.

Definition Cell_ao_loc (cell : Cell.t) : list nat := seq 0 (S (Cell.nbas cell)).

Definition aft_get_jk (aft : AFTDF.t) (dm : Shape.t) (hermi : nat)
    (kpts : list (list R)) (kpts_band : option (list (list R)))
    (with_j with_k : bool) (exxdiv : exx_arg)
    : result (option Shape.t * option Shape.t) :=
  ok (if with_j then Some dm else None, if with_k then Some dm else None).

Definition builder0 : RangeSeparationJKBuilder.t :=
  RangeSeparationJKBuilder.__init__ cell1 0 4 4000 240 [[0; 0; 0]].

Definition build (self : RangeSeparationJKBuilder.t) (omega tol : option R)
    : result RangeSeparationJKBuilder.t :=
  RangeSeparationJKBuilder.build mesh_to_cutoff estimate_omega_for_ke_cutoff
    estimate_ke_cutoff_for_omega cutoff_to_mesh estimate_eta_for_ke_cutoff
    kpts_to_kmesh get_phase translation_vectors_for_kmesh get_lattice_Ls sort_by_norm
    _primitive_gto_cutoff cell_add build_supcell intor_ovlp intor_symmetric_ovlp
    self omega tol.

Definition get_jk (self : RangeSeparationJKBuilder.t) (dm_kpts : Density.t)
    (hermi : nat) (kpts kpts_band : option (list (list R))) (with_j with_k : bool)
    (omega : option R) (exxdiv : exx_arg)
    : result (RangeSeparationJKBuilder.t * (option Shape.t * option Shape.t)) :=
  RangeSeparationJKBuilder.get_jk mesh_to_cutoff estimate_omega_for_ke_cutoff
    estimate_ke_cutoff_for_omega cutoff_to_mesh estimate_eta_for_ke_cutoff
    kpts_to_kmesh get_phase translation_vectors_for_kmesh get_lattice_Ls sort_by_norm
    _primitive_gto_cutoff cell_add build_supcell intor_ovlp intor_symmetric_ovlp
    Cell_nao Cell_ao_loc aft_get_jk self dm_kpts hermi kpts kpts_band with_j with_k
    omega exxdiv.

(** A cell with one generally contracted shell of two primitives, the first
    steep and the second smooth: exponents 2.1 and 0.1, coefficients
    (1, 0.5) and (0.2, 0.3) in the two contractions. *)
Definition shell_gc : bas_row := mk_bas 0 0 2 2 0 0 2.

Definition cell_gc : Cell.t :=
  Cell.mk [shell_gc] [2.1; 0.1; 1; 0.2; 0.5; 0.3] [] 5 1e-8 0 3.

Definition cutoff_gc (cell : Cell.t) (precision : R) : list (list R) * list (list R) :=
  ([[3; 9]], [[50; 2]]).

(** A cell with one shell of two primitives in one contraction, the smooth
    primitive first. *)
Definition shell_mixed : bas_row := mk_bas 0 0 2 1 0 0 2.

Definition cell_mixed : Cell.t :=
  Cell.mk [shell_mixed] [0.1; 2.1; 0.2; 1] [] 5 1e-8 0 3.

Definition cutoff_mixed (cell : Cell.t) (precision : R)
    : list (list R) * list (list R) :=
  ([[9; 3]], [[2; 50]]).

(** A k-point list that is not the builder's, 1e-8 away from it. *)
Definition kpts_near : list (list R) := [[1e-8; 0; 0]].

(** A k-point list 0.25 away from the builder's. *)
Definition kpts_far : list (list R) := [[0.25; 0; 0]].

(** One density matrix for the one k-point, not batched. *)
Definition dm3 : Density.t := Density.mk [1; 2; 2]%nat false.

(** A batch of two density matrices whose folded density is complex. *)
Definition dm4 : Density.t := Density.mk [2; 1; 2; 2]%nat true.

(** The builder after its first [build]. *)
Definition cell1_dense : Cell.t :=
  Cell.mk [shell_steep] [2.1; 1; 0.1; 0.2] [0%nat] 3 1e-8 0 3.

Definition cell1_sparse : Cell.t :=
  Cell.mk [shell_smooth] [2.1; 1; 0.1; 0.2] [1%nat] 5 1e-8 0 3.

Definition supmol1 : SupMol.t :=
  SupMol.mk [] [shell_steep; shell_smooth; shell_smooth] [2.1; 1; 0.1; 0.2]
    [0; 1; 1]%nat [true; true; false; true] (- (0.5)).

Definition built0 : RangeSeparationJKBuilder.t :=
  RangeSeparationJKBuilder.mk cell1 0 4 4000 (Some [5; 5; 5]%nat) [[0; 0; 0]]
    (Some 0.5) (Some cell1_dense) (Some cell1_sparse) (Some cell1)
    (Some [[0; 0; 0]]) (Some [1; 1]%nat) (Some supmol1) None None
    (Some [0; 1; 1]%nat)
    (Some [[1; 1; 1]; [1; 2; 2]; [1; 2; 2]]%nat)
    (Some (AFTDF.mk cell1 [[0; 0; 0]] (Some 0.5) [5; 5; 5]%nat (Some 10)))
    (Some (AFTDF.mk cell1_sparse [[0; 0; 0]] (Some 0.5) [5; 5; 5]%nat (Some 10)))
    (Some 10)
    (Some (VHFOpt.mk supmol1 ((1e-8 * 1e-3) ^ 2) (1e-8 * 1e-3)))
    240 (RangeSeparationJKBuilder._keys builder0)
    (Some [[0; 0; 0]; [1.8; 0; 0]]).

(** A cutoff estimate for which both shells of [cell1] are steep, and
    [build] with it. *)
Definition cutoff_steep (cell : Cell.t) (precision : R)
    : list (list R) * list (list R) :=
  ([[3]; [4]], [[50]; [60]]).

Definition build_steep (self : RangeSeparationJKBuilder.t) (omega tol : option R)
    : result RangeSeparationJKBuilder.t :=
  RangeSeparationJKBuilder.build mesh_to_cutoff estimate_omega_for_ke_cutoff
    estimate_ke_cutoff_for_omega cutoff_to_mesh estimate_eta_for_ke_cutoff
    kpts_to_kmesh get_phase translation_vectors_for_kmesh get_lattice_Ls sort_by_norm
    cutoff_steep cell_add build_supcell intor_ovlp intor_symmetric_ovlp
    self omega tol.

(** A new builder whose omega has been set to None, to have it estimated
    from a mesh, and which has been given no mesh. *)
Definition builder_auto : RangeSeparationJKBuilder.t :=
  RangeSeparationJKBuilder.mk cell1 0 4 4000 None [[0; 0; 0]] None None None None None
    None None None None None None None None None None 240
    (RangeSeparationJKBuilder._keys builder0) None.

(** A density with three elements, which is no batch of 2 x 2 matrices. *)
Definition dm_bad : Density.t := Density.mk [3]%nat false.

End Example.

(** * Properties *)

(** ** Float comparisons *)

Lemma Rgtb_true (x y : R) : x > y -> Rgtb x y = true.
Proof. intros H. unfold Rgtb. destruct (Rgt_dec x y); [reflexivity | contradiction]. Qed.

Lemma Rgtb_false (x y : R) : x <= y -> Rgtb x y = false.
Proof. intros H. unfold Rgtb. destruct (Rgt_dec x y); [lra | reflexivity]. Qed.

Lemma Rgtb_spec (x y : R) : Rgtb x y = true <-> x > y.
Proof.
  unfold Rgtb. destruct (Rgt_dec x y); split; intros; try assumption;
    try reflexivity; try discriminate; contradiction.
Qed.

Lemma Reqb_true (x y : R) : x = y -> Reqb x y = true.
Proof. intros H. unfold Reqb. destruct (Req_dec_T x y); [reflexivity | contradiction]. Qed.

Lemma Reqb_false (x y : R) : x <> y -> Reqb x y = false.
Proof. intros H. unfold Reqb. destruct (Req_dec_T x y); [contradiction | reflexivity]. Qed.

Lemma Reqb_spec (x y : R) : Reqb x y = true <-> x = y.
Proof.
  unfold Reqb. destruct (Req_dec_T x y); split; intros; try assumption;
    try reflexivity; try discriminate; contradiction.
Qed.

Arguments Rgtb : simpl never.
Arguments Reqb : simpl never.

(** Decides the float comparisons, magnitudes and maxima over literals that
    occur in a goal. *)
Ltac float_cmp :=
  repeat match goal with
  | |- context [Rabs ?a] =>
      first [ rewrite (Rabs_pos_eq a) by lra | rewrite (Rabs_left a) by lra ]
  | |- context [Rmax ?a ?b] =>
      first [ rewrite (Rmax_left a b) by lra | rewrite (Rmax_right a b) by lra ]
  | |- context [Rmin ?a ?b] =>
      first [ rewrite (Rmin_left a b) by lra | rewrite (Rmin_right a b) by lra ]
  | |- context [Rgtb ?a ?b] =>
      first [ rewrite (Rgtb_true a b) by lra | rewrite (Rgtb_false a b) by lra ]
  | |- context [Reqb ?a ?b] =>
      first [ rewrite (Reqb_true a b) by lra | rewrite (Reqb_false a b) by lra ]
  end.

(** Evaluates a goal over literals. *)
Ltac float_eval := repeat (progress (simpl; float_cmp)).

(** ** Fallible computations *)

Lemma bind_ok {A B : Type} (m : result A) (k : A -> result B) (y : B) :
  bind m k = ok y -> exists x, m = ok x /\ k x = ok y.
Proof.
  destruct m as [e | x]; simpl; intros H.
  - discriminate H.
  - exists x. split; [reflexivity | exact H].
Qed.

(** Splits a successful sequence of binds into its successful steps. *)
Ltac bind_inv H :=
  let x := fresh "x" in
  let Hx := fresh "Hx" in
  apply bind_ok in H; destruct H as (x & Hx & H).

(** ** Array helpers *)

Lemma getitem_mask_ok {A : Type} (a : list A) (mask : list bool) (r : list A) :
  Np.getitem_mask a mask = ok r -> length mask = length a /\ r = Np.select mask a.
Proof.
  unfold Np.getitem_mask. destruct (Nat.eqb (length mask) (length a)) eqn:E.
  - intros H. injection H as <-. apply Nat.eqb_eq in E. split; [exact E | reflexivity].
  - discriminate.
Qed.

Lemma length_isub_where (a : list R) (mask : list bool) (c : R) :
  length (Np.isub_where a mask c) = length a.
Proof.
  revert mask. induction a as [| x a IH]; intros [| m mask]; simpl; try reflexivity.
  now rewrite IH.
Qed.

Lemma nth_isub_where (a : list R) (mask : list bool) (c : R) (i : nat) :
  (i < length a)%nat ->
  nth i (Np.isub_where a mask c) 0 =
    if nth i mask false then nth i a 0 - c else nth i a 0.
Proof.
  revert mask i. induction a as [| x a IH]; intros mask i Hi; simpl in Hi.
  - lia.
  - destruct mask as [| m mask].
    + simpl. now destruct i.
    + destruct i as [| i]; simpl.
      * reflexivity.
      * apply IH. lia.
Qed.

Lemma nth_iadd_where (a : list R) (mask : list bool) (c : R) (i : nat) :
  (i < length a)%nat ->
  nth i (Np.iadd_where a mask c) 0 =
    if nth i mask false then nth i a 0 + c else nth i a 0.
Proof.
  revert mask i. induction a as [| x a IH]; intros mask i Hi; simpl in Hi.
  - lia.
  - destruct mask as [| m mask].
    + simpl. now destruct i.
    + destruct i as [| i]; simpl.
      * reflexivity.
      * apply IH. lia.
Qed.

Lemma nth_map_scale (a : list R) (w : R) (i : nat) :
  nth i (map (fun x => x * w) a) 0 = nth i a 0 * w.
Proof.
  revert i. induction a as [| x a IH]; intros [| i]; simpl; try lra; apply IH.
Qed.

Lemma nth_combine_mul (a ws : list R) (i : nat) :
  length ws = length a ->
  nth i (map (fun xw => fst xw * snd xw) (combine a ws)) 0 = nth i a 0 * nth i ws 0.
Proof.
  revert ws i. induction a as [| x a IH]; intros [| w ws] i Hl; simpl in *;
    try discriminate.
  - destruct i; lra.
  - destruct i as [| i]; [reflexivity | apply IH; lia].
Qed.

(** [a *= kws] multiplies every entry by its weight. *)
Lemma imul_nth (a : list R) (kws : Np.weights) (out : list R) (i : nat) :
  Np.imul a kws = ok out -> nth i out 0 = nth i a 0 * Np.weight_at kws i.
Proof.
  destruct kws as [w | ws]; simpl.
  - intros H. injection H as <-. apply nth_map_scale.
  - destruct ws as [| w [| w' ws]].
    + destruct (Nat.eqb _ _) eqn:E; [| discriminate].
      intros H. injection H as <-. apply nth_combine_mul.
      apply Nat.eqb_eq in E. exact E.
    + intros H. injection H as <-. apply nth_map_scale.
    + destruct (Nat.eqb _ _) eqn:E; [| discriminate].
      intros H. injection H as <-. apply nth_combine_mul.
      apply Nat.eqb_eq in E. exact E.
Qed.

Lemma nth_gamma_idx (Gv : list (list R)) (i : nat) (g : list R) :
  nth_error Gv i = Some g -> nth i (map Np.all_zero Gv) false = Np.all_zero g.
Proof.
  revert i. induction Gv as [| r Gv IH]; intros [| i]; simpl; try discriminate.
  - intros H. now injection H as ->.
  - apply IH.
Qed.

(** ** Reciprocal-space kernels *)

Section KernelFacts.

Variable get_Gv_weights :
  Cell.t -> list nat -> list (list R) * list (list R) * Np.weights.
Variable get_coulG :
  Cell.t -> list R -> exx_arg -> AFTDF.t -> list nat -> list (list R) ->
  option R -> list R.
Variable gamma_point : list R -> bool.

Lemma pi_over_omega2_ok (omega : option R) (c : R) :
  pi_over_omega2 omega = ok c -> exists w, omega = Some w /\ w <> 0 /\ c = PI / w ^ 2.
Proof.
  unfold pi_over_omega2. destruct omega as [w |]; [| discriminate].
  destruct (Reqb (w ^ 2) 0) eqn:E; [discriminate |].
  intros H. injection H as <-. exists w. repeat split.
  intros ->. rewrite Reqb_true in E by lra. discriminate.
Qed.

(** The G=0 step of the long-range kernel: an entry of a zero plane wave
    loses pi/omega^2 when the step applies, every entry is kept otherwise. *)
Lemma lr_adjust_G0_nth (self : AFTDF.t) (kpt : list R) (exx : exx_arg)
    (Gv : list (list R)) (coulG adj : list R) (w : R) (i : nat) (g : list R) :
  LongRangeAFT.adjust_G0 gamma_point self kpt exx Gv coulG = ok adj ->
  AFTDF.omega self = Some w ->
  nth_error Gv i = Some g -> Np.all_zero g = true ->
  nth i adj 0 =
    nth i coulG 0 -
    (if (py_not exx || eq_ewald exx) && gamma_point kpt then PI / w ^ 2 else 0).
Proof.
  unfold LongRangeAFT.adjust_G0. intros H Hw Hg Hz.
  destruct (py_not exx || eq_ewald exx); simpl;
    [destruct (gamma_point kpt) |]; simpl;
    try (injection H as <-; lra).
  bind_inv H. bind_inv H. injection H as <-.
  apply getitem_mask_ok in Hx as [Hlen _].
  apply pi_over_omega2_ok in Hx0 as (w' & Hw' & _ & ->).
  rewrite Hw in Hw'. injection Hw' as <-.
  rewrite nth_isub_where.
  - rewrite (nth_gamma_idx _ _ _ Hg), Hz. reflexivity.
  - rewrite <- Hlen, length_map. apply nth_error_Some. rewrite Hg. discriminate.
Qed.

(** The same step of the short-range-complement kernel adds pi/omega^2. *)
Lemma sr_adjust_G0_nth (self : AFTDF.t) (kpt : list R) (exx : exx_arg)
    (Gv : list (list R)) (coulG adj : list R) (w : R) (i : nat) (g : list R) :
  ShortRangeAFT.adjust_G0 gamma_point self kpt exx Gv coulG = ok adj ->
  AFTDF.omega self = Some w ->
  nth_error Gv i = Some g -> Np.all_zero g = true ->
  nth i adj 0 =
    nth i coulG 0 +
    (if (py_not exx || eq_ewald exx) && gamma_point kpt then PI / w ^ 2 else 0).
Proof.
  unfold ShortRangeAFT.adjust_G0. intros H Hw Hg Hz.
  destruct (py_not exx || eq_ewald exx); simpl;
    [destruct (gamma_point kpt) |]; simpl;
    try (injection H as <-; lra).
  bind_inv H. bind_inv H. injection H as <-.
  apply getitem_mask_ok in Hx as [Hlen _].
  apply pi_over_omega2_ok in Hx0 as (w' & Hw' & _ & ->).
  rewrite Hw in Hw'. injection Hw' as <-.
  rewrite nth_iadd_where.
  - rewrite (nth_gamma_idx _ _ _ Hg), Hz. reflexivity.
  - rewrite <- Hlen, length_map. apply nth_error_Some. rewrite Hg. discriminate.
Qed.

(** A successful long-range kernel is the adjusted kernel times the weights. *)
Lemma lr_weighted_coulG_ok (self : AFTDF.t) (kpt : list R) (exx : exx_arg)
    (mesh : option (list nat)) (out : list R) :
  LongRangeAFT.weighted_coulG get_Gv_weights get_coulG gamma_point self kpt exx mesh
    = ok out ->
  let m := match mesh with None => AFTDF.mesh self | Some m => m end in
  let Gv := fst (fst (get_Gv_weights (AFTDF.cell self) m)) in
  let kws := snd (get_Gv_weights (AFTDF.cell self) m) in
  let coulG := get_coulG (AFTDF.cell self) kpt exx self m Gv (AFTDF.omega self) in
  Cell.omega (AFTDF.cell self) = 0 /\
  exists adj,
    LongRangeAFT.adjust_G0 gamma_point self kpt exx Gv coulG = ok adj /\
    Np.imul adj kws = ok out.
Proof.
  intros H m Gv kws coulG. unfold LongRangeAFT.weighted_coulG in H.
  destruct (Reqb (Cell.omega (AFTDF.cell self)) 0) eqn:E; simpl in H; [| discriminate].
  apply Reqb_spec in E. split; [exact E |].
  subst coulG Gv kws m.
  destruct (get_Gv_weights _ _) as [[Gv Gvbase] kws]. simpl.
  bind_inv H. exists x. split; assumption.
Qed.

Lemma sr_weighted_coulG_ok (self : AFTDF.t) (kpt : list R) (exx : exx_arg)
    (mesh : option (list nat)) (out : list R) :
  ShortRangeAFT.weighted_coulG get_Gv_weights get_coulG gamma_point self kpt exx mesh
    = ok out ->
  let m := match mesh with None => AFTDF.mesh self | Some m => m end in
  let Gv := fst (fst (get_Gv_weights (AFTDF.cell self) m)) in
  let kws := snd (get_Gv_weights (AFTDF.cell self) m) in
  Cell.omega (AFTDF.cell self) = 0 /\
  exists w adj,
    AFTDF.omega self = Some w /\
    ShortRangeAFT.adjust_G0 gamma_point self kpt exx Gv
      (get_coulG (AFTDF.cell self) kpt ExxNone self m Gv (Some (- w))) = ok adj /\
    Np.imul adj kws = ok out.
Proof.
  intros H m Gv kws. unfold ShortRangeAFT.weighted_coulG in H.
  destruct (Reqb (Cell.omega (AFTDF.cell self)) 0) eqn:E; simpl in H; [| discriminate].
  apply Reqb_spec in E. split; [exact E |].
  subst Gv kws m.
  destruct (get_Gv_weights _ _) as [[Gv Gvbase] kws]. simpl.
  bind_inv H. unfold ShortRangeAFT.neg_omega in Hx.
  destruct (AFTDF.omega self) as [w |]; [| discriminate].
  injection Hx as <-. bind_inv H.
  exists w, x. repeat split; assumption.
Qed.

(** C5. Both kernels raise the RuntimeError of lines 350-352 and 378-380
    whenever the cell's own omega is not zero, whatever kpt, exx and mesh
    are. *)
Theorem kernels_reject_range_separated_cell (self : AFTDF.t) (kpt : list R)
    (exx : exx_arg) (mesh : option (list nat)) :
  Cell.omega (AFTDF.cell self) <> 0 ->
  LongRangeAFT.weighted_coulG get_Gv_weights get_coulG gamma_point self kpt exx mesh
    = raise (RuntimeError kernel_error) /\
  ShortRangeAFT.weighted_coulG get_Gv_weights get_coulG gamma_point self kpt exx mesh
    = raise (RuntimeError kernel_error).
Proof.
  intros H.
  unfold LongRangeAFT.weighted_coulG, ShortRangeAFT.weighted_coulG.
  rewrite (Reqb_false _ _ H). simpl. split; reflexivity.
Qed.

(** C4 (amended). In a successful call of the long-range kernel, the entry
    of a zero plane wave is the Coulomb kernel minus pi/omega^2, times its
    weight, exactly when the k-point is the Gamma point and exx is false,
    None or 'ewald'; for every other exx (True, 'vcut_sph', ...) and away
    from the Gamma point it is the unmodified kernel times its weight. *)
Theorem lr_G0_term (self : AFTDF.t) (kpt : list R) (exx : exx_arg)
    (mesh : option (list nat)) (out : list R) (w : R) (i : nat) (g : list R) :
  let m := match mesh with None => AFTDF.mesh self | Some m => m end in
  let Gv := fst (fst (get_Gv_weights (AFTDF.cell self) m)) in
  let kws := snd (get_Gv_weights (AFTDF.cell self) m) in
  let coulG := get_coulG (AFTDF.cell self) kpt exx self m Gv (AFTDF.omega self) in
  LongRangeAFT.weighted_coulG get_Gv_weights get_coulG gamma_point self kpt exx mesh
    = ok out ->
  AFTDF.omega self = Some w ->
  nth_error Gv i = Some g -> Np.all_zero g = true ->
  nth i out 0 =
    (if (py_not exx || eq_ewald exx) && gamma_point kpt
     then nth i coulG 0 - PI / w ^ 2
     else nth i coulG 0) * Np.weight_at kws i.
Proof.
  intros m Gv kws coulG H Hw Hg Hz.
  apply lr_weighted_coulG_ok in H as (_ & adj & Hadj & Hmul).
  rewrite (imul_nth _ _ _ i Hmul).
  rewrite (lr_adjust_G0_nth _ _ _ _ _ _ _ _ _ Hadj Hw Hg Hz).
  fold m Gv coulG.
  destruct ((py_not exx || eq_ewald exx) && gamma_point kpt); f_equal; lra.
Qed.

(** C3. When the two kernels share omega > 0, the plane waves and the
    weights, then at every zero plane wave the change the long-range kernel
    makes (minus pi/omega^2 at the Gamma point) and the change the
    short-range-complement kernel makes (plus pi/omega^2) add up to zero,
    and the sum of the two outputs is the sum of the two unmodified
    kernels times the weight. *)
Theorem G0_adjustments_cancel (lr sr : AFTDF.t) (kpt : list R) (exx : exx_arg)
    (m : list nat) (out_lr out_sr : list R) (w : R) (i : nat) (g : list R) :
  let Gv := fst (fst (get_Gv_weights (AFTDF.cell lr) m)) in
  let kws := snd (get_Gv_weights (AFTDF.cell lr) m) in
  let coulG_lr := get_coulG (AFTDF.cell lr) kpt exx lr m Gv (Some w) in
  let coulG_sr := get_coulG (AFTDF.cell sr) kpt ExxNone sr m Gv (Some (- w)) in
  0 < w ->
  AFTDF.omega lr = Some w -> AFTDF.omega sr = Some w ->
  get_Gv_weights (AFTDF.cell sr) m = get_Gv_weights (AFTDF.cell lr) m ->
  LongRangeAFT.weighted_coulG get_Gv_weights get_coulG gamma_point lr kpt exx (Some m)
    = ok out_lr ->
  ShortRangeAFT.weighted_coulG get_Gv_weights get_coulG gamma_point sr kpt exx (Some m)
    = ok out_sr ->
  gamma_point kpt = true ->
  nth_error Gv i = Some g -> Np.all_zero g = true ->
  exists adj_lr adj_sr,
    LongRangeAFT.adjust_G0 gamma_point lr kpt exx Gv coulG_lr = ok adj_lr /\
    ShortRangeAFT.adjust_G0 gamma_point sr kpt exx Gv coulG_sr = ok adj_sr /\
    (nth i adj_lr 0 - nth i coulG_lr 0) + (nth i adj_sr 0 - nth i coulG_sr 0) = 0 /\
    (py_not exx || eq_ewald exx = true ->
     nth i adj_lr 0 - nth i coulG_lr 0 = - (PI / w ^ 2) /\
     nth i adj_sr 0 - nth i coulG_sr 0 = PI / w ^ 2) /\
    nth i out_lr 0 + nth i out_sr 0 =
      (nth i coulG_lr 0 + nth i coulG_sr 0) * Np.weight_at kws i.
Proof.
  intros Gv kws coulG_lr coulG_sr Hpos Hwl Hws HGv Hl Hs Hgam Hg Hz.
  apply lr_weighted_coulG_ok in Hl as (_ & adj_lr & Hal & Hml).
  apply sr_weighted_coulG_ok in Hs as (_ & w' & adj_sr & Hw' & Has & Hms).
  rewrite Hws in Hw'. injection Hw' as <-.
  simpl in Hal, Hml, Has, Hms.
  rewrite HGv in Has, Hms. rewrite Hwl in Hal.
  fold Gv in Hal, Has. fold kws in Hml, Hms. fold coulG_lr in Hal. fold coulG_sr in Has.
  exists adj_lr, adj_sr.
  pose proof (lr_adjust_G0_nth _ _ _ _ _ _ _ _ _ Hal Hwl Hg Hz) as El.
  pose proof (sr_adjust_G0_nth _ _ _ _ _ _ _ _ _ Has Hws Hg Hz) as Es.
  rewrite Hgam, andb_true_r in El, Es.
  split; [exact Hal |]. split; [exact Has |].
  split; [| split].
  - rewrite El, Es. destruct (py_not exx || eq_ewald exx); lra.
  - intros Hc. rewrite Hc in El, Es. rewrite El, Es. split; lra.
  - rewrite (imul_nth _ _ _ i Hml), (imul_nth _ _ _ i Hms), El, Es.
    destruct (py_not exx || eq_ewald exx); lra.
Qed.

End KernelFacts.

(** *** The kernels on concrete inputs *)

Lemma lr_example (exx : exx_arg) :
  LongRangeAFT.weighted_coulG Example.get_Gv_weights Example.get_coulG
    Example.gamma_point Example.aft0 [0; 0; 0] exx None
  = ok [(if py_not exx || eq_ewald exx then 0 - PI / 1 ^ 2 else 0) * (1 / 2);
        4 * PI * (1 / 2)].
Proof.
  unfold LongRangeAFT.weighted_coulG, LongRangeAFT.adjust_G0, Example.gamma_point,
    Np.getitem_mask, pi_over_omega2, Np.all_zero.
  simpl. float_cmp. simpl.
  destruct (py_not exx || eq_ewald exx); simpl; float_cmp; reflexivity.
Qed.

Lemma sr_example (exx : exx_arg) :
  ShortRangeAFT.weighted_coulG Example.get_Gv_weights Example.get_coulG
    Example.gamma_point Example.aft0 [0; 0; 0] exx None
  = ok [(if py_not exx || eq_ewald exx then 0 + PI / 1 ^ 2 else 0) * (1 / 2);
        4 * PI * (1 / 2)].
Proof.
  unfold ShortRangeAFT.weighted_coulG, ShortRangeAFT.adjust_G0, Example.gamma_point,
    Np.getitem_mask, pi_over_omega2, Np.all_zero.
  simpl. float_cmp. simpl.
  destruct (py_not exx || eq_ewald exx); simpl; float_cmp; reflexivity.
Qed.

Lemma all_zero_example : Np.all_zero [0; 0; 0] = true.
Proof. unfold Np.all_zero. simpl. float_cmp. reflexivity. Qed.

(** C5 on a cell with omega = 0.11. *)
Lemma kernels_reject_range_separated_cell_witness :
  LongRangeAFT.weighted_coulG Example.get_Gv_weights Example.get_coulG
    Example.gamma_point Example.aft_rsh [0; 0; 0] (ExxBool false) None
    = raise (RuntimeError kernel_error) /\
  ShortRangeAFT.weighted_coulG Example.get_Gv_weights Example.get_coulG
    Example.gamma_point Example.aft_rsh [0; 0; 0] (ExxBool false) None
    = raise (RuntimeError kernel_error).
Proof.
  apply (kernels_reject_range_separated_cell Example.get_Gv_weights Example.get_coulG
           Example.gamma_point Example.aft_rsh).
  simpl. lra.
Defined.

(** C4 as stated fails: with exx = 'ewald' at the Gamma point the G=0 entry
    of the long-range kernel is not the unmodified kernel entry times its
    weight; pi/omega^2 has been subtracted from it. *)
Lemma lr_ewald_G0_is_modified :
  LongRangeAFT.weighted_coulG Example.get_Gv_weights Example.get_coulG
    Example.gamma_point Example.aft0 [0; 0; 0] (ExxStr "ewald") None
    = ok [(0 - PI / 1 ^ 2) * (1 / 2); 4 * PI * (1 / 2)] /\
  (0 - PI / 1 ^ 2) * (1 / 2) <> 0 * (1 / 2).
Proof.
  split.
  - apply (lr_example (ExxStr "ewald")).
  - pose proof PI_RGT_0. lra.
Qed.

(** C4 as stated fails in the other direction too: with exx = 'vcut_sph',
    which asks for no Ewald correction, nothing is subtracted. *)
Lemma lr_vcut_sph_G0_is_kept :
  LongRangeAFT.weighted_coulG Example.get_Gv_weights Example.get_coulG
    Example.gamma_point Example.aft0 [0; 0; 0] (ExxStr "vcut_sph") None
    = ok [0 * (1 / 2); 4 * PI * (1 / 2)].
Proof. apply (lr_example (ExxStr "vcut_sph")). Qed.

Lemma lr_G0_term_witness :
  nth 0 [(0 - PI / 1 ^ 2) * (1 / 2); 4 * PI * (1 / 2)] 0 =
    (0 - PI / 1 ^ 2) * (1 / 2).
Proof.
  pose proof (lr_G0_term Example.get_Gv_weights Example.get_coulG Example.gamma_point
                Example.aft0 [0; 0; 0] ExxNone None _ 1 0%nat [0; 0; 0]
                (lr_example ExxNone) eq_refl eq_refl all_zero_example) as H.
  unfold Example.gamma_point in H. rewrite all_zero_example in H.
  exact H.
Defined.

Lemma G0_adjustments_cancel_witness :
  nth 0 [(0 - PI / 1 ^ 2) * (1 / 2); 4 * PI * (1 / 2)] 0 +
  nth 0 [(0 + PI / 1 ^ 2) * (1 / 2); 4 * PI * (1 / 2)] 0 =
    (0 + 0) * (1 / 2).
Proof.
  destruct (G0_adjustments_cancel Example.get_Gv_weights Example.get_coulG
              Example.gamma_point Example.aft0 Example.aft0 [0; 0; 0] ExxNone
              [1; 1; 1]%nat
              [(0 - PI / 1 ^ 2) * (1 / 2); 4 * PI * (1 / 2)]
              [(0 + PI / 1 ^ 2) * (1 / 2); 4 * PI * (1 / 2)]
              1 0%nat [0; 0; 0])
    as (adj_lr & adj_sr & _ & _ & _ & _ & H).
  - lra.
  - reflexivity.
  - reflexivity.
  - reflexivity.
  - apply (lr_example ExxNone).
  - apply (sr_example ExxNone).
  - apply all_zero_example.
  - reflexivity.
  - apply all_zero_example.
  - exact H.
Defined.

(** ** Range-separation selector *)

Lemma pow_half_sqrt (x : R) : 0 < x -> pow_half x = sqrt x.
Proof. intros H. unfold pow_half. apply Rpower_sqrt. exact H. Qed.

Lemma build_tau_spec (omega eta : R) :
  0 < omega ^ 2 + eta / 2 -> build_tau omega eta = spec_tau omega eta.
Proof.
  intros H. unfold build_tau, spec_tau. now rewrite pow_half_sqrt.
Qed.

(** C7. For omega > 0 and every eta that leaves omega^2 + eta/2 positive (so
    every eta >= 0), [build] computes tau = omega / sqrt(omega^2 + eta/2),
    and its rcut_sr is the update of line 147 applied exactly once to the
    initial guess 10. *)
Theorem build_tau_and_single_substitution (direct_scf_tol omega eta : R) :
  0 < omega ->
  0 < omega ^ 2 + eta / 2 ->
  build_tau omega eta = omega / sqrt (omega ^ 2 + eta / 2) /\
  build_rcut_sr direct_scf_tol omega eta =
    rcut_update direct_scf_tol (omega / sqrt (omega ^ 2 + eta / 2)) eta 10 /\
  build_rcut_sr direct_scf_tol omega eta = spec_rcut_sr 1 direct_scf_tol omega eta.
Proof.
  intros _ H. pose proof (build_tau_spec omega eta H) as Ht.
  unfold spec_tau in Ht. split; [exact Ht |].
  unfold build_rcut_sr, spec_rcut_sr, spec_tau. simpl.
  rewrite Ht. split; reflexivity.
Qed.

Lemma build_tau_and_single_substitution_witness :
  build_tau 2 8 = 2 / sqrt (2 ^ 2 + 8 / 2) /\
  build_rcut_sr 1e-11 2 8 = rcut_update 1e-11 (2 / sqrt (2 ^ 2 + 8 / 2)) 8 10 /\
  build_rcut_sr 1e-11 2 8 = spec_rcut_sr 1 1e-11 2 8.
Proof.
  apply (build_tau_and_single_substitution 1e-11 2 8); lra.
Defined.

(** The radius after one substitution need not be a fixed point of the
    update: for omega = 2, eta = 8 and the tolerance below it is 1, and a
    second substitution would give sqrt(1 + ln 10). *)
Lemma single_substitution_not_converged :
  let tau := spec_tau 2 8 in
  let tol := PI * exp (- 2) / (6400 * tau) in
  build_rcut_sr tol 2 8 = 1 /\
  spec_rcut_sr 2 tol 2 8 <> build_rcut_sr tol 2 8.
Proof.
  intros tau tol.
  assert (Hs : 0 < sqrt 8) by (apply sqrt_lt_R0; lra).
  assert (Hs2 : sqrt 8 * sqrt 8 = 8) by (apply sqrt_sqrt; lra).
  assert (Ht : tau = 2 / sqrt 8).
  { unfold tau, spec_tau. do 2 f_equal. lra. }
  assert (Htpos : 0 < tau).
  { rewrite Ht. apply Rdiv_lt_0_compat; lra. }
  assert (Ht2 : tau ^ 2 = 1 / 2).
  { rewrite Ht. field_simplify; [| lra].
    replace (sqrt 8 ^ 2) with 8 by (simpl; lra). lra. }
  assert (Hpi : 0 < PI) by apply PI_RGT_0.
  assert (Hu10 : rcut_update tol tau 8 10 = 1).
  { unfold rcut_update.
    replace (tol * tau * (8 * 10) ^ 2 / PI) with (exp (- 2)).
    2:{ unfold tol. field. split; lra. }
    rewrite ln_exp, Ht2.
    replace (- - 2 / (1 / 2 * 8 / 2)) with 1 by lra.
    rewrite pow_half_sqrt by lra. apply sqrt_1. }
  assert (Hb : build_rcut_sr tol 2 8 = 1).
  { unfold build_rcut_sr. rewrite build_tau_spec by lra. exact Hu10. }
  split; [exact Hb |].
  rewrite Hb. unfold spec_rcut_sr. simpl. fold tau. rewrite Hu10.
  unfold rcut_update.
  replace (tol * tau * (8 * 1) ^ 2 / PI) with (exp (- 2) * / 100).
  2:{ unfold tol. field. split; lra. }
  assert (Hln : 0 < ln 100).
  { rewrite <- ln_1. apply ln_increasing; lra. }
  rewrite ln_mult; [| apply exp_pos | lra].
  rewrite ln_exp, ln_Rinv by lra. rewrite Ht2.
  replace (- (- 2 + - ln 100) / (1 / 2 * 8 / 2)) with (1 + ln 100 / 2) by lra.
  rewrite pow_half_sqrt by lra.
  intros E.
  assert (H1 : sqrt (1 + ln 100 / 2) * sqrt (1 + ln 100 / 2) = 1 + ln 100 / 2)
    by (apply sqrt_sqrt; lra).
  rewrite E in H1. lra.
Qed.

(** ** The builder: [reset] *)

(** C10. [reset] replaces [cell] when a cell is given, sets [supmol] to
    None, and leaves every other attribute as it was; nothing is rebuilt
    before the next [build]. *)
Theorem reset_frame (self : RangeSeparationJKBuilder.t) (new_cell : option Cell.t) :
  let self' := RangeSeparationJKBuilder.reset self new_cell in
  RangeSeparationJKBuilder.cell self' =
    match new_cell with
    | Some c => c
    | None => RangeSeparationJKBuilder.cell self
    end /\
  RangeSeparationJKBuilder.supmol self' = None /\
  RangeSeparationJKBuilder.omega self' = RangeSeparationJKBuilder.omega self /\
  RangeSeparationJKBuilder.mesh self' = RangeSeparationJKBuilder.mesh self /\
  RangeSeparationJKBuilder.ke_cutoff self' = RangeSeparationJKBuilder.ke_cutoff self /\
  RangeSeparationJKBuilder.vhfopt self' = RangeSeparationJKBuilder.vhfopt self /\
  RangeSeparationJKBuilder.ovlp_mask self' = RangeSeparationJKBuilder.ovlp_mask self /\
  RangeSeparationJKBuilder.bvkcell self' = RangeSeparationJKBuilder.bvkcell self /\
  RangeSeparationJKBuilder.phase self' = RangeSeparationJKBuilder.phase self /\
  RangeSeparationJKBuilder.bvkcell_shl_id self' =
    RangeSeparationJKBuilder.bvkcell_shl_id self /\
  RangeSeparationJKBuilder.cell_dense self' = RangeSeparationJKBuilder.cell_dense self /\
  RangeSeparationJKBuilder.cell_sparse self' = RangeSeparationJKBuilder.cell_sparse self /\
  RangeSeparationJKBuilder.lr_aft self' = RangeSeparationJKBuilder.lr_aft self /\
  RangeSeparationJKBuilder.sr_aft self' = RangeSeparationJKBuilder.sr_aft self /\
  RangeSeparationJKBuilder.kpts self' = RangeSeparationJKBuilder.kpts self /\
  RangeSeparationJKBuilder.bvkmesh_Ls self' = RangeSeparationJKBuilder.bvkmesh_Ls self /\
  RangeSeparationJKBuilder.supmol_Ls self' = RangeSeparationJKBuilder.supmol_Ls self /\
  RangeSeparationJKBuilder.supmol_dense self' =
    RangeSeparationJKBuilder.supmol_dense self /\
  RangeSeparationJKBuilder.supmol_sparse self' =
    RangeSeparationJKBuilder.supmol_sparse self /\
  RangeSeparationJKBuilder.stdout self' = RangeSeparationJKBuilder.stdout self /\
  RangeSeparationJKBuilder.verbose self' = RangeSeparationJKBuilder.verbose self /\
  RangeSeparationJKBuilder.max_memory self' = RangeSeparationJKBuilder.max_memory self /\
  RangeSeparationJKBuilder.blockdim self' = RangeSeparationJKBuilder.blockdim self /\
  RangeSeparationJKBuilder._keys self' = RangeSeparationJKBuilder._keys self.
Proof.
  destruct new_cell as [c |]; simpl; repeat split; reflexivity.
Qed.

(** A second [reset] changes nothing more. *)
Lemma reset_idempotent (self : RangeSeparationJKBuilder.t) (c : option Cell.t) :
  RangeSeparationJKBuilder.reset (RangeSeparationJKBuilder.reset self c) None =
  RangeSeparationJKBuilder.reset self c.
Proof. destruct c; reflexivity. Qed.

(** ** Shapes *)





(** ** The builder: the guards of [get_jk] *)

Section BuilderFacts.

Variable mesh_to_cutoff : Cell.t -> list nat -> list R.
Variable estimate_omega_for_ke_cutoff : Cell.t -> R -> R.
Variable estimate_ke_cutoff_for_omega : Cell.t -> R -> R.
Variable cutoff_to_mesh : Cell.t -> R -> list nat.
Variable estimate_eta_for_ke_cutoff : Cell.t -> R -> R -> R.
Variable kpts_to_kmesh : Cell.t -> list (list R) -> list nat.
Variable get_phase : Cell.t -> list (list R) -> list nat -> Cell.t * Shape.t.
Variable translation_vectors_for_kmesh : Cell.t -> list nat -> list (list R).
Variable get_lattice_Ls : Cell.t -> R -> list (list R).
Variable sort_by_norm : list (list R) -> list (list R).
Variable _primitive_gto_cutoff : Cell.t -> R -> list (list R) * list (list R).
Variable cell_add : Cell.t -> Cell.t -> Cell.t.
Variable build_supcell : Cell.t -> list (list R) -> SupMol.t.
Variable intor_ovlp : SupMol.t -> nat * nat * nat * nat -> list (list R).
Variable intor_symmetric_ovlp : SupMol.t -> list (list R).
Variable Cell_nao : Cell.t -> nat.
Variable Cell_ao_loc : Cell.t -> list nat.
Variable aft_get_jk :
  AFTDF.t -> Shape.t -> nat -> list (list R) -> option (list (list R)) ->
  bool -> bool -> exx_arg -> result (option Shape.t * option Shape.t).

Local Abbreviation build :=
  (RangeSeparationJKBuilder.build mesh_to_cutoff estimate_omega_for_ke_cutoff
     estimate_ke_cutoff_for_omega cutoff_to_mesh estimate_eta_for_ke_cutoff
     kpts_to_kmesh get_phase translation_vectors_for_kmesh get_lattice_Ls sort_by_norm
     _primitive_gto_cutoff cell_add build_supcell intor_ovlp intor_symmetric_ovlp).

Local Abbreviation get_jk_body :=
  (RangeSeparationJKBuilder.get_jk_body Cell_nao Cell_ao_loc aft_get_jk).

Local Abbreviation get_jk :=
  (RangeSeparationJKBuilder.get_jk mesh_to_cutoff estimate_omega_for_ke_cutoff
     estimate_ke_cutoff_for_omega cutoff_to_mesh estimate_eta_for_ke_cutoff
     kpts_to_kmesh get_phase translation_vectors_for_kmesh get_lattice_Ls sort_by_norm
     _primitive_gto_cutoff cell_add build_supcell intor_ovlp intor_symmetric_ovlp
     Cell_nao Cell_ao_loc aft_get_jk).

(** The k-point check passes exactly when the largest difference is not
    above 1e-7. *)
Lemma check_kpts_within (self : RangeSeparationJKBuilder.t) (k d : list (list R)) (m : R) :
  Np.sub2 k (RangeSeparationJKBuilder.kpts self) = ok d ->
  Np.absmax2 d = ok m ->
  RangeSeparationJKBuilder.check_kpts self (Some k) =
    if Rgtb m 1e-7 then raise (RuntimeError "kpts error") else ok tt.
Proof.
  intros Hd Hm. unfold RangeSeparationJKBuilder.check_kpts.
  rewrite Hd. simpl. rewrite Hm. reflexivity.
Qed.


(** C1 (amended). A call with an omega argument raises NotImplementedError.
    Without one, a k-point argument that differs from the builder's
    k-points by more than 1e-7 in some element raises RuntimeError, and a
    band k-point argument makes the call raise as well: NotImplementedError,
    unless the k-point check has already raised. In none of these cases is
    anything evaluated. *)
Theorem get_jk_rejects_overrides (self : RangeSeparationJKBuilder.t)
    (dm_kpts : Density.t) (hermi : nat) (kpts_arg kpts_band : option (list (list R)))
    (with_j with_k : bool) (omega_arg : option R) (exxdiv : exx_arg) :
  let call := get_jk self dm_kpts hermi kpts_arg kpts_band with_j with_k omega_arg exxdiv in
  (omega_arg <> None -> call = raise NotImplementedError) /\
  (omega_arg = None ->
   (exists k d m,
      kpts_arg = Some k /\
      Np.sub2 k (RangeSeparationJKBuilder.kpts self) = ok d /\
      Np.absmax2 d = ok m /\ m > 1e-7) ->
   call = raise (RuntimeError "kpts error")) /\
  (omega_arg = None -> kpts_band <> None ->
   call = raise NotImplementedError \/
   exists e, RangeSeparationJKBuilder.check_kpts self kpts_arg = raise e /\
             call = raise e).
Proof.
  intros call. subst call. unfold RangeSeparationJKBuilder.get_jk.
  split; [| split].
  - destruct omega_arg; [reflexivity | congruence].
  - intros -> (k & d & m & -> & Hd & Hm & Hgt).
    rewrite (check_kpts_within self k d m Hd Hm), Rgtb_true by exact Hgt.
    reflexivity.
  - intros -> Hb.
    destruct (RangeSeparationJKBuilder.check_kpts self kpts_arg) as [e | []] eqn:Hc.
    + right. exists e. split; reflexivity.
    + left. simpl. destruct kpts_band; [reflexivity | congruence].
Qed.

(** After [reset] there is no supercell, so the next [get_jk] runs [build]
    before it evaluates. *)
Lemma get_jk_after_reset_rebuilds (self : RangeSeparationJKBuilder.t)
    (c : option Cell.t) (dm_kpts : Density.t) (hermi : nat) (with_j with_k : bool)
    (exxdiv : exx_arg) :
  let self0 := RangeSeparationJKBuilder.reset self c in
  get_jk self0 dm_kpts hermi None None with_j with_k None exxdiv =
    (self' <- build self0 None None ;;
     jk <- get_jk_body self' (RangeSeparationJKBuilder.kpts self0) dm_kpts hermi
             with_j with_k exxdiv ;;
     ok (self', jk)).
Proof. destruct c; reflexivity. Qed.







End BuilderFacts.

(** ** Boolean-mask selection and flattened arrays *)

Lemma select_map {A B : Type} (f : A -> B) (mask : list bool) (l : list A) :
  Np.select mask (map f l) = map f (Np.select mask l).
Proof.
  revert l. induction mask as [| m mask IH]; intros [| x l]; simpl; try reflexivity.
  destruct m; simpl; now rewrite IH.
Qed.

Lemma map_nth_seq {A : Type} (l : list A) (d : A) :
  map (fun j => nth j l d) (seq 0 (length l)) = l.
Proof.
  induction l as [| x l IH]; simpl; [reflexivity |].
  f_equal. rewrite <- seq_shift, map_map. exact IH.
Qed.

(** [a[mask]] lists the entries of [a] at the selected positions. *)
Lemma select_nth {A : Type} (mask : list bool) (a : list A) (d : A) :
  Np.select mask a = map (fun j => nth j a d) (Np.select mask (seq 0 (length a))).
Proof.
  rewrite <- (map_nth_seq a d) at 1. apply select_map.
Qed.

Lemma select_seq (mask : list bool) (s : nat) :
  Np.select mask (seq s (length mask)) =
  filter (fun j => nth (j - s) mask false) (seq s (length mask)).
Proof.
  revert s. induction mask as [| m mask IH]; intros s; [reflexivity |].
  cbn [length seq Np.select filter].
  assert (E : filter (fun j => nth (j - s) (m :: mask) false) (seq (S s) (length mask)) =
              filter (fun j => nth (j - S s) mask false) (seq (S s) (length mask))).
  { apply filter_ext_in. intros j Hj. apply in_seq in Hj.
    replace (j - s)%nat with (S (j - S s)) by lia. reflexivity. }
  rewrite E, <- IH, Nat.sub_diag. destruct m; reflexivity.
Qed.

(** The positions a mask selects, in increasing order. *)
Lemma select_positions (mask : list bool) :
  Np.select mask (seq 0 (length mask)) =
  filter (fun j => nth j mask false) (seq 0 (length mask)).
Proof.
  rewrite select_seq. apply filter_ext. intros j. now rewrite Nat.sub_0_r.
Qed.

Lemma nth_concat_uniform {A : Type} (rows : list (list A)) (L m : nat) (d : A) :
  Forall (fun r => length r = L) rows ->
  (m < length rows * L)%nat ->
  nth m (concat rows) d = nth (m mod L) (nth (m / L) rows []) d.
Proof.
  intros Hrows. revert m. induction Hrows as [| r rows Hr Hrows IH]; intros m Hm.
  - simpl in Hm. lia.
  - simpl in Hm. simpl concat.
    assert (HL : L <> 0%nat) by (intros ->; lia).
    destruct (Nat.lt_ge_cases m L) as [Hlt | Hge].
    + rewrite app_nth1 by lia.
      rewrite Nat.div_small, Nat.mod_small by lia. reflexivity.
    + rewrite app_nth2 by lia. rewrite Hr.
      assert (Em : m = (m - L + 1 * L)%nat) by lia.
      rewrite IH by lia.
      rewrite Em at 3 4.
      rewrite Nat.Div0.mod_add, Nat.div_add by exact HL.
      replace (((m - L) / L + 1))%nat with (S ((m - L) / L)) by lia.
      reflexivity.
Qed.

Lemma length_repeat_ravel {A : Type} (a : list A) (n : nat) :
  length (repeat_ravel a n) = (n * length a)%nat.
Proof.
  unfold repeat_ravel. induction n as [| n IH]; simpl; [reflexivity |].
  rewrite length_app, IH. reflexivity.
Qed.

(** Entry [j] of [n] copies of [a] laid end to end. *)
Lemma nth_repeat_ravel {A : Type} (a : list A) (n j : nat) (d : A) :
  (j < n * length a)%nat ->
  nth j (repeat_ravel a n) d = nth (j mod length a) a d.
Proof.
  intros Hj. unfold repeat_ravel.
  rewrite (nth_concat_uniform _ (length a)).
  - f_equal. apply nth_repeat_lt.
    assert (length a <> 0)%nat by (intros E; rewrite E in Hj; lia).
    apply Nat.Div0.div_lt_upper_bound. lia.
  - apply Forall_forall. intros r Hr. apply repeat_spec in Hr. now subst.
  - now rewrite repeat_length.
Qed.

(** ** Supercell screening *)

Lemma nth_map_in {A B : Type} (f : A -> B) (l : list A) (j : nat) (d : A) (e : B) :
  (j < length l)%nat -> nth j (map f l) e = f (nth j l d).
Proof.
  intros Hj. rewrite (nth_indep _ e (f d)) by (now rewrite length_map).
  apply map_nth.
Qed.

(** Entry [m] of the flattened [kbas_idx] of line 165. *)
Lemma nth_kbas_idx (bas_idx : list nat) (nkpts cell_nbas m : nat) :
  (m < nkpts * length bas_idx)%nat ->
  nth m (concat (map (fun k => map (fun b => (b + k * cell_nbas)%nat) bas_idx)
                     (seq 0 nkpts))) 0%nat =
  (nth (m mod length bas_idx) bas_idx 0 + (m / length bas_idx) * cell_nbas)%nat.
Proof.
  intros Hm.
  assert (HL : length bas_idx <> 0%nat) by (intros E; rewrite E in Hm; lia).
  assert (Hk : (m / length bas_idx < nkpts)%nat)
    by (apply Nat.Div0.div_lt_upper_bound; lia).
  rewrite (nth_concat_uniform _ (length bas_idx)).
  - rewrite (nth_map_in _ _ _ 0%nat) by (now rewrite length_seq).
    rewrite seq_nth by exact Hk. simpl.
    rewrite (nth_map_in _ _ _ 0%nat) by (now apply Nat.mod_upper_bound).
    reflexivity.
  - apply Forall_forall. intros r Hr. apply in_map_iff in Hr as (k & <- & _).
    apply length_map.
  - now rewrite length_map, length_seq.
Qed.

Lemma length_kbas_idx (bas_idx : list nat) (nkpts cell_nbas : nat) :
  length (concat (map (fun k => map (fun b => (b + k * cell_nbas)%nat) bas_idx)
                      (seq 0 nkpts))) = (nkpts * length bas_idx)%nat.
Proof.
  induction nkpts as [| n IH] using nat_ind; [reflexivity |].
  rewrite seq_S, map_app, concat_app, length_app, IH. simpl.
  rewrite length_app, length_map. simpl. lia.
Qed.

Lemma length_concat_repeat {A : Type} (row : list A) (n : nat) :
  length (concat (repeat row n)) = (n * length row)%nat.
Proof. apply (length_repeat_ravel row n). Qed.

(** *** [abs(s0).max(axis=0)] is the largest magnitude of each column *)

Lemma nth_combine_max (acc row : list R) (j : nat) :
  length acc = length row -> (j < length row)%nat ->
  nth j (map (fun p => Rmax (fst p) (snd p)) (combine acc (map Rabs row))) 0 =
  Rmax (nth j acc 0) (Rabs (nth j row 0)).
Proof.
  revert row j. induction acc as [| a acc IH]; intros [| x row] j Hl Hj;
    simpl in *; try lia.
  destruct j as [| j]; [reflexivity |]. apply IH; lia.
Qed.

Lemma length_combine_max (acc row : list R) :
  length acc = length row ->
  length (map (fun p => Rmax (fst p) (snd p)) (combine acc (map Rabs row))) = length row.
Proof.
  intros Hl. rewrite length_map, length_combine, length_map. lia.
Qed.

Lemma fold_max_spec (rows : list (list R)) (acc : list R) (w j : nat) :
  Forall (fun row => length row = w) rows -> length acc = w -> (j < w)%nat ->
  let r := nth j (fold_left
                    (fun acc row =>
                       map (fun p => Rmax (fst p) (snd p)) (combine acc (map Rabs row)))
                    rows acc) 0 in
  nth j acc 0 <= r /\
  (forall row, In row rows -> Rabs (nth j row 0) <= r) /\
  (r = nth j acc 0 \/ exists row, In row rows /\ r = Rabs (nth j row 0)).
Proof.
  intros Hrows. revert acc.
  induction Hrows as [| row rows Hrow Hrows IH]; intros acc Hacc Hj; simpl.
  - split; [lra |]. split; [intros row [] | left; reflexivity].
  - set (acc' := map (fun p => Rmax (fst p) (snd p)) (combine acc (map Rabs row))).
    assert (Hl : length acc' = w).
    { unfold acc'. rewrite length_combine_max; congruence. }
    assert (Hn : nth j acc' 0 = Rmax (nth j acc 0) (Rabs (nth j row 0))).
    { unfold acc'. apply nth_combine_max; congruence. }
    destruct (IH acc' Hl Hj) as (H1 & H2 & H3).
    rewrite Hn in H1, H3.
    pose proof (Rmax_l (nth j acc 0) (Rabs (nth j row 0))) as Ml.
    pose proof (Rmax_r (nth j acc 0) (Rabs (nth j row 0))) as Mr.
    split; [lra |]. split.
    + intros row' [<- | Hin]; [lra | now apply H2].
    + destruct H3 as [E | (row' & Hin & E)].
      * rewrite E. unfold Rmax. destruct (Rle_dec _ _).
        -- right. exists row. split; [now left | reflexivity].
        -- left. reflexivity.
      * right. exists row'. split; [now right | exact E].
Qed.

(** For a rectangular [s0], entry [j] of [abs(s0).max(axis=0)] bounds the
    magnitude of column [j] in every row and is attained in one of them. *)
Lemma absmax_axis0_spec (s0 : list (list R)) (s0max : list R) (w j : nat) :
  absmax_axis0 s0 = ok s0max ->
  Forall (fun row => length row = w) s0 -> (j < w)%nat ->
  (forall row, In row s0 -> Rabs (nth j row 0) <= nth j s0max 0) /\
  (exists row, In row s0 /\ nth j s0max 0 = Rabs (nth j row 0)).
Proof.
  destruct s0 as [| r rows]; simpl; [discriminate |].
  intros H Hall Hj. injection H as <-.
  inversion Hall as [| ? ? Hr Hrows]; subst.
  assert (Hl : length (map Rabs r) = length r) by apply length_map.
  destruct (fold_max_spec rows (map Rabs r) (length r) j Hrows Hl Hj) as (H1 & H2 & H3).
  rewrite (nth_map_in Rabs _ _ 0) in H1, H3 by exact Hj.
  split.
  - intros row [<- | Hin]; [exact H1 | now apply H2].
  - destruct H3 as [E | (row & Hin & E)].
    + exists r. split; [now left | exact E].
    + exists row. split; [now right | exact E].
Qed.

Lemma length_fold_max (rows : list (list R)) (acc : list R) (w : nat) :
  Forall (fun row => length row = w) rows -> length acc = w ->
  length (fold_left
            (fun acc row =>
               map (fun p => Rmax (fst p) (snd p)) (combine acc (map Rabs row)))
            rows acc) = w.
Proof.
  intros Hrows. revert acc. induction Hrows as [| row rows Hrow _ IH]; intros acc Hacc;
    simpl; [exact Hacc |].
  apply IH. rewrite length_combine_max; congruence.
Qed.

Lemma length_absmax_axis0 (s0 : list (list R)) (s0max : list R) (w : nat) :
  absmax_axis0 s0 = ok s0max -> Forall (fun row => length row = w) s0 ->
  length s0max = w.
Proof.
  destruct s0 as [| r rows]; simpl; [discriminate |].
  intros H Hall. injection H as <-. inversion Hall as [| ? ? Hr Hrows]; subst.
  apply length_fold_max; [exact Hrows | apply length_map].
Qed.

Section ScreeningFacts.

Variable build_supcell : Cell.t -> list (list R) -> SupMol.t.
Variable intor_ovlp : SupMol.t -> nat * nat * nat * nat -> list (list R).

(** C6. The candidate shells of the supercell are screened by their largest
    s-type overlap magnitude with the reference cell. The overlap is taken
    between the first [nb] shells and all shells of the copy of the
    candidate supercell in which every shell has angular momentum 0, and is
    a matrix [s0] with one row per function of the reference cell (its rows
    have one length). Then for every candidate [j] the screening value
    [s0max j] is the largest of the magnitudes |s0[i][j]| over the rows [i]:
    it bounds them all and is one of them. Exactly the candidates with
    [s0max j > tol], that is those with some |s0[i][j]| above the threshold,
    are kept, in their order: a candidate all of whose magnitudes are below
    the threshold is dropped. For every kept candidate [j], [build] records
    the BvK shell id of its k-index and originating shell, and the
    smoothness class "its merged-basis shell index [j mod nb] is not in the
    dense half". *)
Theorem supercell_screening (cell cell_dense cell_sparse cell_merged : Cell.t)
    (Ls Ks : list (list R)) (tol : R) (nkpts w : nat) (supmol : SupMol.t)
    (shl_id : list nat) (smooth : list bool) :
  let nb := Cell.nbas cell_merged in
  let nimgs := length Ls in
  let nk := length Ks in
  let LKs := map (fun L => map (fun K => vec_add L K) Ks) Ls in
  let supmol0 := build_supcell cell_merged (concat LKs) in
  let cand := SupMol._bas supmol0 in
  let s_type :=
    fun b => mk_bas (ATOM_OF b) 0 (NPRIM_OF b) (NCTR_OF b) (KAPPA_OF b) (PTR_EXP b)
               (PTR_COEFF b) in
  let supmol_only_s :=
    SupMol.mk (SupMol._atm supmol0) (map s_type cand) (SupMol._env supmol0)
      (SupMol.bvkcell_shl_id supmol0) (SupMol.bas_mask supmol0) (SupMol.omega supmol0) in
  let s0 := intor_ovlp supmol_only_s (0, nb, 0, length cand)%nat in
  let bas_idx := Cell._bas_idx cell_dense ++ Cell._bas_idx cell_sparse in
  Forall (fun row => length row = w) s0 ->
  _make_extended_mole build_supcell intor_ovlp cell_merged Ls Ks (Some tol) = ok supmol ->
  build_bvkcell_shl_id (SupMol.bas_mask supmol) nkpts nimgs (Cell.nbas cell)
    cell_dense cell_sparse = ok shl_id ->
  build_smooth_mask (SupMol.bas_mask supmol) nkpts nimgs cell_dense cell_merged
    = ok smooth ->
  exists s0max kept,
    absmax_axis0 s0 = ok s0max /\
    length s0max = length cand /\
    (forall j, (j < length cand)%nat ->
       (forall row, In row s0 -> Rabs (nth j row 0) <= nth j s0max 0) /\
       (exists row, In row s0 /\ nth j s0max 0 = Rabs (nth j row 0))) /\
    kept = filter (fun j => Rgtb (nth j s0max 0) tol) (seq 0 (length cand)) /\
    (forall j, (j < length cand)%nat -> nth j s0max 0 < tol -> ~ In j kept) /\
    (forall j, In j kept <-> (j < length cand)%nat /\ nth j s0max 0 > tol) /\
    (forall j, In j kept <->
       (j < length cand)%nat /\ exists row, In row s0 /\ Rabs (nth j row 0) > tol) /\
    (forall j, (j < length cand)%nat ->
       (forall row, In row s0 -> Rabs (nth j row 0) < tol) -> ~ In j kept) /\
    (forall d, SupMol._bas supmol = map (fun j => nth j cand d) kept) /\
    SupMol.bvkcell_shl_id supmol = map (fun j => (j mod (nk * nb))%nat) kept /\
    shl_id =
      map (fun j => (nth (j mod length bas_idx) bas_idx 0 +
                     ((j / length bas_idx) mod nkpts) * Cell.nbas cell)%nat) kept /\
    smooth = map (fun j => Nat.leb (Cell.nbas cell_dense) (j mod nb)) kept /\
    (kept <> [] -> length bas_idx = nb /\ nk = nkpts).
Proof.
  intros nb nimgs nk LKs supmol0 cand s_type supmol_only_s s0 bas_idx Hrect H1 H2 H3.
  unfold _make_extended_mole in H1. fold nb nimgs nk LKs supmol0 in H1.
  change (SupMol.only_s supmol0) with supmol_only_s in H1.
  change (SupMol.nbas supmol0) with (length cand) in H1.
  fold s0 in H1.
  bind_inv H1. rename x into s0max. rename Hx into Hmax.
  set (mask := map (fun x => Rgtb x tol) s0max) in *.
  bind_inv H1. bind_inv H1. injection H1 as <-.
  apply getitem_mask_ok in Hx as [Hlen1 ->].
  apply getitem_mask_ok in Hx0 as [Hlen2 ->].
  rewrite length_repeat_ravel, length_seq in Hlen2.
  simpl SupMol.bas_mask in H2, H3. simpl.
  unfold build_bvkcell_shl_id in H2. fold bas_idx in H2.
  apply getitem_mask_ok in H2 as [Hlen3 ->].
  rewrite length_repeat_ravel, length_kbas_idx in Hlen3.
  unfold build_smooth_mask in H3. fold nb in H3.
  apply getitem_mask_ok in H3 as [Hlen4 ->].
  rewrite length_concat_repeat, length_map, length_seq in Hlen4.
  fold cand in Hlen1.
  set (n := length cand) in *.
  assert (Hw : length s0max = w) by (eapply length_absmax_axis0; eassumption).
  assert (Hn : length s0max = n) by (unfold mask in Hlen1; now rewrite length_map in Hlen1).
  assert (Hcol : forall j, (j < n)%nat ->
            (forall row, In row s0 -> Rabs (nth j row 0) <= nth j s0max 0) /\
            (exists row, In row s0 /\ nth j s0max 0 = Rabs (nth j row 0))).
  { intros j Hj. apply (absmax_axis0_spec s0 s0max w j Hmax Hrect). lia. }
  assert (Hkept : Np.select mask (seq 0 n) =
                  filter (fun j => Rgtb (nth j s0max 0) tol) (seq 0 n)).
  { rewrite <- Hlen1, select_positions. apply filter_ext_in.
    intros j Hj. apply in_seq in Hj. unfold mask in *.
    rewrite length_map in Hj.
    rewrite (nth_map_in (fun x => Rgtb x tol) _ _ 0) by lia. reflexivity. }
  assert (Hin : forall j, In j (Np.select mask (seq 0 n)) <->
                          (j < n)%nat /\ nth j s0max 0 > tol).
  { intros j. rewrite Hkept, filter_In, in_seq, Rgtb_spec. intuition lia. }
  assert (Hrow : forall j, In j (Np.select mask (seq 0 n)) <->
            (j < n)%nat /\ exists row, In row s0 /\ Rabs (nth j row 0) > tol).
  { intros j. rewrite Hin. split.
    - intros [Hj Hgt]. split; [exact Hj |].
      destruct (Hcol j Hj) as [_ (row & Hr & E)]. exists row. split; [exact Hr | lra].
    - intros [Hj (row & Hr & Hgt)]. split; [exact Hj |].
      destruct (Hcol j Hj) as [Hub _]. pose proof (Hub row Hr). lra. }
  exists s0max, (Np.select mask (seq 0 n)).
  split; [exact Hmax |]. split; [exact Hn |]. split; [exact Hcol |].
  split; [exact Hkept |].
  split; [| split; [exact Hin | split; [exact Hrow |]]].
  { intros j _ Hlt Hj. apply Hin in Hj. lra. }
  split.
  { intros j Hj Hall Hk. apply Hrow in Hk as [_ (row & Hr & Hgt)].
    pose proof (Hall row Hr). lra. }
  split; [| split; [| split; [| split]]].
  - intros d. unfold n. apply select_nth.
  - rewrite (select_nth mask _ 0%nat), length_repeat_ravel, length_seq, <- Hlen2, Hlen1.
    apply map_ext_in. intros j Hj. apply Hin in Hj as [Hj _].
    rewrite nth_repeat_ravel by (rewrite length_seq; lia).
    rewrite length_seq. apply seq_nth. apply Nat.mod_upper_bound. lia.
  - rewrite (select_nth mask _ 0%nat), length_repeat_ravel, length_kbas_idx,
      <- Hlen3, Hlen1.
    apply map_ext_in. intros j Hj. apply Hin in Hj as [Hj _].
    assert (HL : length bas_idx <> 0%nat) by (intros E; rewrite E in Hlen3; lia).
    assert (Hnk : nkpts <> 0%nat) by (intros E; rewrite E in Hlen3; lia).
    rewrite nth_repeat_ravel by (rewrite length_kbas_idx; lia).
    rewrite length_kbas_idx.
    rewrite nth_kbas_idx by (apply Nat.mod_upper_bound; lia).
    rewrite (Nat.mul_comm nkpts (length bas_idx)).
    rewrite Nat.Div0.mod_mul_r.
    rewrite (Nat.mul_comm (length bas_idx)), Nat.Div0.mod_add.
    rewrite Nat.Div0.mod_mod.
    rewrite Nat.div_add by exact HL.
    rewrite (Nat.div_small (j mod length bas_idx)) by (now apply Nat.mod_upper_bound).
    reflexivity.
  - rewrite (select_nth mask _ false), length_concat_repeat, length_map, length_seq,
      <- Hlen4, Hlen1.
    apply map_ext_in. intros j Hj. apply Hin in Hj as [Hj _].
    assert (Hnb : nb <> 0%nat) by (intros E; rewrite E in Hlen4; lia).
    fold (repeat_ravel (map (fun b => Nat.leb (Cell.nbas cell_dense) b) (seq 0 nb))
            (nkpts * nimgs)).
    rewrite nth_repeat_ravel by (rewrite length_map, length_seq; lia).
    rewrite length_map, length_seq.
    rewrite (nth_map_in _ _ _ 0%nat)
      by (rewrite length_seq; now apply Nat.mod_upper_bound).
    rewrite seq_nth by (now apply Nat.mod_upper_bound). reflexivity.
  - intros Hne.
    assert (Hpos : (0 < n)%nat).
    { destruct (Np.select mask (seq 0 n)) as [| j l] eqn:E; [contradiction |].
      destruct (Hin j) as [Hj _]. specialize (Hj (or_introl eq_refl)). lia. }
    rewrite Hlen1 in Hlen2, Hlen3, Hlen4. split; nia.
Qed.

End ScreeningFacts.

(** ** The builder on a concrete cell *)

Ltac unfold_example :=
  unfold Example.build, Example.get_jk, Example.builder0, Example.built0,
    Example.mesh_to_cutoff, Example.estimate_omega_for_ke_cutoff,
    Example.estimate_ke_cutoff_for_omega, Example.cutoff_to_mesh,
    Example.estimate_eta_for_ke_cutoff, Example.kpts_to_kmesh, Example.get_phase,
    Example.translation_vectors_for_kmesh, Example.get_lattice_Ls,
    Example.sort_by_norm, Example._primitive_gto_cutoff, Example.cell_add,
    Example.build_supcell, Example.intor_ovlp, Example.intor_symmetric_ovlp,
    Example.Cell_nao, Example.Cell_ao_loc, Example.aft_get_jk, Example.cell1,
    Example.cell1_dense, Example.cell1_sparse, Example.supmol1,
    Example.kpts_near, Example.kpts_far, Example.dm3, Example.dm4,
    Example.cutoff_gc, Example.cell_gc, Example.cutoff_mixed, Example.cell_mixed in *.

Ltac unfold_split :=
  unfold _split_cell, SplitCell.run, SplitCell.loop, SplitCell.step, primitives,
    libcint_ctr_coeff, bas_exp, Np.getitem_mask, Np.set_slice in *.

Lemma build_example : Example.build Example.builder0 None None = ok Example.built0.
Proof.
  unfold_example.
  unfold RangeSeparationJKBuilder.build, RangeSeparationJKBuilder.select_omega.
  float_eval. unfold_split. float_eval.
  unfold _make_extended_mole, absmax_axis0, Np.getitem_mask. float_eval.
  unfold RangeSeparationJKBuilder.make_ovlp_mask. float_eval.
  reflexivity.
Qed.

Lemma get_jk_body_example_dm3 (with_j with_k : bool) (exxdiv : exx_arg) :
  RangeSeparationJKBuilder.get_jk_body Example.Cell_nao Example.Cell_ao_loc
    Example.aft_get_jk Example.built0 [[0; 0; 0]] Example.dm3 1 with_j with_k exxdiv
  = ok (if with_j then Some [1; 2; 2]%nat else None,
        if with_k then Some [1; 2; 2]%nat
        else if with_j then None else Some [1; 2; 1; 2]%nat).
Proof.
  unfold RangeSeparationJKBuilder.get_jk_body. unfold_example.
  destruct with_j, with_k; reflexivity.
Qed.


Lemma check_kpts_near :
  RangeSeparationJKBuilder.check_kpts Example.builder0 (Some Example.kpts_near) = ok tt.
Proof.
  unfold RangeSeparationJKBuilder.check_kpts, Np.sub2, Np.absmax2, Np.broadcast1.
  unfold_example. float_eval. reflexivity.
Qed.



Lemma sub2_kpts_far :
  Np.sub2 Example.kpts_far (RangeSeparationJKBuilder.kpts Example.builder0)
  = ok [[0.25 - 0; 0 - 0; 0 - 0]].
Proof. reflexivity. Qed.

Lemma absmax2_kpts_far : Np.absmax2 [[0.25 - 0; 0 - 0; 0 - 0]] = ok 0.25.
Proof.
  unfold Np.absmax2. simpl. float_cmp. f_equal. lra.
Qed.

(** The first call on the example builder, with or without the nearby
    k-points: the builder is built and J and K have the shape of the
    density. *)
Lemma get_jk_example_dm3 (k : option (list (list R))) (with_j with_k : bool) :
  k = None \/ k = Some Example.kpts_near ->
  Example.get_jk Example.builder0 Example.dm3 1 k None with_j with_k None ExxNone
  = ok (Example.built0,
        (if with_j then Some [1; 2; 2]%nat else None,
         if with_k then Some [1; 2; 2]%nat
         else if with_j then None else Some [1; 2; 1; 2]%nat)).
Proof.
  intros Hk. unfold Example.get_jk, RangeSeparationJKBuilder.get_jk.
  assert (Hc : RangeSeparationJKBuilder.check_kpts Example.builder0 k = ok tt).
  { destruct Hk as [-> | ->]; [reflexivity | apply check_kpts_near]. }
  rewrite Hc. simpl bind.
  change (RangeSeparationJKBuilder.supmol Example.builder0) with (@None SupMol.t).
  cbv iota.
  pose proof build_example as Hb. unfold Example.build in Hb. rewrite Hb.
  simpl bind.
  change (RangeSeparationJKBuilder.kpts Example.builder0) with [[0; 0; 0]].
  rewrite get_jk_body_example_dm3. reflexivity.
Qed.


(** *** The claims on the concrete builder *)

(** C1 as stated fails: a k-point list that differs from the builder's by
    1e-8 is not rejected. The call succeeds, and it is the call on the
    builder's own k-points. *)
Lemma get_jk_substitutes_for_nearby_kpts :
  Example.kpts_near <> RangeSeparationJKBuilder.kpts Example.builder0 /\
  Example.get_jk Example.builder0 Example.dm3 1 (Some Example.kpts_near) None
    true true None ExxNone
    = ok (Example.built0, (Some [1; 2; 2]%nat, Some [1; 2; 2]%nat)) /\
  Example.get_jk Example.builder0 Example.dm3 1 (Some Example.kpts_near) None
    true true None ExxNone
    = Example.get_jk Example.builder0 Example.dm3 1 None None true true None ExxNone.
Proof.
  split; [| split].
  - unfold Example.kpts_near, Example.builder0. simpl. intros H.
    injection H as H. lra.
  - apply (get_jk_example_dm3 (Some Example.kpts_near) true true). now right.
  - rewrite (get_jk_example_dm3 (Some Example.kpts_near) true true) by now right.
    rewrite (get_jk_example_dm3 None true true) by now left.
    reflexivity.
Qed.

Lemma get_jk_rejects_overrides_witness :
  Example.get_jk Example.builder0 Example.dm3 1 None None true true (Some 0.3) ExxNone
    = raise NotImplementedError /\
  Example.get_jk Example.builder0 Example.dm3 1 (Some Example.kpts_far) None
    true true None ExxNone
    = raise (RuntimeError "kpts error").
Proof.
  split.
  - apply (get_jk_rejects_overrides Example.mesh_to_cutoff
             Example.estimate_omega_for_ke_cutoff Example.estimate_ke_cutoff_for_omega
             Example.cutoff_to_mesh Example.estimate_eta_for_ke_cutoff
             Example.kpts_to_kmesh Example.get_phase
             Example.translation_vectors_for_kmesh Example.get_lattice_Ls
             Example.sort_by_norm Example._primitive_gto_cutoff Example.cell_add
             Example.build_supcell Example.intor_ovlp Example.intor_symmetric_ovlp
             Example.Cell_nao Example.Cell_ao_loc Example.aft_get_jk
             Example.builder0 Example.dm3 1 None None true true (Some 0.3) ExxNone).
    discriminate.
  - apply (get_jk_rejects_overrides Example.mesh_to_cutoff
             Example.estimate_omega_for_ke_cutoff Example.estimate_ke_cutoff_for_omega
             Example.cutoff_to_mesh Example.estimate_eta_for_ke_cutoff
             Example.kpts_to_kmesh Example.get_phase
             Example.translation_vectors_for_kmesh Example.get_lattice_Ls
             Example.sort_by_norm Example._primitive_gto_cutoff Example.cell_add
             Example.build_supcell Example.intor_ovlp Example.intor_symmetric_ovlp
             Example.Cell_nao Example.Cell_ao_loc Example.aft_get_jk
             Example.builder0 Example.dm3 1 (Some Example.kpts_far) None true true
             None ExxNone).
    + reflexivity.
    + exists Example.kpts_far, [[0.25 - 0; 0 - 0; 0 - 0]], 0.25.
      split; [reflexivity |]. split; [apply sub2_kpts_far |].
      split; [apply absmax2_kpts_far | lra].
Defined.




(** *** Screening on the concrete cell *)

Lemma make_extended_mole_example :
  _make_extended_mole Example.build_supcell Example.intor_ovlp
    (Example.cell_add Example.cell1_dense Example.cell1_sparse)
    [[0; 0; 0]; [1.8; 0; 0]] [[0; 0; 0]] (Some (1e-8 * 1e-3))
  = ok (SupMol.with_omega Example.supmol1 0).
Proof.
  unfold _make_extended_mole, absmax_axis0, Np.getitem_mask. unfold_example.
  float_eval. reflexivity.
Qed.

Lemma absmax_axis0_example :
  absmax_axis0 (Example.intor_ovlp Example.supmol1 (0, 2, 0, 4)%nat)
  = ok [1; 1; 1e-12; 1e-3].
Proof. unfold absmax_axis0. unfold_example. float_eval. reflexivity. Qed.

(** The third candidate, the steep shell of the second image, is dropped:
    its overlap magnitudes with the two shells of the reference cell, 1e-13
    and 1e-12, are both below the threshold 1e-11. The three shells that are
    kept carry the ids 0, 1, 1 and the classes steep, smooth, smooth. *)
Lemma supercell_screening_witness :
  exists kept : list nat,
    ~ In 2%nat kept /\
    (In 3%nat kept <->
       (3 < 4)%nat /\
       exists row, In row [[1; 0.3; 1e-13; 1e-5]; [0.3; 1; 1e-12; 1e-3]] /\
                   Rabs (nth 3 row 0) > 1e-8 * 1e-3) /\
    [Example.shell_steep; Example.shell_smooth; Example.shell_smooth] =
      map (fun j => nth j [Example.shell_steep; Example.shell_smooth;
                           Example.shell_steep; Example.shell_smooth]
                      Example.shell_steep) kept /\
    [0; 1; 1]%nat =
      map (fun j => (nth (j mod 2) [0; 1] 0 + ((j / 2) mod 1) * 2)%nat) kept /\
    [false; true; true] = map (fun j => Nat.leb 1 (j mod 2)) kept.
Proof.
  assert (Hrect : Forall (fun row => length row = 4%nat)
                    [[1; 0.3; 1e-13; 1e-5]; [0.3; 1; 1e-12; 1e-3]])
    by (repeat constructor).
  destruct (supercell_screening Example.build_supcell Example.intor_ovlp
              Example.cell1 Example.cell1_dense Example.cell1_sparse
              (Example.cell_add Example.cell1_dense Example.cell1_sparse)
              [[0; 0; 0]; [1.8; 0; 0]] [[0; 0; 0]] (1e-8 * 1e-3) 1 4
              (SupMol.with_omega Example.supmol1 0) [0; 1; 1]%nat [false; true; true]
              Hrect make_extended_mole_example eq_refl eq_refl)
    as (s0max & kept & _ & _ & _ & _ & _ & _ & Hrow & Hdrop & Hbas & _ & Hid & Hsm & _).
  exists kept. split; [| split; [| split; [| split]]].
  - apply Hdrop.
    + simpl. lia.
    + intros row [<- | [<- | []]]; simpl; float_cmp; lra.
  - exact (Hrow 3%nat).
  - exact (Hbas Example.shell_steep).
  - exact Hid.
  - exact Hsm.
Defined.

(** ** Basis partitioner *)

Lemma length_slice {A : Type} (a : list A) (s n : nat) :
  length (Np.slice a s n) = Nat.min n (length a - s).
Proof. unfold Np.slice. now rewrite length_firstn, length_skipn. Qed.

Lemma set_slice_ok (a : list R) (s n : nat) (vals a' : list R) :
  Np.set_slice a s n vals = ok a' ->
  a' = firstn s a ++ vals ++ skipn (s + n) a /\
  length vals = Nat.min n (length a - s).
Proof.
  unfold Np.set_slice. destruct (Nat.eqb _ _) eqn:E; [| discriminate].
  intros H. injection H as <-. apply Nat.eqb_eq in E.
  rewrite length_slice in E. split; [reflexivity | exact E].
Qed.

(** Reading back inside the region that was written. *)
Lemma slice_written {A : Type} (a vals rest : list A) (s off m : nat) :
  (s <= length a)%nat -> (off + m <= length vals)%nat ->
  Np.slice (firstn s a ++ vals ++ rest) (s + off) m = Np.slice vals off m.
Proof.
  intros Hs Hm. unfold Np.slice.
  rewrite skipn_app, length_firstn, Nat.min_l by exact Hs.
  rewrite skipn_all2 by (rewrite length_firstn; lia).
  replace (s + off - s)%nat with off by lia. simpl.
  rewrite skipn_app, firstn_app, length_skipn.
  replace (m - (length vals - off))%nat with 0%nat by lia.
  rewrite firstn_O, app_nil_r. reflexivity.
Qed.

(** Reading to the right of the region that was written. *)
Lemma slice_right_of_written {A : Type} (a vals : list A) (s n t m : nat) :
  (s + n <= length a)%nat -> length vals = n -> (s + n <= t)%nat ->
  Np.slice (firstn s a ++ vals ++ skipn (s + n) a) t m = Np.slice a t m.
Proof.
  intros Hs Hv Ht. unfold Np.slice. f_equal.
  rewrite app_assoc, skipn_app.
  rewrite skipn_all2 by (rewrite length_app, length_firstn; lia).
  rewrite length_app, length_firstn, Nat.min_l, Hv by lia. simpl.
  rewrite skipn_skipn. f_equal. lia.
Qed.

Lemma length_select {A : Type} (mask : list bool) (a : list A) :
  length mask = length a -> length (Np.select mask a) = Np.count_nonzero mask.
Proof.
  unfold Np.count_nonzero.
  revert a. induction mask as [| m mask IH]; intros [| x a] H; simpl in *;
    try discriminate; [reflexivity |].
  destruct m; simpl; rewrite IH by lia; reflexivity.
Qed.

Lemma count_nonzero_negb (mask : list bool) :
  (Np.count_nonzero (map negb mask) + Np.count_nonzero mask = length mask)%nat.
Proof.
  unfold Np.count_nonzero. induction mask as [| m mask IH]; simpl; [reflexivity |].
  destruct m; simpl; lia.
Qed.

Lemma select_combine {A B : Type} (mask : list bool) (a : list A) (b : list B) :
  Np.select mask (combine a b) = combine (Np.select mask a) (Np.select mask b).
Proof.
  revert a b. induction mask as [| m mask IH]; intros [| x a] [| y b]; simpl;
    try reflexivity.
  - now destruct m; destruct (Np.select mask a).
  - destruct m; simpl; now rewrite IH.
Qed.

Lemma select_Forall {A : Type} (P : A -> Prop) (mask : list bool) (a : list A) :
  Forall P a -> Forall P (Np.select mask a).
Proof.
  intros H. revert mask. induction H as [| x a Hx Ha IH]; intros [| m mask]; simpl;
    try constructor.
  destruct m; [constructor; [exact Hx | apply IH] | apply IH].
Qed.

Lemma length_transpose_ravel (ncol : nat) (c : list (list R)) :
  length (Np.transpose_ravel ncol c) = (ncol * length c)%nat.
Proof.
  unfold Np.transpose_ravel. rewrite flat_map_concat_map.
  induction ncol as [| n IH] using nat_ind; [reflexivity |].
  rewrite seq_S, map_app, concat_app, length_app, IH. simpl.
  rewrite app_nil_r, length_map. lia.
Qed.

(** Entry [k * rows + p] of [c.T.ravel()] is [c[p][k]]. *)
Lemma nth_transpose_ravel (ncol : nat) (c : list (list R)) (k p : nat) :
  (k < ncol)%nat -> (p < length c)%nat ->
  nth (k * length c + p) (Np.transpose_ravel ncol c) 0 = nth k (nth p c []) 0.
Proof.
  intros Hk Hp. unfold Np.transpose_ravel. rewrite flat_map_concat_map.
  rewrite (nth_concat_uniform _ (length c)).
  - rewrite Nat.add_comm, Nat.Div0.mod_add, Nat.div_add by lia.
    rewrite Nat.mod_small, Nat.div_small by lia. simpl.
    rewrite (nth_map_in _ _ _ 0%nat) by (now rewrite length_seq).
    rewrite seq_nth by exact Hk. simpl.
    apply (nth_map_in (fun row => nth k row 0) c p []). exact Hp.
  - apply Forall_forall. intros r Hr. apply in_map_iff in Hr as (j & <- & _).
    apply length_map.
  - rewrite length_map, length_seq. nia.
Qed.

(** Reading a matrix back from its [c.T.ravel()]. *)
Lemma ctr_coeff_of_transpose_ravel (ncol : nat) (c : list (list R)) :
  Forall (fun row => length row = ncol) c ->
  map (fun p => map (fun k => nth (k * length c + p) (Np.transpose_ravel ncol c) 0)
                    (seq 0 ncol))
      (seq 0 (length c)) = c.
Proof.
  intros Hc.
  transitivity (map (fun p => nth p c []) (seq 0 (length c))); [| apply map_nth_seq].
  apply map_ext_in. intros p Hp. apply in_seq in Hp.
  assert (Hrow : length (nth p c []) = ncol).
  { rewrite Forall_forall in Hc. apply Hc. apply nth_In. lia. }
  transitivity (map (fun k => nth k (nth p c []) 0) (seq 0 (length (nth p c []))));
    [| apply map_nth_seq].
  rewrite Hrow. apply map_ext_in. intros k Hk. apply in_seq in Hk.
  apply nth_transpose_ravel; lia.
Qed.

Lemma length_concat_uniform {A : Type} (rows : list (list A)) (L : nat) :
  Forall (fun r => length r = L) rows -> length (concat rows) = (length rows * L)%nat.
Proof.
  induction 1 as [| r rows Hr _ IH]; simpl; [reflexivity |].
  rewrite length_app, IH, Hr. reflexivity.
Qed.

Lemma slice_0_app {A : Type} (l1 l2 : list A) :
  Np.slice (l1 ++ l2) 0 (length l1) = l1.
Proof.
  unfold Np.slice. simpl. rewrite firstn_app, Nat.sub_diag, firstn_all. simpl.
  apply app_nil_r.
Qed.

Lemma slice_app_tail {A : Type} (l1 l2 : list A) :
  Np.slice (l1 ++ l2) (length l1) (length l2) = l2.
Proof.
  unfold Np.slice. rewrite skipn_app, skipn_all, Nat.sub_diag. simpl. apply firstn_all.
Qed.

Lemma libcint_ctr_coeff_ok (env : list R) (b : bas_row) (cs : list (list R)) :
  libcint_ctr_coeff env b = ok cs ->
  length cs = NPRIM_OF b /\ Forall (fun row => length row = NCTR_OF b) cs.
Proof.
  unfold libcint_ctr_coeff. destruct (Nat.eqb _ _); [| discriminate].
  intros H. injection H as <-. split.
  - now rewrite length_map, length_seq.
  - apply Forall_forall. intros row Hr. apply in_map_iff in Hr as (p & <- & _).
    now rewrite length_map, length_seq.
Qed.

Section SplitFacts.

Variable cell : Cell.t.
Variable ke_cut : R.
Variable rcuts kecuts : list (list R).

(** What [_split_cell] is written to achieve. For a mixed shell whose
    exponents precede its coefficients in [_env], one iteration of the loop
    appends one shell to each basis, and read against the local [_env] after
    the iteration the dense one carries exactly the primitives of the
    original shell that the mask selects and the sparse one exactly the
    others, each in the original order. *)
Lemma step_mixed_partition (st st' : SplitCell.locals) (ib : nat) (b : bas_row)
    (ke : list R) (prims : list (R * list R)) :
  let mask := map (fun k => Rgtb k ke_cut) ke in
  let np1 := Np.count_nonzero mask in
  let bas1 :=
    mk_bas (ATOM_OF b) (ANG_OF b) np1 (NCTR_OF b) (KAPPA_OF b) (PTR_EXP b)
      (PTR_COEFF b) in
  let bas2 :=
    mk_bas (ATOM_OF b) (ANG_OF b) (NPRIM_OF b - np1) (NCTR_OF b) (KAPPA_OF b)
      (PTR_EXP b + np1) (PTR_COEFF b + np1 * NCTR_OF b) in
  SplitCell.step cell ke_cut rcuts kecuts st ib b = ok st' ->
  nth_error kecuts ib = Some ke ->
  np1 <> 0%nat -> np1 <> NPRIM_OF b -> NCTR_OF b <> 0%nat ->
  (PTR_EXP b + NPRIM_OF b <= PTR_COEFF b)%nat ->
  primitives (Cell._env cell) b = ok prims ->
  SplitCell.dense_bas st' = SplitCell.dense_bas st ++ [bas1] /\
  SplitCell.sparse_bas st' = SplitCell.sparse_bas st ++ [bas2] /\
  (NPRIM_OF bas1 + NPRIM_OF bas2 = NPRIM_OF b)%nat /\
  primitives (SplitCell.l_env st') bas1 = ok (Np.select mask prims) /\
  primitives (SplitCell.l_env st') bas2 = ok (Np.select (map negb mask) prims).
Proof.
  intros mask np1 bas1 bas2 H Hke Hnp0 Hnp1 Hctr Hlay Hprims.
  unfold SplitCell.step, SplitCell.getitem in H. rewrite Hke in H. simpl bind in H.
  fold mask np1 in H.
  apply Nat.eqb_neq in Hnp0, Hnp1. rewrite Hnp0, Hnp1 in H.
  apply Nat.eqb_neq in Hnp0, Hnp1.
  set (nprim := NPRIM_OF b) in *. set (nctr := NCTR_OF b) in *.
  set (pexp := PTR_EXP b) in *. set (pcoeff := PTR_COEFF b) in *.
  apply bind_ok in H as (cs & Hcs & H).
  apply bind_ok in H as (e1 & He1 & H).
  apply bind_ok in H as (e2 & He2 & H).
  apply bind_ok in H as (c1 & Hc1 & H).
  apply bind_ok in H as (c2 & Hc2 & H).
  apply bind_ok in H as (env1 & Henv1 & H).
  apply bind_ok in H as (env2 & Henv2 & H).
  apply bind_ok in H as (ke1 & _ & H).
  apply bind_ok in H as (kemax & _ & H).
  apply bind_ok in H as (rc & _ & H).
  apply bind_ok in H as (rc1 & _ & H).
  apply bind_ok in H as (rcmax & _ & H).
  injection H as <-. simpl.
  unfold primitives in Hprims. rewrite Hcs in Hprims. simpl in Hprims.
  injection Hprims as <-.
  set (es := bas_exp (Cell._env cell) b) in *.
  destruct (libcint_ctr_coeff_ok _ _ _ Hcs) as [Hlcs Hrows]. fold nprim nctr in Hlcs, Hrows.
  apply getitem_mask_ok in He1 as [Hm1 ->].
  apply getitem_mask_ok in He2 as [_ ->].
  apply getitem_mask_ok in Hc1 as [Hm2 ->].
  apply getitem_mask_ok in Hc2 as [Hm3 ->].
  set (nmask := map negb mask) in *.
  assert (Hlm : length mask = nprim) by congruence.
  assert (Hlnm : length nmask = nprim) by (unfold nmask; now rewrite length_map).
  assert (Hcnt : (Np.count_nonzero nmask + np1 = nprim)%nat).
  { unfold nmask, np1. rewrite count_nonzero_negb. exact Hlm. }
  assert (Hle1 : length (Np.select mask es) = np1) by (apply length_select; congruence).
  assert (Hle2 : length (Np.select nmask es) = (nprim - np1)%nat).
  { rewrite length_select by congruence. lia. }
  assert (Hlc1 : length (Np.select mask cs) = np1) by (apply length_select; congruence).
  assert (Hlc2 : length (Np.select nmask cs) = (nprim - np1)%nat).
  { rewrite length_select by congruence. lia. }
  assert (Hr1 : Forall (fun row => length row = nctr) (Np.select mask cs))
    by now apply select_Forall.
  assert (Hr2 : Forall (fun row => length row = nctr) (Np.select nmask cs))
    by now apply select_Forall.
  set (e1 := Np.select mask es) in *. set (e2 := Np.select nmask es) in *.
  set (c1 := Np.select mask cs) in *. set (c2 := Np.select nmask cs) in *.
  set (t1 := Np.transpose_ravel nctr c1) in *.
  set (t2 := Np.transpose_ravel nctr c2) in *.
  assert (Hlt1 : length t1 = (np1 * nctr)%nat).
  { unfold t1. rewrite length_transpose_ravel, Hlc1. lia. }
  assert (Hlt2 : length t2 = ((nprim - np1) * nctr)%nat).
  { unfold t2. rewrite length_transpose_ravel, Hlc2. lia. }
  apply set_slice_ok in Henv1 as [-> HV].
  rewrite length_app, Hlt1, Hlt2 in HV.
  assert (Hin1 : (pcoeff + nprim * nctr <= length (SplitCell.l_env st))%nat) by nia.
  set (env1 := firstn pcoeff (SplitCell.l_env st) ++ (t1 ++ t2) ++
               skipn (pcoeff + nprim * nctr) (SplitCell.l_env st)) in *.
  assert (Hlenv1 : length env1 = length (SplitCell.l_env st)).
  { unfold env1. rewrite !length_app, length_firstn, length_skipn, Hlt1, Hlt2. nia. }
  apply set_slice_ok in Henv2 as [-> HE].
  rewrite length_app, Hle1, Hle2 in HE.
  assert (Hin2 : (pexp + nprim <= length env1)%nat) by lia.
  assert (Hcc1 : length (concat c1) = (np1 * nctr)%nat).
  { rewrite (length_concat_uniform _ nctr) by exact Hr1. now rewrite Hlc1. }
  (* what the new array holds *)
  assert (Xe1 : Np.slice (firstn pexp env1 ++ (e1 ++ e2) ++ skipn (pexp + nprim) env1)
                  pexp np1 = e1).
  { pose proof (slice_written env1 (e1 ++ e2) (skipn (pexp + nprim) env1) pexp 0 np1)
      as X.
    rewrite Nat.add_0_r in X. rewrite X by (rewrite ?length_app; lia).
    rewrite <- Hle1. apply slice_0_app. }
  assert (Xe2 : Np.slice (firstn pexp env1 ++ (e1 ++ e2) ++ skipn (pexp + nprim) env1)
                  (pexp + np1) (nprim - np1) = e2).
  { rewrite slice_written by (rewrite ?length_app; lia).
    rewrite <- Hle2. rewrite <- Hle1 at 1. apply slice_app_tail. }
  assert (Xc : forall off m, (off + m <= nprim * nctr)%nat ->
             Np.slice (firstn pexp env1 ++ (e1 ++ e2) ++ skipn (pexp + nprim) env1)
               (pcoeff + off) m = Np.slice (t1 ++ t2) off m).
  { intros off m Hom.
    rewrite slice_right_of_written by (rewrite ?length_app; lia).
    unfold env1. apply slice_written; [lia |]. rewrite length_app. lia. }
  rewrite Hcc1, Hle1.
  split; [reflexivity |]. split; [reflexivity |].
  split.
  { simpl. assert (np1 <= nprim)%nat by lia. fold nprim. lia. }
  subst bas1 bas2. fold nprim nctr pexp pcoeff.
  split.
  - unfold primitives, libcint_ctr_coeff, bas_exp. simpl.
    pose proof (Xc 0%nat (np1 * nctr)%nat) as X. rewrite Nat.add_0_r in X.
    rewrite X by nia. rewrite <- Hlt1, slice_0_app, Hlt1.
    replace (Nat.eqb (np1 * nctr) (nctr * np1)) with true
      by (symmetry; apply Nat.eqb_eq; lia).
    simpl. rewrite Xe1.
    pose proof (ctr_coeff_of_transpose_ravel nctr c1 Hr1) as Y.
    rewrite Hlc1 in Y. fold t1 in Y. rewrite Y.
    rewrite select_combine. reflexivity.
  - unfold primitives, libcint_ctr_coeff, bas_exp. simpl.
    rewrite Xc by nia. rewrite <- Hlt1, <- Hlt2, slice_app_tail, Hlt2.
    replace (Nat.eqb ((nprim - np1) * nctr) (nctr * (nprim - np1))) with true
      by (symmetry; apply Nat.eqb_eq; lia).
    simpl. rewrite Xe2.
    pose proof (ctr_coeff_of_transpose_ravel nctr c2 Hr2) as Y.
    rewrite Hlc2 in Y. fold t2 in Y. rewrite Y.
    rewrite select_combine. reflexivity.
Qed.

End SplitFacts.

(** What the returned cells hold instead. Their [_env] is the original
    array, in which the two new shells address the first [np1] exponents of
    the original shell and the remaining ones, whatever the mask selects. *)
Lemma split_shells_in_original_env (env : list R) (b : bas_row) (np1 : nat) :
  let bas1 :=
    mk_bas (ATOM_OF b) (ANG_OF b) np1 (NCTR_OF b) (KAPPA_OF b) (PTR_EXP b)
      (PTR_COEFF b) in
  let bas2 :=
    mk_bas (ATOM_OF b) (ANG_OF b) (NPRIM_OF b - np1) (NCTR_OF b) (KAPPA_OF b)
      (PTR_EXP b + np1) (PTR_COEFF b + np1 * NCTR_OF b) in
  (np1 <= NPRIM_OF b)%nat ->
  bas_exp env bas1 = firstn np1 (bas_exp env b) /\
  bas_exp env bas2 = skipn np1 (bas_exp env b).
Proof.
  intros bas1 bas2 Hle. unfold bas_exp, Np.slice. simpl. split.
  - rewrite firstn_firstn, Nat.min_l by exact Hle. reflexivity.
  - rewrite skipn_firstn_comm, skipn_skipn. do 2 f_equal. lia.
Qed.

(** ** Basis partitioner on concrete cells *)

(** C2 fails on the code. The shell of [Example.cell_gc] has the primitives
    (2.1, [1; 0.5]) and (0.1, [0.2; 0.3]), the first steep and the second
    smooth. [_split_cell] returns a dense and a sparse shell of one
    primitive each, but read against the [_env] of the cells it returns
    (the original array: the rearranged local [_env] is dropped) the dense
    shell carries (2.1, [1; 0.2]) and the sparse shell (0.1, [0.5; 0.3]).
    Read against the local [_env] they would carry the two primitives of
    the original shell. *)
Theorem split_cell_mixes_coefficients :
  let bas1 := mk_bas 0 0 1 2 0 0 2 in
  let bas2 := mk_bas 0 0 1 2 0 1 4 in
  let env := [2.1; 0.1; 1; 0.2; 0.5; 0.3] in
  _split_cell Example.cutoff_gc Example.cell_gc 10 =
    ok (Cell.mk [bas1] env [0%nat] 3 1e-8 0 3,
        Cell.mk [bas2] env [0%nat] 5 1e-8 0 3, 50) /\
  primitives env Example.shell_gc = ok [(2.1, [1; 0.5]); (0.1, [0.2; 0.3])] /\
  primitives env bas1 = ok [(2.1, [1; 0.2])] /\
  primitives env bas2 = ok [(0.1, [0.5; 0.3])] /\
  exists st,
    SplitCell.run Example.cell_gc 10 [[3; 9]] [[50; 2]] = ok st /\
    SplitCell.l_env st = [2.1; 0.1; 1; 0.5; 0.2; 0.3] /\
    primitives (SplitCell.l_env st) bas1 = ok [(2.1, [1; 0.5])] /\
    primitives (SplitCell.l_env st) bas2 = ok [(0.1, [0.2; 0.3])].
Proof.
  intros bas1 bas2 env. subst bas1 bas2 env.
  split; [| split; [| split; [| split]]].
  - unfold_example. unfold_split. float_eval. reflexivity.
  - reflexivity.
  - reflexivity.
  - reflexivity.
  - eexists. split.
    + unfold_example. unfold_split. float_eval. reflexivity.
    + simpl. repeat split.
Qed.

(** The same with one contraction when the smooth primitive comes first:
    the shell of [Example.cell_mixed] has the primitives (0.1, [0.2]),
    smooth, and (2.1, [1]), steep; the dense shell that is returned carries
    the smooth one and the sparse shell the steep one. *)
Lemma split_cell_swaps_primitives :
  let bas1 := mk_bas 0 0 1 1 0 0 2 in
  let bas2 := mk_bas 0 0 1 1 0 1 3 in
  let env := [0.1; 2.1; 0.2; 1] in
  _split_cell Example.cutoff_mixed Example.cell_mixed 10 =
    ok (Cell.mk [bas1] env [0%nat] 3 1e-8 0 3,
        Cell.mk [bas2] env [0%nat] 5 1e-8 0 3, 50) /\
  primitives env Example.shell_mixed = ok [(0.1, [0.2]); (2.1, [1])] /\
  primitives env bas1 = ok [(0.1, [0.2])] /\
  primitives env bas2 = ok [(2.1, [1])].
Proof.
  intros bas1 bas2 env. subst bas1 bas2 env.
  split; [| split; [| split]].
  - unfold_example. unfold_split. float_eval. reflexivity.
  - reflexivity.
  - reflexivity.
  - reflexivity.
Qed.

(** ** The loop of the basis partitioner *)

Lemma fold_left_Rmax_spec (l : list R) (x : R) :
  let m := fold_left Rmax l x in
  x <= m /\ (forall y, In y l -> y <= m) /\ (m = x \/ In m l).
Proof.
  revert x. induction l as [| a l IH]; intros x; simpl.
  - split; [lra |]. split; [intros y [] | now left].
  - destruct (IH (Rmax x a)) as (H1 & H2 & H3).
    pose proof (Rmax_l x a) as Ml. pose proof (Rmax_r x a) as Mr.
    split; [lra |]. split.
    + intros y [<- | Hy]; [lra | now apply H2].
    + destruct H3 as [E | Hin]; [| right; now right].
      rewrite E. unfold Rmax. destruct (Rle_dec x a); [right; now left | now left].
Qed.

(** [a.max()] bounds every entry of [a] and is one of them. *)
Lemma max_spec (a : list R) (m : R) :
  Np.max a = ok m -> (forall y, In y a -> y <= m) /\ In m a.
Proof.
  destruct a as [| x a]; simpl; [discriminate |].
  intros H. injection H as <-.
  destruct (fold_left_Rmax_spec a x) as (H1 & H2 & H3). split.
  - intros y [<- | Hy]; [exact H1 | now apply H2].
  - destruct H3 as [-> | Hin]; [now left | now right].
Qed.

Lemma select_map_filter {A : Type} (f : A -> bool) (l : list A) :
  Np.select (map f l) l = filter f l.
Proof.
  induction l as [| x l IH]; simpl; [reflexivity |].
  destruct (f x); now rewrite IH.
Qed.

Lemma count_nonzero_map_filter {A : Type} (f : A -> bool) (l : list A) :
  Np.count_nonzero (map f l) = length (filter f l).
Proof.
  unfold Np.count_nonzero. induction l as [| x l IH]; simpl; [reflexivity |].
  destruct (f x); simpl; now rewrite IH.
Qed.

Lemma count_nonzero_le (mask : list bool) : (Np.count_nonzero mask <= length mask)%nat.
Proof. unfold Np.count_nonzero. apply filter_length_le. Qed.

Lemma count_nonzero_0 {A : Type} (f : A -> bool) (l : list A) :
  Np.count_nonzero (map f l) = 0%nat -> forall x, In x l -> f x = false.
Proof.
  rewrite count_nonzero_map_filter. intros H x Hx.
  destruct (f x) eqn:E; [| reflexivity].
  assert (Hin : In x (filter f l)) by (apply filter_In; now split).
  destruct (filter f l); [contradiction | discriminate].
Qed.

Lemma count_nonzero_pos {A : Type} (f : A -> bool) (l : list A) :
  Np.count_nonzero (map f l) <> 0%nat -> exists x, In x l /\ f x = true.
Proof.
  rewrite count_nonzero_map_filter. intros H.
  destruct (filter f l) as [| x r] eqn:E; [contradiction |].
  exists x. apply filter_In. rewrite E. now left.
Qed.

Section SplitLoopFacts.

Variable cell : Cell.t.
Variable ke_cut : R.
Variable rcuts kecuts : list (list R).

(** What one iteration of the loop appends: the shell itself to the sparse
    basis when none of its primitives is steep, the shell itself to the
    dense basis when all are, and otherwise one shell with the first [np1]
    primitive slots to the dense basis and one with the remaining slots to
    the sparse basis. The cutoff grows to the largest [ke] of a steep
    primitive. *)
Lemma step_outcome (st st' : SplitCell.locals) (ib : nat) (b : bas_row) :
  SplitCell.step cell ke_cut rcuts kecuts st ib b = ok st' ->
  exists ke d s,
    nth_error kecuts ib = Some ke /\
    SplitCell.dense_bas st' = SplitCell.dense_bas st ++ d /\
    SplitCell.sparse_bas st' = SplitCell.sparse_bas st ++ s /\
    SplitCell.dense_bas_idx st' = SplitCell.dense_bas_idx st ++ map (fun _ => ib) d /\
    SplitCell.sparse_bas_idx st' = SplitCell.sparse_bas_idx st ++ map (fun _ => ib) s /\
    ((d = [] /\ s = [b] /\ (forall k, In k ke -> k <= ke_cut) /\
      SplitCell.ke_cutoff st' = SplitCell.ke_cutoff st /\
      SplitCell.dense_cell_rcut st' = SplitCell.dense_cell_rcut st)
     \/
     (exists kemax,
        (d = [b] /\ s = [] \/
         exists np1, (0 < np1 < NPRIM_OF b)%nat /\
           d = [mk_bas (ATOM_OF b) (ANG_OF b) np1 (NCTR_OF b) (KAPPA_OF b)
                  (PTR_EXP b) (PTR_COEFF b)] /\
           s = [mk_bas (ATOM_OF b) (ANG_OF b) (NPRIM_OF b - np1) (NCTR_OF b)
                  (KAPPA_OF b) (PTR_EXP b + np1) (PTR_COEFF b + np1 * NCTR_OF b)]) /\
        In kemax ke /\ kemax > ke_cut /\
        (forall k, In k ke -> k > ke_cut -> k <= kemax) /\
        SplitCell.ke_cutoff st' = Rmax (SplitCell.ke_cutoff st) kemax)).
Proof.
  unfold SplitCell.step, SplitCell.getitem. intros H.
  destruct (nth_error kecuts ib) as [ke |] eqn:Hke; [| discriminate].
  simpl bind in H.
  set (f := fun k => Rgtb k ke_cut) in *.
  set (mask := map f ke) in *.
  set (np1 := Np.count_nonzero mask) in *.
  exists ke.
  destruct (Nat.eqb np1 0) eqn:E0.
  { apply Nat.eqb_eq in E0. injection H as <-. exists [], [b]. simpl.
    rewrite !app_nil_r. repeat split; try reflexivity.
    left. repeat split.
    intros k Hk. pose proof (count_nonzero_0 f ke E0 k Hk) as Hf. unfold f in Hf.
    destruct (Rle_dec k ke_cut) as [Hle | Hgt]; [exact Hle |].
    rewrite Rgtb_true in Hf by lra. discriminate. }
  apply Nat.eqb_neq in E0.
  destruct (count_nonzero_pos f ke E0) as (k0 & Hk0 & Hf0).
  apply Rgtb_spec in Hf0.
  destruct (Nat.eqb np1 (NPRIM_OF b)) eqn:E1.
  { apply bind_ok in H as (kemax & Hmax & H).
    apply bind_ok in H as (rc & _ & H).
    apply bind_ok in H as (rcmax & _ & H).
    injection H as <-. exists [b], []. simpl.
    rewrite !app_nil_r. repeat split; try reflexivity.
    right. exists kemax. destruct (max_spec _ _ Hmax) as [Hub Hin].
    split; [now left |]. split; [exact Hin |].
    split; [pose proof (Hub k0 Hk0); lra |].
    split; [| reflexivity]. intros k Hk _. now apply Hub. }
  apply Nat.eqb_neq in E1.
  apply bind_ok in H as (cs & Hcs & H).
  apply bind_ok in H as (e1 & He1 & H).
  apply bind_ok in H as (e2 & _ & H).
  apply bind_ok in H as (c1 & Hc1 & H).
  apply bind_ok in H as (c2 & _ & H).
  apply bind_ok in H as (env1 & _ & H).
  apply bind_ok in H as (env2 & _ & H).
  apply bind_ok in H as (ke1 & Hke1 & H).
  apply bind_ok in H as (kemax & Hmax & H).
  apply bind_ok in H as (rc & _ & H).
  apply bind_ok in H as (rc1 & _ & H).
  apply bind_ok in H as (rcmax & _ & H).
  injection H as <-. simpl.
  destruct (libcint_ctr_coeff_ok _ _ _ Hcs) as [Hlcs Hrows].
  apply getitem_mask_ok in He1 as [Hm1 ->].
  apply getitem_mask_ok in Hc1 as [Hm2 ->].
  apply getitem_mask_ok in Hke1 as [_ ->].
  assert (Hle : (np1 < NPRIM_OF b)%nat).
  { pose proof (count_nonzero_le mask) as Hc. fold np1 in Hc. lia. }
  rewrite (length_select mask (bas_exp (Cell._env cell) b)) by exact Hm1.
  rewrite (length_concat_uniform _ (NCTR_OF b)) by (now apply select_Forall).
  rewrite (length_select mask cs) by exact Hm2.
  fold np1.
  eexists _, _. repeat split; try reflexivity.
  right. exists kemax.
  unfold mask in Hmax. rewrite select_map_filter in Hmax.
  destruct (max_spec _ _ Hmax) as [Hub Hin].
  apply filter_In in Hin as [Hin Hgt]. apply Rgtb_spec in Hgt.
  split.
  { right. exists np1. split; [lia |]. split; reflexivity. }
  split; [exact Hin |]. split; [exact Hgt |]. split; [| reflexivity].
  intros k Hk Hkgt. apply Hub. apply filter_In. split; [exact Hk |].
  now apply Rgtb_true.
Qed.

End SplitLoopFacts.

Section SplitIndexFacts.

Variable cell : Cell.t.
Variable ke_cut : R.
Variable rcuts kecuts : list (list R).

Lemma step_idx (st st' : SplitCell.locals) (ib : nat) (b : bas_row) :
  SplitCell.step cell ke_cut rcuts kecuts st ib b = ok st' ->
  exists di si,
    SplitCell.dense_bas_idx st' = SplitCell.dense_bas_idx st ++ di /\
    SplitCell.sparse_bas_idx st' = SplitCell.sparse_bas_idx st ++ si /\
    length (SplitCell.dense_bas st') = (length (SplitCell.dense_bas st) + length di)%nat /\
    length (SplitCell.sparse_bas st') = (length (SplitCell.sparse_bas st) + length si)%nat /\
    (di = [] \/ di = [ib]) /\ (si = [] \/ si = [ib]) /\ (di = [] -> si = [ib]).
Proof.
  intros H. apply step_outcome in H as (ke & d & s & _ & Hd & Hs & Hdi & Hsi & Hc).
  exists (map (fun _ => ib) d), (map (fun _ => ib) s).
  rewrite Hd, Hs, !length_app, !length_map.
  repeat (split; [first [assumption | reflexivity] |]).
  destruct Hc as [(-> & -> & _) | (kemax & [[-> ->] | (np1 & _ & -> & ->)] & _)]; simpl;
    repeat split; auto; discriminate.
Qed.

(** The two index lists that the loop builds from shell [ib] on: each is
    increasing, and together they hold exactly the shells the loop visits. *)
Lemma loop_idx (bas : list bas_row) (st st' : SplitCell.locals) (ib : nat) :
  SplitCell.loop cell ke_cut rcuts kecuts st ib bas = ok st' ->
  exists di si,
    SplitCell.dense_bas_idx st' = SplitCell.dense_bas_idx st ++ di /\
    SplitCell.sparse_bas_idx st' = SplitCell.sparse_bas_idx st ++ si /\
    length (SplitCell.dense_bas st') = (length (SplitCell.dense_bas st) + length di)%nat /\
    length (SplitCell.sparse_bas st') = (length (SplitCell.sparse_bas st) + length si)%nat /\
    StronglySorted lt di /\ StronglySorted lt si /\
    (forall j, In j di \/ In j si <-> (ib <= j < ib + length bas)%nat).
Proof.
  revert st ib. induction bas as [| b rest IH]; intros st ib H; simpl in H.
  - injection H as <-. exists [], []. rewrite !app_nil_r.
    split; [reflexivity |]. split; [reflexivity |].
    split; [simpl; lia |]. split; [simpl; lia |].
    split; [apply SSorted_nil |]. split; [apply SSorted_nil |].
    intros j. simpl. split; [tauto | lia].
  - apply bind_ok in H as (st1 & Hstep & H).
    apply step_idx in Hstep as (d0 & s0 & Hd0 & Hs0 & Hld & Hls & Cd & Cs & Cds).
    apply IH in H as (d1 & s1 & Hd1 & Hs1 & Hld1 & Hls1 & Sd & Ss & Hin).
    exists (d0 ++ d1), (s0 ++ s1).
    rewrite Hd1, Hs1, Hd0, Hs0, Hld1, Hls1, Hld, Hls, !length_app, <- !app_assoc.
    assert (Hgt : forall l, (forall j, In j l -> In j d1 \/ In j s1) -> Forall (lt ib) l).
    { intros l Hl. apply Forall_forall. intros j Hj. apply Hl, Hin in Hj. lia. }
    assert (Hd0' : forall j, In j d0 -> j = ib).
    { destruct Cd as [-> | ->]; simpl; intros j Hj; [contradiction |].
      destruct Hj as [<- | []]. reflexivity. }
    assert (Hs0' : forall j, In j s0 -> j = ib).
    { destruct Cs as [-> | ->]; simpl; intros j Hj; [contradiction |].
      destruct Hj as [<- | []]. reflexivity. }
    split; [reflexivity |]. split; [reflexivity |].
    split; [lia |]. split; [lia |].
    split.
    { destruct Cd as [-> | ->]; simpl; [exact Sd |].
      constructor; [exact Sd | apply Hgt; tauto]. }
    split.
    { destruct Cs as [-> | ->]; simpl; [exact Ss |].
      constructor; [exact Ss | apply Hgt; tauto]. }
    intros j. rewrite !in_app_iff. simpl length. split.
    + intros [[H | H] | [H | H]];
        try (apply Hd0' in H; lia); try (apply Hs0' in H; lia);
        (assert (Hj : In j d1 \/ In j s1) by tauto); apply Hin in Hj; lia.
    + intros [Hlo Hhi].
      destruct (Nat.eq_dec j ib) as [-> | Hne].
      * destruct Cd as [-> | ->]; [| left; left; now left].
        rewrite (Cds eq_refl). right; left; now left.
      * assert (Hj : In j d1 \/ In j s1) by (apply Hin; lia). tauto.
Qed.

End SplitIndexFacts.

(** A shell of the dense basis against the shell of [all] it comes from:
    the same atom, angular momentum, contraction count and kappa, at most
    as many primitives, and the same storage pointers. *)
Local Abbreviation dense_piece all :=
  (fun (j : nat) (b' : bas_row) =>
     exists b, nth_error all j = Some b /\
       ATOM_OF b' = ATOM_OF b /\ ANG_OF b' = ANG_OF b /\ NCTR_OF b' = NCTR_OF b /\
       KAPPA_OF b' = KAPPA_OF b /\
       (b' = b \/ (0 < NPRIM_OF b' < NPRIM_OF b)%nat) /\
       PTR_EXP b' = PTR_EXP b /\ PTR_COEFF b' = PTR_COEFF b).

(** The same for a shell of the sparse basis, whose storage ends where the
    storage of the original shell ends. *)
Local Abbreviation sparse_piece all :=
  (fun (j : nat) (b' : bas_row) =>
     exists b, nth_error all j = Some b /\
       ATOM_OF b' = ATOM_OF b /\ ANG_OF b' = ANG_OF b /\ NCTR_OF b' = NCTR_OF b /\
       KAPPA_OF b' = KAPPA_OF b /\
       (b' = b \/ (0 < NPRIM_OF b' < NPRIM_OF b)%nat) /\
       (PTR_EXP b' + NPRIM_OF b' = PTR_EXP b + NPRIM_OF b)%nat /\
       (PTR_COEFF b' + NPRIM_OF b' * NCTR_OF b' =
        PTR_COEFF b + NPRIM_OF b * NCTR_OF b)%nat).

Section SplitShellFacts.

Variable cell : Cell.t.
Variable ke_cut : R.
Variable rcuts kecuts : list (list R).

Lemma loop_shells (bas pre : list bas_row) (st st' : SplitCell.locals) :
  SplitCell.loop cell ke_cut rcuts kecuts st (length pre) bas = ok st' ->
  Forall2 (dense_piece (pre ++ bas)) (SplitCell.dense_bas_idx st) (SplitCell.dense_bas st) ->
  Forall2 (sparse_piece (pre ++ bas)) (SplitCell.sparse_bas_idx st)
    (SplitCell.sparse_bas st) ->
  Forall2 (dense_piece (pre ++ bas)) (SplitCell.dense_bas_idx st')
    (SplitCell.dense_bas st') /\
  Forall2 (sparse_piece (pre ++ bas)) (SplitCell.sparse_bas_idx st')
    (SplitCell.sparse_bas st').
Proof.
  revert pre st. induction bas as [| b rest IH]; intros pre st H Hd Hs; simpl in H.
  - injection H as <-. split; assumption.
  - apply bind_ok in H as (st1 & Hstep & H).
    apply step_outcome in Hstep
      as (ke & d & s & _ & Ed & Es & Edi & Esi & Hc).
    assert (Hb : nth_error (pre ++ b :: rest) (length pre) = Some b).
    { rewrite nth_error_app2, Nat.sub_diag by lia. reflexivity. }
    replace (S (length pre)) with (length (pre ++ [b])) in H
      by (rewrite length_app; simpl; lia).
    replace (pre ++ b :: rest) with ((pre ++ [b]) ++ rest) in *
      by (rewrite <- app_assoc; reflexivity).
    apply IH in H; [exact H | |].
    + rewrite Edi, Ed. apply Forall2_app; [exact Hd |].
      destruct Hc as [(-> & _) | (kemax & [[-> _] | (np1 & Hnp & -> & _)] & _)]; simpl.
      * constructor.
      * constructor; [| constructor]. exists b. repeat split; try assumption. now left.
      * constructor; [| constructor]. exists b. simpl.
        repeat split; try assumption. right. exact Hnp.
    + rewrite Esi, Es. apply Forall2_app; [exact Hs |].
      destruct Hc as [(_ & -> & _) | (kemax & [[_ ->] | (np1 & Hnp & _ & ->)] & _)]; simpl.
      * constructor; [| constructor]. exists b. repeat split; try assumption. now left.
      * constructor.
      * constructor; [| constructor]. exists b. simpl.
        repeat split; try assumption; try (right; lia); nia.
Qed.

(** The loop keeps the number of primitive slots. *)
Lemma loop_nprim (bas : list bas_row) (st st' : SplitCell.locals) (ib : nat) :
  SplitCell.loop cell ke_cut rcuts kecuts st ib bas = ok st' ->
  (list_sum (map NPRIM_OF (SplitCell.dense_bas st')) +
   list_sum (map NPRIM_OF (SplitCell.sparse_bas st')) =
   list_sum (map NPRIM_OF (SplitCell.dense_bas st)) +
   list_sum (map NPRIM_OF (SplitCell.sparse_bas st)) +
   list_sum (map NPRIM_OF bas))%nat.
Proof.
  revert st ib. induction bas as [| b rest IH]; intros st ib H; simpl in H.
  - injection H as <-. simpl. lia.
  - apply bind_ok in H as (st1 & Hstep & H).
    apply IH in H. rewrite H. clear H.
    apply step_outcome in Hstep as (ke & d & s & _ & Ed & Es & _ & _ & Hc).
    rewrite Ed, Es, !map_app, !list_sum_app. simpl.
    destruct Hc as [(-> & -> & _) | (kemax & [[-> ->] | (np1 & Hnp & -> & ->)] & _)];
      simpl; lia.
Qed.

(** The cutoff the loop returns: it never decreases, it exceeds [ke_cut]
    as soon as a shell enters the dense basis, and it bounds the [ke] of
    every steep primitive of the shells the loop visits. *)
Lemma loop_ke_cutoff (bas : list bas_row) (st st' : SplitCell.locals) (ib : nat) :
  SplitCell.loop cell ke_cut rcuts kecuts st ib bas = ok st' ->
  SplitCell.ke_cutoff st <= SplitCell.ke_cutoff st' /\
  (exists d, SplitCell.dense_bas st' = SplitCell.dense_bas st ++ d /\
     (d = [] -> SplitCell.ke_cutoff st' = SplitCell.ke_cutoff st /\
                SplitCell.dense_cell_rcut st' = SplitCell.dense_cell_rcut st) /\
     (d <> [] -> SplitCell.ke_cutoff st' > ke_cut)) /\
  (forall j ke k, (ib <= j < ib + length bas)%nat -> nth_error kecuts j = Some ke ->
     In k ke -> k > ke_cut -> k <= SplitCell.ke_cutoff st').
Proof.
  revert st ib. induction bas as [| b rest IH]; intros st ib H; simpl in H.
  - injection H as <-. split; [lra |]. split.
    + exists []. rewrite app_nil_r. repeat split. congruence.
    + intros j ke k Hj. simpl in Hj. lia.
  - apply bind_ok in H as (st1 & Hstep & H).
    apply IH in H as (Hmono & (d1 & Ed1 & Hd1e & Hd1n) & Hub).
    apply step_outcome in Hstep as (ke0 & d0 & s0 & Hke0 & Ed0 & _ & _ & _ & Hc).
    destruct Hc as [(-> & _ & Hsm & Ek & Er) | (kemax & Hd0 & Hin & Hgt & Hmax & Ek)].
    + rewrite app_nil_r in Ed0. rewrite Ek in *. rewrite Er in *. rewrite Ed0 in Ed1.
      split; [exact Hmono |]. split.
      * exists d1. repeat split; try assumption; now apply Hd1e.
      * intros j ke k Hj Hke Hk Hkgt.
        destruct (Nat.eq_dec j ib) as [-> | Hne].
        -- rewrite Hke0 in Hke. injection Hke as <-. pose proof (Hsm k Hk). lra.
        -- apply (Hub j ke k); try assumption. simpl in Hj. lia.
    + pose proof (Rmax_l (SplitCell.ke_cutoff st) kemax) as Ml.
      pose proof (Rmax_r (SplitCell.ke_cutoff st) kemax) as Mr.
      rewrite Ek in *.
      split; [lra |]. split.
      * exists (d0 ++ d1). rewrite Ed1, Ed0, <- app_assoc.
        split; [reflexivity |]. split.
        -- intros E. apply app_eq_nil in E as [E _].
           destruct Hd0 as [[-> _] | (np1 & _ & -> & _)]; discriminate.
        -- intros _. lra.
      * intros j ke k Hj Hke Hk Hkgt.
        destruct (Nat.eq_dec j ib) as [-> | Hne].
        -- rewrite Hke0 in Hke. injection Hke as <-. pose proof (Hmax k Hk Hkgt). lra.
        -- apply (Hub j ke k); try assumption. simpl in Hj. lia.
Qed.

End SplitShellFacts.

Lemma split_cell_ok
    (cutoff : Cell.t -> R -> list (list R) * list (list R))
    (cell cell_dense cell_sparse : Cell.t) (ke_cut ke : R) :
  _split_cell cutoff cell ke_cut = ok (cell_dense, cell_sparse, ke) ->
  exists st,
    SplitCell.run cell ke_cut (fst (cutoff cell (Cell.precision cell)))
      (snd (cutoff cell (Cell.precision cell))) = ok st /\
    cell_dense =
      Cell.mk (SplitCell.dense_bas st) (Cell._env cell) (SplitCell.dense_bas_idx st)
        (SplitCell.dense_cell_rcut st) (Cell.precision cell) (Cell.omega cell)
        (Cell.dimension cell) /\
    cell_sparse =
      Cell.mk (SplitCell.sparse_bas st) (Cell._env cell) (SplitCell.sparse_bas_idx st)
        (Cell.rcut cell) (Cell.precision cell) (Cell.omega cell) (Cell.dimension cell) /\
    ke = SplitCell.ke_cutoff st.
Proof.
  unfold _split_cell. destruct (cutoff cell (Cell.precision cell)) as [rcuts kecuts].
  intros H. apply bind_ok in H as (st & Hrun & H). injection H as <- <- <-.
  exists st. simpl. repeat split. exact Hrun.
Qed.

Lemma split_cell_example :
  _split_cell Example._primitive_gto_cutoff Example.cell1 10 =
    ok (Example.cell1_dense, Example.cell1_sparse, 50).
Proof. unfold_example. unfold_split. float_eval. reflexivity. Qed.

(** X1. The two index arrays that [_split_cell] returns map the shells of
    the dense and of the sparse cell to the original cell: each has one
    entry per shell of its cell and is strictly increasing, and a shell
    index of the original cell occurs in at least one of them, while no
    other number occurs in either. *)
Theorem split_cell_covers_every_shell
    (cutoff : Cell.t -> R -> list (list R) * list (list R))
    (cell cell_dense cell_sparse : Cell.t) (ke_cut ke : R) :
  _split_cell cutoff cell ke_cut = ok (cell_dense, cell_sparse, ke) ->
  StronglySorted lt (Cell._bas_idx cell_dense) /\
  StronglySorted lt (Cell._bas_idx cell_sparse) /\
  (forall j, In j (Cell._bas_idx cell_dense) \/ In j (Cell._bas_idx cell_sparse) <->
             (j < Cell.nbas cell)%nat) /\
  length (Cell._bas_idx cell_dense) = Cell.nbas cell_dense /\
  length (Cell._bas_idx cell_sparse) = Cell.nbas cell_sparse.
Proof.
  intros H. apply split_cell_ok in H as (st & Hrun & -> & -> & _).
  unfold SplitCell.run in Hrun.
  apply loop_idx in Hrun as (di & si & Hd & Hs & Hld & Hls & Sd & Ss & Hin).
  simpl in Hd, Hs, Hld, Hls. unfold Cell.nbas. simpl.
  rewrite Hd, Hs. repeat split; try assumption; try lia.
  - intros Hj. apply Hin in Hj. lia.
  - intros Hj. apply Hin. lia.
Qed.

Lemma split_cell_covers_every_shell_witness :
  StronglySorted lt [0%nat] /\ StronglySorted lt [1%nat] /\
  (forall j, In j [0%nat] \/ In j [1%nat] <-> (j < 2)%nat).
Proof.
  destruct (split_cell_covers_every_shell _ _ _ _ _ _ split_cell_example)
    as (H1 & H2 & H3 & _).
  split; [exact H1 |]. split; [exact H2 | exact H3].
Defined.

(** X2. Every shell of the dense cell and of the sparse cell comes from the
    shell of the original cell that its index entry names: it has the same
    atom, angular momentum, number of contractions and kappa, and it is
    either that shell unchanged or holds fewer (and at least one) of its
    primitive slots. A dense shell keeps the original storage pointers; the
    storage of a sparse shell ends where the original one ends. *)
Theorem split_cell_shells_come_from_cell
    (cutoff : Cell.t -> R -> list (list R) * list (list R))
    (cell cell_dense cell_sparse : Cell.t) (ke_cut ke : R) :
  _split_cell cutoff cell ke_cut = ok (cell_dense, cell_sparse, ke) ->
  Forall2 (dense_piece (Cell._bas cell)) (Cell._bas_idx cell_dense)
    (Cell._bas cell_dense) /\
  Forall2 (sparse_piece (Cell._bas cell)) (Cell._bas_idx cell_sparse)
    (Cell._bas cell_sparse).
Proof.
  intros H. apply split_cell_ok in H as (st & Hrun & -> & -> & _).
  unfold SplitCell.run in Hrun. simpl.
  apply (loop_shells cell ke_cut _ _ (Cell._bas cell) []) in Hrun;
    [exact Hrun | constructor | constructor].
Qed.

Lemma split_cell_shells_come_from_cell_witness :
  Forall2 (dense_piece [Example.shell_steep; Example.shell_smooth]) [0%nat]
    [Example.shell_steep] /\
  Forall2 (sparse_piece [Example.shell_steep; Example.shell_smooth]) [1%nat]
    [Example.shell_smooth].
Proof.
  exact (split_cell_shells_come_from_cell _ _ _ _ _ _ split_cell_example).
Defined.

(** X3. [_split_cell] keeps the number of primitive slots: the primitive
    counts (the NPRIM entries) of the shells of the dense and of the sparse
    cell add up to the primitive counts of the shells of the original cell.
    This is a statement about the counts only, not about which exponents
    and coefficients the shells read. *)
Theorem split_cell_conserves_primitive_count
    (cutoff : Cell.t -> R -> list (list R) * list (list R))
    (cell cell_dense cell_sparse : Cell.t) (ke_cut ke : R) :
  _split_cell cutoff cell ke_cut = ok (cell_dense, cell_sparse, ke) ->
  (list_sum (map NPRIM_OF (Cell._bas cell_dense)) +
   list_sum (map NPRIM_OF (Cell._bas cell_sparse)) =
   list_sum (map NPRIM_OF (Cell._bas cell)))%nat.
Proof.
  intros H. apply split_cell_ok in H as (st & Hrun & -> & -> & _).
  unfold SplitCell.run in Hrun. apply loop_nprim in Hrun. simpl in *. exact Hrun.
Qed.

Lemma split_cell_gc_example :
  _split_cell Example.cutoff_gc Example.cell_gc 10 =
    ok (Cell.mk [mk_bas 0 0 1 2 0 0 2] [2.1; 0.1; 1; 0.2; 0.5; 0.3] [0%nat] 3 1e-8 0 3,
        Cell.mk [mk_bas 0 0 1 2 0 1 4] [2.1; 0.1; 1; 0.2; 0.5; 0.3] [0%nat] 5 1e-8 0 3,
        50).
Proof. unfold_example. unfold_split. float_eval. reflexivity. Qed.

Lemma split_cell_conserves_primitive_count_witness :
  (list_sum (map NPRIM_OF [mk_bas 0 0 1 2 0 0 2]) +
   list_sum (map NPRIM_OF [mk_bas 0 0 1 2 0 1 4]) =
   list_sum (map NPRIM_OF (Cell._bas Example.cell_gc)))%nat.
Proof.
  exact (split_cell_conserves_primitive_count _ _ _ _ _ _ split_cell_gc_example).
Defined.

(** X4. The cutoff that [_split_cell] returns is enough for every steep
    primitive: it is at least the [ke] of every primitive of the cell whose
    [ke] exceeds [ke_cut]. It is never negative; it exceeds [ke_cut] when
    the dense cell has a shell, and when the dense cell has none it is 0, as
    is the radius of the dense cell. *)
Theorem split_cell_ke_cutoff_covers_steep
    (cutoff : Cell.t -> R -> list (list R) * list (list R))
    (cell cell_dense cell_sparse : Cell.t) (ke_cut ke : R) :
  _split_cell cutoff cell ke_cut = ok (cell_dense, cell_sparse, ke) ->
  0 <= ke /\
  (forall j kes k, (j < Cell.nbas cell)%nat ->
     nth_error (snd (cutoff cell (Cell.precision cell))) j = Some kes ->
     In k kes -> k > ke_cut -> k <= ke) /\
  (Cell._bas cell_dense <> [] -> ke > ke_cut) /\
  (Cell._bas cell_dense = [] -> ke = 0 /\ Cell.rcut cell_dense = 0).
Proof.
  intros H. apply split_cell_ok in H as (st & Hrun & -> & -> & ->).
  unfold SplitCell.run in Hrun.
  apply loop_ke_cutoff in Hrun as (Hmono & (d & Ed & Hde & Hdn) & Hub).
  simpl in *. subst d.
  split; [exact Hmono |]. split; [| split; assumption].
  intros j kes k Hj. apply Hub. fold (Cell.nbas cell). lia.
Qed.

Lemma split_cell_ke_cutoff_covers_steep_witness : 0 <= 50 /\ 50 > 10.
Proof.
  destruct (split_cell_ke_cutoff_covers_steep _ _ _ _ _ _ split_cell_example)
    as (H1 & _ & H3 & _).
  split; [exact H1 | apply H3; discriminate].
Defined.

Lemma count_nonzero_none {A : Type} (f : A -> bool) (l : list A) :
  (forall x, In x l -> f x = false) -> Np.count_nonzero (map f l) = 0%nat.
Proof.
  intros H. rewrite count_nonzero_map_filter.
  induction l as [| x l IH]; simpl; [reflexivity |].
  rewrite (H x) by (now left). apply IH. intros y Hy. apply H. now right.
Qed.

Lemma count_nonzero_all {A : Type} (f : A -> bool) (l : list A) :
  (forall x, In x l -> f x = true) -> Np.count_nonzero (map f l) = length l.
Proof.
  intros H. rewrite count_nonzero_map_filter.
  induction l as [| x l IH]; simpl; [reflexivity |].
  rewrite (H x) by (now left). simpl. f_equal. apply IH. intros y Hy. apply H. now right.
Qed.

Section SplitUniformFacts.

Variable cell : Cell.t.
Variable ke_cut : R.
Variable rcuts kecuts : list (list R).

Lemma loop_all_smooth (bas : list bas_row) (st : SplitCell.locals) (ib : nat) :
  (forall j, (ib <= j < ib + length bas)%nat ->
     exists ke, nth_error kecuts j = Some ke /\ forall k, In k ke -> k <= ke_cut) ->
  SplitCell.loop cell ke_cut rcuts kecuts st ib bas =
    ok (SplitCell.mk_locals (SplitCell.l_env st) (SplitCell.dense_bas st)
          (SplitCell.sparse_bas st ++ bas) (SplitCell.dense_bas_idx st)
          (SplitCell.sparse_bas_idx st ++ seq ib (length bas))
          (SplitCell.dense_cell_rcut st) (SplitCell.ke_cutoff st)).
Proof.
  revert st ib. induction bas as [| b rest IH]; intros st ib H.
  - simpl. rewrite !app_nil_r. now destruct st.
  - simpl SplitCell.loop.
    destruct (H ib) as (ke & Hke & Hsm); [simpl; lia |].
    unfold SplitCell.step at 1. unfold SplitCell.getitem. rewrite Hke. simpl bind.
    rewrite count_nonzero_none by (intros k Hk; apply Rgtb_false, Hsm, Hk).
    simpl. rewrite IH.
    + simpl. rewrite <- !app_assoc. reflexivity.
    + intros j Hj. apply H. simpl. lia.
Qed.

Lemma loop_all_steep (bas pre : list bas_row) (st : SplitCell.locals) :
  (forall j b, nth_error (pre ++ bas) j = Some b -> (length pre <= j)%nat ->
     exists ke rc, nth_error kecuts j = Some ke /\ nth_error rcuts j = Some rc /\
       length ke = NPRIM_OF b /\ ke <> [] /\ rc <> [] /\
       forall k, In k ke -> k > ke_cut) ->
  exists rc ke,
    SplitCell.loop cell ke_cut rcuts kecuts st (length pre) bas =
      ok (SplitCell.mk_locals (SplitCell.l_env st) (SplitCell.dense_bas st ++ bas)
            (SplitCell.sparse_bas st) (SplitCell.dense_bas_idx st ++ seq (length pre) (length bas))
            (SplitCell.sparse_bas_idx st) rc ke).
Proof.
  revert pre st. induction bas as [| b rest IH]; intros pre st H.
  - exists (SplitCell.dense_cell_rcut st), (SplitCell.ke_cutoff st).
    simpl. rewrite !app_nil_r. now destruct st.
  - simpl SplitCell.loop.
    destruct (H (length pre) b) as (ke & rc & Hke & Hrc & Hlen & Hne & Hrne & Hst);
      [rewrite nth_error_app2, Nat.sub_diag by lia; reflexivity | lia |].
    unfold SplitCell.step at 1. unfold SplitCell.getitem. rewrite Hke, Hrc. simpl bind.
    rewrite count_nonzero_all by (intros k Hk; apply Rgtb_true, Hst, Hk).
    rewrite Hlen, Nat.eqb_refl.
    replace (Nat.eqb (NPRIM_OF b) 0) with false
      by (symmetry; apply Nat.eqb_neq; rewrite <- Hlen; destruct ke; [congruence | discriminate]).
    destruct ke as [| k0 ke]; [congruence |].
    destruct rc as [| r0 rc]; [congruence |].
    simpl bind.
    set (st1 := SplitCell.mk_locals _ _ _ _ _ _ _).
    replace (S (length pre)) with (length (pre ++ [b])) by (rewrite length_app; simpl; lia).
    destruct (IH (pre ++ [b]) st1) as (rc' & ke' & E).
    + intros j b' Hb' Hj. rewrite <- app_assoc in Hb'. simpl in Hb'.
      apply (H j b' Hb'). rewrite length_app in Hj. simpl in Hj. lia.
    + exists rc', ke'. rewrite E. unfold st1. simpl.
      rewrite <- !app_assoc, length_app. simpl.
      replace (length pre + 1)%nat with (S (length pre)) by lia. reflexivity.
Qed.

End SplitUniformFacts.

(** X5. A cell none of whose primitives is steep is returned whole as the
    sparse cell: when [_primitive_gto_cutoff] gives a row of [ke] for every
    shell and no [ke] exceeds [ke_cut], [_split_cell] succeeds, the sparse
    cell has the shells of the cell in their order, the dense cell has no
    shell and radius 0, and the cutoff returned is 0. *)
Theorem split_cell_all_smooth
    (cutoff : Cell.t -> R -> list (list R) * list (list R))
    (cell : Cell.t) (ke_cut : R) :
  (forall j, (j < Cell.nbas cell)%nat ->
     exists ke, nth_error (snd (cutoff cell (Cell.precision cell))) j = Some ke /\
                forall k, In k ke -> k <= ke_cut) ->
  _split_cell cutoff cell ke_cut =
    ok (Cell.mk [] (Cell._env cell) [] 0 (Cell.precision cell) (Cell.omega cell)
          (Cell.dimension cell),
        Cell.mk (Cell._bas cell) (Cell._env cell) (seq 0 (Cell.nbas cell))
          (Cell.rcut cell) (Cell.precision cell) (Cell.omega cell) (Cell.dimension cell),
        0).
Proof.
  intros H. unfold _split_cell, SplitCell.run.
  destruct (cutoff cell (Cell.precision cell)) as [rcuts kecuts]. simpl in H.
  rewrite loop_all_smooth; [reflexivity |].
  intros j Hj. apply H. unfold Cell.nbas. lia.
Qed.

Lemma split_cell_all_smooth_witness :
  _split_cell Example._primitive_gto_cutoff Example.cell1 100 =
    ok (Cell.mk [] [2.1; 1; 0.1; 0.2] [] 0 1e-8 0 3,
        Cell.mk [Example.shell_steep; Example.shell_smooth] [2.1; 1; 0.1; 0.2]
          [0; 1]%nat 5 1e-8 0 3,
        0).
Proof.
  apply (split_cell_all_smooth Example._primitive_gto_cutoff Example.cell1 100).
  change (Cell.nbas Example.cell1) with 2%nat.
  intros [| [| j]] Hj; [| | lia]; simpl; eexists; (split; [reflexivity |]);
    intros k [<- | []]; lra.
Defined.

(** X6. A cell all of whose primitives are steep is returned whole as the
    dense cell: when every shell has a non-empty row of [rcuts] and a row of
    [ke] of the length of its primitive count, which is not zero, and every
    [ke] exceeds [ke_cut], [_split_cell] succeeds, the dense cell has the
    shells of the cell in their order and the sparse cell has none. *)
Theorem split_cell_all_steep
    (cutoff : Cell.t -> R -> list (list R) * list (list R))
    (cell : Cell.t) (ke_cut : R) :
  (forall j b, nth_error (Cell._bas cell) j = Some b ->
     exists ke rc,
       nth_error (snd (cutoff cell (Cell.precision cell))) j = Some ke /\
       nth_error (fst (cutoff cell (Cell.precision cell))) j = Some rc /\
       length ke = NPRIM_OF b /\ ke <> [] /\ rc <> [] /\
       forall k, In k ke -> k > ke_cut) ->
  exists rc ke,
    _split_cell cutoff cell ke_cut =
      ok (Cell.mk (Cell._bas cell) (Cell._env cell) (seq 0 (Cell.nbas cell)) rc
            (Cell.precision cell) (Cell.omega cell) (Cell.dimension cell),
          Cell.mk [] (Cell._env cell) [] (Cell.rcut cell) (Cell.precision cell)
            (Cell.omega cell) (Cell.dimension cell),
          ke).
Proof.
  intros H. unfold _split_cell, SplitCell.run.
  destruct (cutoff cell (Cell.precision cell)) as [rcuts kecuts]. simpl in H.
  destruct (loop_all_steep cell ke_cut rcuts kecuts (Cell._bas cell) []
              (SplitCell.mk_locals (Cell._env cell) [] [] [] [] 0 0)) as (rc & ke & E).
  - intros j b Hb _. apply (H j b Hb).
  - exists rc, ke. simpl in E. rewrite E. reflexivity.
Qed.

Lemma split_cell_all_steep_witness :
  exists rc ke,
    _split_cell Example._primitive_gto_cutoff Example.cell1 1 =
      ok (Cell.mk [Example.shell_steep; Example.shell_smooth] [2.1; 1; 0.1; 0.2]
            [0; 1]%nat rc 1e-8 0 3,
          Cell.mk [] [2.1; 1; 0.1; 0.2] [] 5 1e-8 0 3,
          ke).
Proof.
  apply (split_cell_all_steep Example._primitive_gto_cutoff Example.cell1 1).
  intros [| [| j]] b Hb; simpl in Hb; [| | destruct j; discriminate];
    injection Hb as <-; simpl; eexists _, _;
    (split; [reflexivity |]); (split; [reflexivity |]); (split; [reflexivity |]);
    (split; [discriminate |]); (split; [discriminate |]);
    intros k [<- | []]; lra.
Defined.

(** ** Supercell builder: the arrays attached to the supercell *)

Lemma Forall_repeat_ravel {A : Type} (P : A -> Prop) (a : list A) (n : nat) :
  Forall P a -> Forall P (repeat_ravel a n).
Proof.
  intros H. unfold repeat_ravel. induction n as [| n IH]; simpl; [constructor |].
  apply Forall_app. split; assumption.
Qed.

Lemma filter_length_mono {A : Type} (f g : A -> bool) (l : list A) :
  (forall x, In x l -> f x = true -> g x = true) ->
  (length (filter f l) <= length (filter g l))%nat.
Proof.
  induction l as [| x l IH]; intros H; simpl; [lia |].
  assert (IH' : (length (filter f l) <= length (filter g l))%nat).
  { apply IH. intros y Hy. apply H. now right. }
  destruct (f x) eqn:Ef.
  - rewrite (H x (or_introl eq_refl) Ef). simpl. lia.
  - destruct (g x); simpl; lia.
Qed.

Lemma make_extended_mole_inv
    (build_supcell : Cell.t -> list (list R) -> SupMol.t)
    (intor_ovlp : SupMol.t -> nat * nat * nat * nat -> list (list R))
    (cell : Cell.t) (Ls Ks : list (list R)) (precision : option R) (supmol : SupMol.t) :
  let LKs := map (fun L => map (fun K => vec_add L K) Ks) Ls in
  let supmol0 := build_supcell cell (concat LKs) in
  let mask := SupMol.bas_mask supmol in
  _make_extended_mole build_supcell intor_ovlp cell Ls Ks precision = ok supmol ->
  length mask = length (SupMol._bas supmol0) /\
  length mask = (length Ls * (length Ks * Cell.nbas cell))%nat /\
  SupMol._bas supmol = Np.select mask (SupMol._bas supmol0) /\
  SupMol.bvkcell_shl_id supmol =
    Np.select mask (repeat_ravel (seq 0 (length Ks * Cell.nbas cell)) (length Ls)) /\
  SupMol._atm supmol = SupMol._atm supmol0 /\
  SupMol._env supmol = SupMol._env supmol0 /\
  SupMol.omega supmol = SupMol.omega supmol0.
Proof.
  intros LKs supmol0 mask H. subst mask.
  unfold _make_extended_mole in H. fold LKs supmol0 in H.
  apply bind_ok in H as (s0max & _ & H).
  apply bind_ok in H as (bas & Hbas & H).
  apply bind_ok in H as (ids & Hids & H).
  injection H as <-. simpl.
  apply getitem_mask_ok in Hbas as [Hl1 ->].
  apply getitem_mask_ok in Hids as [Hl2 ->].
  rewrite length_repeat_ravel, length_seq in Hl2.
  repeat split; assumption.
Qed.

Section ExtendedMoleFacts.

Variable build_supcell : Cell.t -> list (list R) -> SupMol.t.
Variable intor_ovlp : SupMol.t -> nat * nat * nat * nat -> list (list R).

(** X7. The arrays that [_make_extended_mole] attaches to the supercell fit
    its shells. The mask has one flag per candidate shell, which are as
    many as images times BvK translations times shells of the cell; the
    supercell keeps as many shells as the mask has flags set, with one BvK
    shell id each; and every id is a shell index of the BvK cell, below the
    number of translations times the number of shells of the cell. The
    atoms and the storage array of the candidate supercell are kept. *)
Theorem make_extended_mole_shell_ids_fit (cell : Cell.t) (Ls Ks : list (list R))
    (precision : option R) (supmol : SupMol.t) :
  let LKs := map (fun L => map (fun K => vec_add L K) Ks) Ls in
  let supmol0 := build_supcell cell (concat LKs) in
  _make_extended_mole build_supcell intor_ovlp cell Ls Ks precision = ok supmol ->
  length (SupMol.bas_mask supmol) = SupMol.nbas supmol0 /\
  SupMol.nbas supmol0 = (length Ls * (length Ks * Cell.nbas cell))%nat /\
  SupMol.nbas supmol = Np.count_nonzero (SupMol.bas_mask supmol) /\
  length (SupMol.bvkcell_shl_id supmol) = SupMol.nbas supmol /\
  Forall (fun id => (id < length Ks * Cell.nbas cell)%nat) (SupMol.bvkcell_shl_id supmol) /\
  SupMol._atm supmol = SupMol._atm supmol0 /\
  SupMol._env supmol = SupMol._env supmol0.
Proof.
  intros LKs supmol0 H.
  apply make_extended_mole_inv in H as (Hl1 & Hl2 & Eb & Ei & Ea & Ee & _).
  fold LKs supmol0 in Hl1, Eb, Ea, Ee.
  unfold SupMol.nbas. rewrite Eb, Ei.
  rewrite !length_select by (rewrite ?length_repeat_ravel, ?length_seq; lia).
  repeat split; try assumption; try lia.
  apply select_Forall, Forall_repeat_ravel, Forall_forall.
  intros id Hid. apply in_seq in Hid. lia.
Qed.

(** X8. Screening is monotone in the threshold: when the call succeeds with
    a threshold, it succeeds with every smaller one, every shell that is
    kept with the larger threshold is kept with the smaller one, and the
    supercell of the smaller threshold has at least as many shells. *)
Theorem make_extended_mole_threshold_monotone (cell : Cell.t) (Ls Ks : list (list R))
    (p1 p2 : R) (supmol2 : SupMol.t) :
  p1 <= p2 ->
  _make_extended_mole build_supcell intor_ovlp cell Ls Ks (Some p2) = ok supmol2 ->
  exists supmol1,
    _make_extended_mole build_supcell intor_ovlp cell Ls Ks (Some p1) = ok supmol1 /\
    length (SupMol.bas_mask supmol1) = length (SupMol.bas_mask supmol2) /\
    (forall i, nth i (SupMol.bas_mask supmol2) false = true ->
               nth i (SupMol.bas_mask supmol1) false = true) /\
    (SupMol.nbas supmol2 <= SupMol.nbas supmol1)%nat.
Proof.
  intros Hp H. unfold _make_extended_mole in *.
  destruct (absmax_axis0 _) as [e | s0max]; [discriminate |]. simpl bind in *.
  apply bind_ok in H as (bas & Hbas & H).
  apply bind_ok in H as (ids & Hids & H).
  injection H as <-.
  apply getitem_mask_ok in Hbas as [Hl1 ->].
  apply getitem_mask_ok in Hids as [Hl2 ->].
  rewrite length_map in Hl1, Hl2.
  unfold Np.getitem_mask.
  rewrite (proj2 (Nat.eqb_eq _ _) (eq_trans (length_map _ s0max) Hl1)). simpl bind.
  rewrite (proj2 (Nat.eqb_eq _ _) (eq_trans (length_map _ s0max) Hl2)). simpl bind.
  eexists. split; [reflexivity |]. simpl. unfold SupMol.nbas. simpl.
  split; [now rewrite !length_map |]. split.
  - intros i Hi.
    destruct (Nat.lt_ge_cases i (length s0max)) as [Hlt | Hge].
    + rewrite (nth_map_in (fun x => Rgtb x p2) _ _ 0) in Hi by exact Hlt.
      rewrite (nth_map_in (fun x => Rgtb x p1) _ _ 0) by exact Hlt.
      apply Rgtb_spec in Hi. apply Rgtb_true. lra.
    + rewrite nth_overflow in Hi by (now rewrite length_map). discriminate.
  - rewrite !length_select by (now rewrite length_map).
    rewrite !count_nonzero_map_filter. apply filter_length_mono.
    intros x _ Hx. apply Rgtb_spec in Hx. apply Rgtb_true. lra.
Qed.

End ExtendedMoleFacts.

Lemma make_extended_mole_shell_ids_fit_witness :
  length [true; true; false; true] = 4%nat /\
  Forall (fun id => (id < 1 * 2)%nat) [0; 1; 1]%nat.
Proof.
  destruct (make_extended_mole_shell_ids_fit Example.build_supcell Example.intor_ovlp
              (Example.cell_add Example.cell1_dense Example.cell1_sparse)
              [[0; 0; 0]; [1.8; 0; 0]] [[0; 0; 0]] (Some (1e-8 * 1e-3))
              (SupMol.with_omega Example.supmol1 0) make_extended_mole_example)
    as (H1 & _ & _ & _ & H5 & _).
  split; [exact H1 | exact H5].
Defined.

Lemma make_extended_mole_threshold_monotone_witness :
  exists supmol1,
    _make_extended_mole Example.build_supcell Example.intor_ovlp
      (Example.cell_add Example.cell1_dense Example.cell1_sparse)
      [[0; 0; 0]; [1.8; 0; 0]] [[0; 0; 0]] (Some 1e-14) = ok supmol1 /\
    (3 <= SupMol.nbas supmol1)%nat.
Proof.
  assert (Hle : 1e-14 <= 1e-8 * 1e-3) by lra.
  destruct (make_extended_mole_threshold_monotone Example.build_supcell
              Example.intor_ovlp
              (Example.cell_add Example.cell1_dense Example.cell1_sparse)
              [[0; 0; 0]; [1.8; 0; 0]] [[0; 0; 0]] 1e-14 (1e-8 * 1e-3)
              (SupMol.with_omega Example.supmol1 0) Hle make_extended_mole_example)
    as (supmol1 & H1 & _ & _ & H4).
  exists supmol1. split; [exact H1 | exact H4].
Defined.

(** ** The builder: the overlap mask *)

Lemma make_ovlp_mask_shape (ovlp : list (list R)) (tol : R) (smooth : list bool)
    (m : list (list nat)) :
  RangeSeparationJKBuilder.make_ovlp_mask ovlp tol smooth = ok m ->
  length ovlp = length smooth /\
  Forall (fun row => length row = length smooth) ovlp /\
  length m = length smooth /\
  Forall (fun row => length row = length smooth) m.
Proof.
  unfold RangeSeparationJKBuilder.make_ovlp_mask.
  destruct (Nat.eqb (length ovlp) (length smooth)) eqn:E1; [| discriminate].
  destruct (forallb _ ovlp) eqn:E2; [| discriminate].
  simpl. intros H. injection H as <-.
  apply Nat.eqb_eq in E1. rewrite forallb_forall in E2.
  assert (Hrows : Forall (fun row => length row = length smooth) ovlp).
  { apply Forall_forall. intros row Hr. apply Nat.eqb_eq. now apply E2. }
  split; [exact E1 |]. split; [exact Hrows |]. split.
  - rewrite length_map, length_combine. lia.
  - apply Forall_forall. intros row Hr.
    apply in_map_iff in Hr as ([s r] & <- & Hin).
    apply in_combine_r in Hin. rewrite Forall_forall in Hrows.
    rewrite length_map, length_combine. simpl. rewrite (Hrows r Hin). lia.
Qed.

(** X9. The overlap mask of [build] has one row and one column per shell
    flag. Its entry for a pair of shells is 2 exactly when both shells are
    smooth, whatever their overlap; for every other pair it is 1 when the
    magnitude of the s-type overlap exceeds the tolerance and 0 when it does
    not. For a symmetric overlap matrix the mask is symmetric. *)
Theorem ovlp_mask_classes (ovlp : list (list R)) (tol : R) (smooth : list bool)
    (m : list (list nat)) :
  RangeSeparationJKBuilder.make_ovlp_mask ovlp tol smooth = ok m ->
  let n := length smooth in
  let S := fun i j => nth j (nth i ovlp []) 0 in
  let M := fun i j => nth j (nth i m []) 0%nat in
  length m = n /\ Forall (fun row => length row = n) m /\
  (forall i j, (i < n)%nat -> (j < n)%nat ->
     M i j = (if nth i smooth false && nth j smooth false then 2
              else if Rgtb (Rabs (S i j)) tol then 1 else 0)%nat) /\
  (forall i j, (i < n)%nat -> (j < n)%nat ->
     (M i j = 2%nat <-> nth i smooth false = true /\ nth j smooth false = true)) /\
  ((forall i j, (i < n)%nat -> (j < n)%nat -> S i j = S j i) ->
   forall i j, (i < n)%nat -> (j < n)%nat -> M i j = M j i).
Proof.
  intros H n S M.
  destruct (make_ovlp_mask_shape _ _ _ _ H) as (Hlo & Hrows & Hlm & Hmrows).
  fold n in Hlo, Hrows, Hlm, Hmrows.
  assert (Hent : forall i j, (i < n)%nat -> (j < n)%nat ->
            M i j = (if nth i smooth false && nth j smooth false then 2
                     else if Rgtb (Rabs (S i j)) tol then 1 else 0)%nat).
  { intros i j Hi Hj. unfold M, S.
    unfold RangeSeparationJKBuilder.make_ovlp_mask in H.
    destruct (_ && _); [| discriminate]. injection H as <-.
    rewrite (nth_map_in _ _ _ (false, []))
      by (rewrite length_combine; lia).
    rewrite combine_nth by lia. simpl.
    assert (Hr : length (nth i ovlp []) = n).
    { rewrite Forall_forall in Hrows. apply Hrows, nth_In. lia. }
    rewrite (nth_map_in _ _ _ (0, false))
      by (rewrite length_combine; fold n; lia).
    rewrite combine_nth by (fold n; lia). simpl.
    destruct (nth i smooth false), (nth j smooth false); reflexivity. }
  split; [exact Hlm |]. split; [exact Hmrows |]. split; [exact Hent |]. split.
  - intros i j Hi Hj. rewrite (Hent i j Hi Hj).
    destruct (nth i smooth false), (nth j smooth false); simpl;
      try (destruct (Rgtb _ _)); split; try tauto; try discriminate;
      intros [? ?]; discriminate.
  - intros Hsym i j Hi Hj. rewrite (Hent i j Hi Hj), (Hent j i Hj Hi), (Hsym i j Hi Hj).
    now rewrite andb_comm.
Qed.

Lemma make_ovlp_mask_example :
  RangeSeparationJKBuilder.make_ovlp_mask
    [[1; 0.3; 1e-5]; [0.3; 1; 1e-3]; [1e-5; 1e-3; 1]] 1e-4 [false; true; true]
  = ok [[1; 1; 0]; [1; 2; 2]; [0; 2; 2]]%nat.
Proof.
  unfold RangeSeparationJKBuilder.make_ovlp_mask. float_eval. reflexivity.
Qed.

Lemma ovlp_mask_classes_witness :
  (nth 2 (nth 1 [[1; 1; 0]; [1; 2; 2]; [0; 2; 2]] []) 0 = 2 <-> true = true /\ true = true)%nat.
Proof.
  destruct (ovlp_mask_classes _ _ _ _ make_ovlp_mask_example) as (_ & _ & _ & H & _).
  apply (H 1%nat 2%nat); simpl; lia.
Defined.

Lemma split_cell_idx_in_range
    (cutoff : Cell.t -> R -> list (list R) * list (list R))
    (cell cell_dense cell_sparse : Cell.t) (ke_cut ke : R) :
  _split_cell cutoff cell ke_cut = ok (cell_dense, cell_sparse, ke) ->
  Forall (fun b => (b < Cell.nbas cell)%nat)
    (Cell._bas_idx cell_dense ++ Cell._bas_idx cell_sparse).
Proof.
  intros H. apply split_cell_ok in H as (st & Hrun & -> & -> & _).
  unfold SplitCell.run in Hrun.
  apply loop_idx in Hrun as (di & si & Hd & Hs & _ & _ & _ & _ & Hin).
  simpl in *. rewrite Hd, Hs. apply Forall_forall. intros j Hj.
  apply in_app_iff in Hj. apply Hin in Hj. unfold Cell.nbas. lia.
Qed.

Lemma Forall_kbas_idx (bas_idx : list nat) (nkpts nb : nat) :
  Forall (fun b => (b < nb)%nat) bas_idx ->
  Forall (fun id => (id < nkpts * nb)%nat)
    (concat (map (fun k => map (fun b => (b + k * nb)%nat) bas_idx) (seq 0 nkpts))).
Proof.
  intros H. apply Forall_concat, Forall_map, Forall_forall.
  intros k Hk. apply in_seq in Hk. apply Forall_map.
  apply Forall_impl with (2 := H). intros b Hb. nia.
Qed.

(** ** The builder: what [build] leaves behind *)

Section BuildFacts.

Variable mesh_to_cutoff : Cell.t -> list nat -> list R.
Variable estimate_omega_for_ke_cutoff : Cell.t -> R -> R.
Variable estimate_ke_cutoff_for_omega : Cell.t -> R -> R.
Variable cutoff_to_mesh : Cell.t -> R -> list nat.
Variable estimate_eta_for_ke_cutoff : Cell.t -> R -> R -> R.
Variable kpts_to_kmesh : Cell.t -> list (list R) -> list nat.
Variable get_phase : Cell.t -> list (list R) -> list nat -> Cell.t * Shape.t.
Variable translation_vectors_for_kmesh : Cell.t -> list nat -> list (list R).
Variable get_lattice_Ls : Cell.t -> R -> list (list R).
Variable sort_by_norm : list (list R) -> list (list R).
Variable _primitive_gto_cutoff : Cell.t -> R -> list (list R) * list (list R).
Variable cell_add : Cell.t -> Cell.t -> Cell.t.
Variable build_supcell : Cell.t -> list (list R) -> SupMol.t.
Variable intor_ovlp : SupMol.t -> nat * nat * nat * nat -> list (list R).
Variable intor_symmetric_ovlp : SupMol.t -> list (list R).

Local Abbreviation select_omega :=
  (RangeSeparationJKBuilder.select_omega mesh_to_cutoff estimate_omega_for_ke_cutoff
     estimate_ke_cutoff_for_omega cutoff_to_mesh).

Local Abbreviation build :=
  (RangeSeparationJKBuilder.build mesh_to_cutoff estimate_omega_for_ke_cutoff
     estimate_ke_cutoff_for_omega cutoff_to_mesh estimate_eta_for_ke_cutoff
     kpts_to_kmesh get_phase translation_vectors_for_kmesh get_lattice_Ls sort_by_norm
     _primitive_gto_cutoff cell_add build_supcell intor_ovlp intor_symmetric_ovlp).

(** A successful [build], step by step. *)
Lemma build_inv (self self' : RangeSeparationJKBuilder.t)
    (omega_arg direct_scf_tol : option R) :
  build self omega_arg direct_scf_tol = ok self' ->
  let cell := RangeSeparationJKBuilder.cell self in
  let kpts := RangeSeparationJKBuilder.kpts self in
  let tol :=
    match direct_scf_tol with
    | None => Cell.precision cell * 1e-3
    | Some tol => tol
    end in
  let kmesh := kpts_to_kmesh cell kpts in
  let bvkcell := fst (get_phase cell kpts kmesh) in
  let phase := snd (get_phase cell kpts kmesh) in
  let Ks := translation_vectors_for_kmesh cell kmesh in
  exists omega ke mesh cell_dense cell_sparse ke' supmol shl_id smooth ovlp,
    let eta := estimate_eta_for_ke_cutoff cell ke tol in
    let Ls :=
      sort_by_norm
        (get_lattice_Ls bvkcell (Cell.rcut cell + build_rcut_sr tol omega eta)) in
    let cell_merged := cell_add cell_dense cell_sparse in
    let supmol' := SupMol.with_omega supmol (- omega) in
    select_omega self omega_arg = ok (omega, ke, mesh) /\
    _split_cell _primitive_gto_cutoff cell ke = ok (cell_dense, cell_sparse, ke') /\
    _make_extended_mole build_supcell intor_ovlp cell_merged Ls Ks (Some tol)
      = ok supmol /\
    build_bvkcell_shl_id (SupMol.bas_mask supmol) (length kpts) (length Ls)
      (Cell.nbas cell) cell_dense cell_sparse = ok shl_id /\
    build_smooth_mask (SupMol.bas_mask supmol) (length kpts) (length Ls) cell_dense
      cell_merged = ok smooth /\
    RangeSeparationJKBuilder.make_ovlp_mask
      (intor_symmetric_ovlp (SupMol.only_s supmol')) tol smooth = ok ovlp /\
    self' =
      RangeSeparationJKBuilder.mk cell (RangeSeparationJKBuilder.stdout self)
        (RangeSeparationJKBuilder.verbose self)
        (RangeSeparationJKBuilder.max_memory self) (Some mesh) kpts (Some omega)
        (Some cell_dense) (Some cell_sparse) (Some bvkcell) (Some Ks) (Some phase)
        (Some supmol') (RangeSeparationJKBuilder.supmol_dense self)
        (RangeSeparationJKBuilder.supmol_sparse self) (Some shl_id) (Some ovlp)
        (Some (AFTDF.mk cell kpts (Some omega) mesh (Some ke)))
        (if Nat.ltb 0 (Cell.nbas cell_sparse)
         then Some (AFTDF.mk cell_sparse kpts (Some omega) mesh (Some ke))
         else RangeSeparationJKBuilder.sr_aft self)
        (Some ke) (Some (VHFOpt.mk supmol' (tol ^ 2) tol))
        (RangeSeparationJKBuilder.blockdim self) (RangeSeparationJKBuilder._keys self)
        (Some Ls).
Proof.
  intros H cell kpts tol kmesh bvkcell phase Ks.
  unfold RangeSeparationJKBuilder.build in H.
  fold cell kpts tol kmesh Ks in H.
  apply bind_ok in H as ([[omega ke] mesh] & Hsel & H).
  subst bvkcell phase.
  destruct (get_phase cell kpts kmesh) as [bvkcell phase]. simpl fst. simpl snd.
  apply bind_ok in H as ([[cell_dense cell_sparse] ke'] & Hsplit & H).
  apply bind_ok in H as (supmol & Hsup & H).
  apply bind_ok in H as (shl_id & Hid & H).
  apply bind_ok in H as (smooth & Hsm & H).
  apply bind_ok in H as (ovlp & Hov & H).
  injection H as <-.
  exists omega, ke, mesh, cell_dense, cell_sparse, ke', supmol, shl_id, smooth, ovlp.
  cbv zeta. repeat split; assumption.
Qed.

(** X10. After a successful [build] the per-shell arrays of the builder fit
    the supercell: there is one BvK shell id per shell of the supercell, every
    id is below the number of k-points times the number of shells of the
    cell, and the overlap mask has one row and one column per shell of the
    supercell. *)
Theorem build_shell_ids_fit (self self' : RangeSeparationJKBuilder.t)
    (omega_arg direct_scf_tol : option R) :
  build self omega_arg direct_scf_tol = ok self' ->
  exists supmol shl_id mask,
    RangeSeparationJKBuilder.supmol self' = Some supmol /\
    RangeSeparationJKBuilder.bvkcell_shl_id self' = Some shl_id /\
    RangeSeparationJKBuilder.ovlp_mask self' = Some mask /\
    length shl_id = SupMol.nbas supmol /\
    Forall (fun id => (id < length (RangeSeparationJKBuilder.kpts self) *
                            Cell.nbas (RangeSeparationJKBuilder.cell self))%nat) shl_id /\
    length mask = SupMol.nbas supmol /\
    Forall (fun row => length row = SupMol.nbas supmol) mask.
Proof.
  intros H. apply build_inv in H. cbv zeta in H.
  destruct H as (omega & ke & mesh & cd & cs & ke' & supmol & shl_id & smooth & ovlp &
                 _ & Hsplit & Hsup & Hid & Hsm & Hov & ->).
  simpl. eexists _, _, _. do 3 (split; [reflexivity |]).
  apply make_extended_mole_inv in Hsup as (Hl1 & _ & Eb & _).
  unfold build_bvkcell_shl_id in Hid. apply getitem_mask_ok in Hid as [Hl2 ->].
  unfold build_smooth_mask in Hsm. apply getitem_mask_ok in Hsm as [Hl3 ->].
  apply make_ovlp_mask_shape in Hov as (_ & _ & Hlm & Hrows).
  rewrite length_select in Hlm, Hrows by exact Hl3.
  unfold SupMol.nbas. simpl. rewrite Eb.
  rewrite (length_select _ (SupMol._bas _)) by exact Hl1.
  rewrite length_select by exact Hl2.
  repeat split; try assumption.
  apply select_Forall, Forall_repeat_ravel, Forall_kbas_idx.
  eapply split_cell_idx_in_range. exact Hsplit.
Qed.

(** X11. After a successful [build] the builder, its two kernel objects, the
    supercell and the screening object agree on their parameters: the
    long-range kernel is made for the cell and the k-points of the builder
    with the omega, mesh and cutoff the builder records; the supercell
    carries minus that omega; the screening object holds that supercell, the
    tolerance and its square; and when the smooth cell has a shell, the
    short-range-complement kernel is made for the smooth cell with the same
    k-points, omega, mesh and cutoff. *)
Theorem build_kernels_share_parameters (self self' : RangeSeparationJKBuilder.t)
    (omega_arg direct_scf_tol : option R) :
  build self omega_arg direct_scf_tol = ok self' ->
  let tol :=
    match direct_scf_tol with
    | None => Cell.precision (RangeSeparationJKBuilder.cell self) * 1e-3
    | Some tol => tol
    end in
  exists omega mesh ke supmol cell_sparse,
    RangeSeparationJKBuilder.omega self' = Some omega /\
    RangeSeparationJKBuilder.mesh self' = Some mesh /\
    RangeSeparationJKBuilder.ke_cutoff self' = Some ke /\
    RangeSeparationJKBuilder.supmol self' = Some supmol /\
    RangeSeparationJKBuilder.cell_sparse self' = Some cell_sparse /\
    RangeSeparationJKBuilder.lr_aft self' =
      Some (AFTDF.mk (RangeSeparationJKBuilder.cell self)
              (RangeSeparationJKBuilder.kpts self) (Some omega) mesh (Some ke)) /\
    SupMol.omega supmol = - omega /\
    RangeSeparationJKBuilder.vhfopt self' = Some (VHFOpt.mk supmol (tol ^ 2) tol) /\
    ((0 < Cell.nbas cell_sparse)%nat ->
     RangeSeparationJKBuilder.sr_aft self' =
       Some (AFTDF.mk cell_sparse (RangeSeparationJKBuilder.kpts self) (Some omega) mesh
               (Some ke))).
Proof.
  intros H tol. apply build_inv in H. cbv zeta in H.
  destruct H as (omega & ke & mesh & cd & cs & ke' & supmol & shl_id & smooth & ovlp &
                 _ & _ & _ & _ & _ & _ & ->).
  simpl. eexists _, _, _, _, _. do 5 (split; [reflexivity |]).
  repeat split.
  intros Hpos. apply Nat.ltb_lt in Hpos. rewrite Hpos. reflexivity.
Qed.

(** X12. When the smooth cell that [build] finds has no shell, [build] does
    not assign the short-range-complement kernel: the attribute keeps the
    value it had before the call, None on a new builder and otherwise the
    kernel object of an earlier build. *)
Theorem build_keeps_sr_aft_without_smooth_shells (self self' : RangeSeparationJKBuilder.t)
    (omega_arg direct_scf_tol : option R) (cell_sparse : Cell.t) :
  build self omega_arg direct_scf_tol = ok self' ->
  RangeSeparationJKBuilder.cell_sparse self' = Some cell_sparse ->
  Cell.nbas cell_sparse = 0%nat ->
  RangeSeparationJKBuilder.sr_aft self' = RangeSeparationJKBuilder.sr_aft self.
Proof.
  intros H Hcs Hn. apply build_inv in H. cbv zeta in H.
  destruct H as (omega & ke & mesh & cd & cs & ke' & supmol & shl_id & smooth & ovlp &
                 _ & _ & _ & _ & _ & _ & ->).
  simpl in *. injection Hcs as ->. rewrite Hn. reflexivity.
Qed.

Lemma select_omega_given (self : RangeSeparationJKBuilder.t) (omega_arg : option R)
    (w : R) :
  match omega_arg with
  | Some w' => Some w'
  | None => RangeSeparationJKBuilder.omega self
  end = Some w ->
  select_omega self omega_arg =
    ok (w, estimate_ke_cutoff_for_omega (RangeSeparationJKBuilder.cell self) w,
        cutoff_to_mesh (RangeSeparationJKBuilder.cell self)
          (estimate_ke_cutoff_for_omega (RangeSeparationJKBuilder.cell self) w)).
Proof.
  unfold RangeSeparationJKBuilder.select_omega. intros ->. reflexivity.
Qed.


(** X14. With neither an omega nor a mesh to start from, that is with the
    omega attribute set to None, no omega argument and the mesh attribute
    still None, [build] raises TypeError. *)
Theorem build_without_omega_and_mesh (self : RangeSeparationJKBuilder.t)
    (direct_scf_tol : option R) :
  RangeSeparationJKBuilder.omega self = None ->
  RangeSeparationJKBuilder.mesh self = None ->
  build self None direct_scf_tol = raise TypeError.
Proof.
  intros Ho Hm.
  unfold RangeSeparationJKBuilder.build, RangeSeparationJKBuilder.select_omega.
  rewrite Ho, Hm. reflexivity.
Qed.

(** X15. [build] is idempotent once omega is known: after a successful
    [build] that was given an omega or found one in the attribute, a second
    [build] with the same tolerance, with the same omega argument or with
    none, succeeds and leaves the builder as the first one left it. *)
Theorem build_idempotent (self self' : RangeSeparationJKBuilder.t)
    (omega_arg direct_scf_tol : option R) :
  build self omega_arg direct_scf_tol = ok self' ->
  omega_arg <> None \/ RangeSeparationJKBuilder.omega self <> None ->
  build self' None direct_scf_tol = ok self' /\
  build self' omega_arg direct_scf_tol = ok self'.
Proof.
  intros H Hom.
  assert (Hw : exists w, match omega_arg with
                         | Some w' => Some w'
                         | None => RangeSeparationJKBuilder.omega self
                         end = Some w).
  { destruct omega_arg as [w |]; [now exists w |].
    destruct (RangeSeparationJKBuilder.omega self) as [w |]; [now exists w |].
    destruct Hom; congruence. }
  destruct Hw as (w & Hw).
  apply build_inv in H. cbv zeta in H.
  destruct H as (omega & ke & mesh & cd & cs & ke' & supmol & shl_id & smooth & ovlp &
                 Hsel & Hsplit & Hsup & Hid & Hsm & Hov & E).
  rewrite (select_omega_given self omega_arg w Hw) in Hsel.
  injection Hsel as <- <- <-.
  set (cell := RangeSeparationJKBuilder.cell self) in *.
  set (kpts := RangeSeparationJKBuilder.kpts self) in *.
  subst self'.
  set (self' := RangeSeparationJKBuilder.mk _ _ _ _ _ _ _ _ _ _ _ _ _ _ _ _ _ _ _ _ _ _ _ _).
  assert (Hgo : forall o,
            match o with
            | Some w' => Some w'
            | None => RangeSeparationJKBuilder.omega self'
            end = Some w ->
            build self' o direct_scf_tol = ok self').
  { intros o Ho. unfold RangeSeparationJKBuilder.build.
    rewrite (select_omega_given self' o w Ho).
    subst self'.
    cbn [RangeSeparationJKBuilder.cell RangeSeparationJKBuilder.kpts
         RangeSeparationJKBuilder.stdout RangeSeparationJKBuilder.verbose
         RangeSeparationJKBuilder.max_memory RangeSeparationJKBuilder.supmol_dense
         RangeSeparationJKBuilder.supmol_sparse RangeSeparationJKBuilder.sr_aft
         RangeSeparationJKBuilder.blockdim RangeSeparationJKBuilder._keys bind ok].
    destruct (get_phase cell kpts (kpts_to_kmesh cell kpts)) as [bvkcell phase] eqn:Eph.
    simpl fst in *. simpl snd in *.
    rewrite Hsplit. cbn [bind ok]. rewrite Hsup. cbn [bind ok].
    rewrite Hid. cbn [bind ok]. rewrite Hsm. cbn [bind ok]. rewrite Hov. cbn [bind ok].
    destruct (Nat.ltb 0 (Cell.nbas cs)); reflexivity. }
  split; apply Hgo.
  - reflexivity.
  - destruct omega_arg as [w' |]; [exact Hw | reflexivity].
Qed.

End BuildFacts.

(** *** [build] on the concrete builder *)

Lemma build_shell_ids_fit_witness :
  length [0; 1; 1]%nat = 3%nat /\ Forall (fun id => (id < 1 * 2)%nat) [0; 1; 1]%nat.
Proof.
  destruct (build_shell_ids_fit Example.mesh_to_cutoff
              Example.estimate_omega_for_ke_cutoff Example.estimate_ke_cutoff_for_omega
              Example.cutoff_to_mesh Example.estimate_eta_for_ke_cutoff
              Example.kpts_to_kmesh Example.get_phase
              Example.translation_vectors_for_kmesh Example.get_lattice_Ls
              Example.sort_by_norm Example._primitive_gto_cutoff Example.cell_add
              Example.build_supcell Example.intor_ovlp Example.intor_symmetric_ovlp
              Example.builder0 Example.built0 None None build_example)
    as (supmol & shl_id & mask & Hs & Hi & _ & Hl & Hr & _).
  injection Hs as <-. injection Hi as <-. split; [exact Hl | exact Hr].
Defined.

Lemma build_kernels_share_parameters_witness :
  RangeSeparationJKBuilder.lr_aft Example.built0 =
    Some (AFTDF.mk Example.cell1 [[0; 0; 0]] (Some 0.5) [5; 5; 5]%nat (Some 10)) /\
  SupMol.omega Example.supmol1 = - (0.5).
Proof.
  destruct (build_kernels_share_parameters Example.mesh_to_cutoff
              Example.estimate_omega_for_ke_cutoff Example.estimate_ke_cutoff_for_omega
              Example.cutoff_to_mesh Example.estimate_eta_for_ke_cutoff
              Example.kpts_to_kmesh Example.get_phase
              Example.translation_vectors_for_kmesh Example.get_lattice_Ls
              Example.sort_by_norm Example._primitive_gto_cutoff Example.cell_add
              Example.build_supcell Example.intor_ovlp Example.intor_symmetric_ovlp
              Example.builder0 Example.built0 None None build_example)
    as (omega & mesh & ke & supmol & cs & Ho & Hm & Hk & Hs & _ & Hlr & Hso & _).
  injection Ho as <-. injection Hm as <-. injection Hk as <-. injection Hs as <-.
  split; [exact Hlr | exact Hso].
Defined.

(** The built example builder, reset and built again with a cutoff estimate
    that finds no smooth shell: the smooth cell is empty. *)
Lemma build_steep_example :
  exists self',
    Example.build_steep (RangeSeparationJKBuilder.reset Example.built0 None) None None
      = ok self' /\
    RangeSeparationJKBuilder.cell_sparse self' =
      Some (Cell.mk [] [2.1; 1; 0.1; 0.2] [] 5 1e-8 0 3).
Proof.
  eexists. split.
  - unfold Example.build_steep, Example.cutoff_steep. unfold_example.
    unfold RangeSeparationJKBuilder.build, RangeSeparationJKBuilder.select_omega.
    float_eval. unfold_split. float_eval.
    unfold _make_extended_mole, absmax_axis0, Np.getitem_mask. float_eval.
    unfold RangeSeparationJKBuilder.make_ovlp_mask. float_eval.
    reflexivity.
  - reflexivity.
Qed.

(** The kernel object of the first build, made for the smooth shell of the
    cell, is still there after the second one. *)
Lemma build_keeps_sr_aft_without_smooth_shells_witness :
  exists self',
    Example.build_steep (RangeSeparationJKBuilder.reset Example.built0 None) None None
      = ok self' /\
    RangeSeparationJKBuilder.sr_aft self' =
      Some (AFTDF.mk Example.cell1_sparse [[0; 0; 0]] (Some 0.5) [5; 5; 5]%nat (Some 10)).
Proof.
  destruct build_steep_example as (self' & Hb & Hcs).
  exists self'. split; [exact Hb |].
  exact (build_keeps_sr_aft_without_smooth_shells Example.mesh_to_cutoff
           Example.estimate_omega_for_ke_cutoff Example.estimate_ke_cutoff_for_omega
           Example.cutoff_to_mesh Example.estimate_eta_for_ke_cutoff
           Example.kpts_to_kmesh Example.get_phase
           Example.translation_vectors_for_kmesh Example.get_lattice_Ls
           Example.sort_by_norm Example.cutoff_steep Example.cell_add
           Example.build_supcell Example.intor_ovlp Example.intor_symmetric_ovlp
           (RangeSeparationJKBuilder.reset Example.built0 None) self' None None
           (Cell.mk [] [2.1; 1; 0.1; 0.2] [] 5 1e-8 0 3) Hb Hcs eq_refl).
Defined.


Lemma build_without_omega_and_mesh_witness :
  Example.build Example.builder_auto None None = raise TypeError.
Proof.
  exact (build_without_omega_and_mesh Example.mesh_to_cutoff
           Example.estimate_omega_for_ke_cutoff Example.estimate_ke_cutoff_for_omega
           Example.cutoff_to_mesh Example.estimate_eta_for_ke_cutoff
           Example.kpts_to_kmesh Example.get_phase
           Example.translation_vectors_for_kmesh Example.get_lattice_Ls
           Example.sort_by_norm Example._primitive_gto_cutoff Example.cell_add
           Example.build_supcell Example.intor_ovlp Example.intor_symmetric_ovlp
           Example.builder_auto None eq_refl eq_refl).
Defined.

Lemma build_idempotent_witness :
  Example.build Example.built0 None None = ok Example.built0.
Proof.
  destruct (build_idempotent Example.mesh_to_cutoff
              Example.estimate_omega_for_ke_cutoff Example.estimate_ke_cutoff_for_omega
              Example.cutoff_to_mesh Example.estimate_eta_for_ke_cutoff
              Example.kpts_to_kmesh Example.get_phase
              Example.translation_vectors_for_kmesh Example.get_lattice_Ls
              Example.sort_by_norm Example._primitive_gto_cutoff Example.cell_add
              Example.build_supcell Example.intor_ovlp Example.intor_symmetric_ovlp
              Example.builder0 Example.built0 None None build_example)
    as [H _].
  - right. discriminate.
  - exact H.
Defined.

(** ** Reciprocal-space kernels: what the G=0 step leaves alone *)

Lemma nth_gamma_idx_false (Gv : list (list R)) (i : nat) (g : list R) :
  nth_error Gv i = Some g -> Np.all_zero g = false ->
  nth i (map Np.all_zero Gv) false = false.
Proof.
  intros Hg Hz. now rewrite (nth_gamma_idx Gv i g Hg).
Qed.

Lemma length_iadd_where (a : list R) (mask : list bool) (c : R) :
  length (Np.iadd_where a mask c) = length a.
Proof.
  revert mask. induction a as [| x a IH]; intros [| m mask]; simpl; try reflexivity.
  now rewrite IH.
Qed.

Lemma length_imul (a : list R) (kws : Np.weights) (out : list R) :
  Np.imul a kws = ok out -> length out = length a.
Proof.
  destruct kws as [w | ws]; simpl.
  - intros H. injection H as <-. apply length_map.
  - destruct ws as [| w [| w' ws]].
    + destruct (Nat.eqb _ _) eqn:E; [| discriminate].
      intros H. injection H as <-. apply Nat.eqb_eq in E.
      rewrite length_map, length_combine. simpl in *. lia.
    + intros H. injection H as <-. apply length_map.
    + destruct (Nat.eqb _ _) eqn:E; [| discriminate].
      intros H. injection H as <-. apply Nat.eqb_eq in E.
      rewrite length_map, length_combine. lia.
Qed.

Section KernelFrameFacts.

Variable get_Gv_weights :
  Cell.t -> list nat -> list (list R) * list (list R) * Np.weights.
Variable get_coulG :
  Cell.t -> list R -> exx_arg -> AFTDF.t -> list nat -> list (list R) ->
  option R -> list R.
Variable gamma_point : list R -> bool.

Lemma lr_adjust_G0_frame (self : AFTDF.t) (kpt : list R) (exx : exx_arg)
    (Gv : list (list R)) (coulG adj : list R) :
  LongRangeAFT.adjust_G0 gamma_point self kpt exx Gv coulG = ok adj ->
  length adj = length coulG /\
  forall i g, nth_error Gv i = Some g -> Np.all_zero g = false ->
    nth i adj 0 = nth i coulG 0.
Proof.
  unfold LongRangeAFT.adjust_G0. intros H.
  destruct (py_not exx || eq_ewald exx); [destruct (gamma_point kpt) |];
    try (injection H as <-; split; reflexivity).
  apply bind_ok in H as (sel & Hsel & H). apply bind_ok in H as (c & _ & H).
  injection H as <-. apply getitem_mask_ok in Hsel as [Hlen _].
  split; [apply length_isub_where |].
  intros i g Hg Hz. rewrite nth_isub_where.
  - now rewrite (nth_gamma_idx_false Gv i g Hg Hz).
  - rewrite <- Hlen, length_map. apply nth_error_Some. rewrite Hg. discriminate.
Qed.

Lemma sr_adjust_G0_frame (self : AFTDF.t) (kpt : list R) (exx : exx_arg)
    (Gv : list (list R)) (coulG adj : list R) :
  ShortRangeAFT.adjust_G0 gamma_point self kpt exx Gv coulG = ok adj ->
  length adj = length coulG /\
  forall i g, nth_error Gv i = Some g -> Np.all_zero g = false ->
    nth i adj 0 = nth i coulG 0.
Proof.
  unfold ShortRangeAFT.adjust_G0. intros H.
  destruct (py_not exx || eq_ewald exx); [destruct (gamma_point kpt) |];
    try (injection H as <-; split; reflexivity).
  apply bind_ok in H as (sel & Hsel & H). apply bind_ok in H as (c & _ & H).
  injection H as <-. apply getitem_mask_ok in Hsel as [Hlen _].
  split; [apply length_iadd_where |].
  intros i g Hg Hz. rewrite nth_iadd_where.
  - now rewrite (nth_gamma_idx_false Gv i g Hg Hz).
  - rewrite <- Hlen, length_map. apply nth_error_Some. rewrite Hg. discriminate.
Qed.

(** X19. Away from G=0 the two kernels only apply the weights: in a
    successful call, whatever the k-point and exx are, the output has one
    entry per entry of the Coulomb kernel, and the entry of every plane wave
    that is not the zero vector is the Coulomb kernel entry times its
    weight. *)
Theorem kernels_only_weight_nonzero_plane_waves (self : AFTDF.t) (kpt : list R)
    (exx : exx_arg) (mesh : option (list nat)) (w : R) :
  let m := match mesh with None => AFTDF.mesh self | Some m => m end in
  let Gv := fst (fst (get_Gv_weights (AFTDF.cell self) m)) in
  let kws := snd (get_Gv_weights (AFTDF.cell self) m) in
  let coulG_lr := get_coulG (AFTDF.cell self) kpt exx self m Gv (AFTDF.omega self) in
  let coulG_sr := get_coulG (AFTDF.cell self) kpt ExxNone self m Gv (Some (- w)) in
  AFTDF.omega self = Some w ->
  (forall out,
     LongRangeAFT.weighted_coulG get_Gv_weights get_coulG gamma_point self kpt exx mesh
       = ok out ->
     length out = length coulG_lr /\
     forall i g, nth_error Gv i = Some g -> Np.all_zero g = false ->
       nth i out 0 = nth i coulG_lr 0 * Np.weight_at kws i) /\
  (forall out,
     ShortRangeAFT.weighted_coulG get_Gv_weights get_coulG gamma_point self kpt exx mesh
       = ok out ->
     length out = length coulG_sr /\
     forall i g, nth_error Gv i = Some g -> Np.all_zero g = false ->
       nth i out 0 = nth i coulG_sr 0 * Np.weight_at kws i).
Proof.
  intros m Gv kws coulG_lr coulG_sr Hw. split; intros out H.
  - apply lr_weighted_coulG_ok in H as (_ & adj & Hadj & Hmul).
    fold m Gv kws coulG_lr in Hadj, Hmul.
    apply lr_adjust_G0_frame in Hadj as [Hlen Hfr].
    split; [rewrite (length_imul _ _ _ Hmul); exact Hlen |].
    intros i g Hg Hz. rewrite (imul_nth _ _ _ i Hmul), (Hfr i g Hg Hz). reflexivity.
  - apply sr_weighted_coulG_ok in H as (_ & w' & adj & Hw' & Hadj & Hmul).
    rewrite Hw in Hw'. injection Hw' as <-.
    fold m Gv kws coulG_sr in Hadj, Hmul.
    apply sr_adjust_G0_frame in Hadj as [Hlen Hfr].
    split; [rewrite (length_imul _ _ _ Hmul); exact Hlen |].
    intros i g Hg Hz. rewrite (imul_nth _ _ _ i Hmul), (Hfr i g Hg Hz). reflexivity.
Qed.

(** X20. The short-range-complement kernel uses exx only to decide whether
    the G=0 entry is changed: the Coulomb kernel is always requested without
    an exchange treatment, so two values of exx of which both, or neither,
    are false, None or 'ewald' give the same kernel. *)
Theorem sr_kernel_uses_exx_only_for_G0 (self : AFTDF.t) (kpt : list R)
    (exx1 exx2 : exx_arg) (mesh : option (list nat)) :
  py_not exx1 || eq_ewald exx1 = py_not exx2 || eq_ewald exx2 ->
  ShortRangeAFT.weighted_coulG get_Gv_weights get_coulG gamma_point self kpt exx1 mesh =
  ShortRangeAFT.weighted_coulG get_Gv_weights get_coulG gamma_point self kpt exx2 mesh.
Proof.
  intros H. unfold ShortRangeAFT.weighted_coulG.
  destruct (negb _); [reflexivity |].
  destruct (get_Gv_weights _ _) as [[Gv Gvbase] kws].
  destruct (ShortRangeAFT.neg_omega self) as [e | momega]; [reflexivity |].
  simpl bind. unfold ShortRangeAFT.adjust_G0. rewrite H. reflexivity.
Qed.

(** X21. A kernel object without omega, which is what the constructors give
    by default. The short-range-complement kernel cannot be evaluated: it
    raises TypeError for every k-point and exx. The long-range kernel
    raises TypeError when the G=0 step applies, and otherwise returns the
    Coulomb kernel that [get_coulG] gives for omega = None, weighted. *)
Theorem kernels_without_omega (self : AFTDF.t) (kpt : list R) (exx : exx_arg)
    (mesh : option (list nat)) :
  let m := match mesh with None => AFTDF.mesh self | Some m => m end in
  let Gv := fst (fst (get_Gv_weights (AFTDF.cell self) m)) in
  let kws := snd (get_Gv_weights (AFTDF.cell self) m) in
  let coulG := get_coulG (AFTDF.cell self) kpt exx self m Gv None in
  Cell.omega (AFTDF.cell self) = 0 ->
  AFTDF.omega self = None ->
  ShortRangeAFT.weighted_coulG get_Gv_weights get_coulG gamma_point self kpt exx mesh
    = raise TypeError /\
  ((py_not exx || eq_ewald exx) && gamma_point kpt = true ->
   length Gv = length coulG ->
   LongRangeAFT.weighted_coulG get_Gv_weights get_coulG gamma_point self kpt exx mesh
     = raise TypeError) /\
  ((py_not exx || eq_ewald exx) && gamma_point kpt = false ->
   LongRangeAFT.weighted_coulG get_Gv_weights get_coulG gamma_point self kpt exx mesh
     = Np.imul coulG kws).
Proof.
  intros m Gv kws coulG Hc Ho.
  unfold ShortRangeAFT.weighted_coulG, LongRangeAFT.weighted_coulG,
    ShortRangeAFT.neg_omega, LongRangeAFT.adjust_G0.
  rewrite (Reqb_true _ _ Hc), Ho. simpl negb. cbv iota.
  subst coulG kws Gv. fold m.
  destruct (get_Gv_weights (AFTDF.cell self) m) as [[Gv Gvbase] kws]. simpl.
  split; [reflexivity |]. split.
  - intros Hg Hlen. apply andb_true_iff in Hg as [-> ->].
    unfold Np.getitem_mask. rewrite length_map, Hlen, Nat.eqb_refl. reflexivity.
  - intros Hg. apply andb_false_iff in Hg as [-> | Hg]; [reflexivity |].
    rewrite Hg. destruct (py_not exx || eq_ewald exx); reflexivity.
Qed.

End KernelFrameFacts.

Lemma kernels_only_weight_nonzero_plane_waves_witness :
  nth 1 [(0 - PI / 1 ^ 2) * (1 / 2); 4 * PI * (1 / 2)] 0 = 4 * PI * (1 / 2).
Proof.
  destruct (kernels_only_weight_nonzero_plane_waves Example.get_Gv_weights
              Example.get_coulG Example.gamma_point Example.aft0 [0; 0; 0] ExxNone None 1
              eq_refl) as [Hlr _].
  destruct (Hlr _ (lr_example ExxNone)) as [_ H].
  apply (H 1%nat [1; 0; 0]); [reflexivity |].
  unfold Np.all_zero. simpl. float_cmp. reflexivity.
Defined.

Lemma sr_kernel_uses_exx_only_for_G0_witness :
  ShortRangeAFT.weighted_coulG Example.get_Gv_weights Example.get_coulG
    Example.gamma_point Example.aft0 [0; 0; 0] (ExxStr "vcut_sph") None =
  ShortRangeAFT.weighted_coulG Example.get_Gv_weights Example.get_coulG
    Example.gamma_point Example.aft0 [0; 0; 0] (ExxBool true) None.
Proof.
  apply (sr_kernel_uses_exx_only_for_G0 Example.get_Gv_weights Example.get_coulG
           Example.gamma_point Example.aft0 [0; 0; 0] (ExxStr "vcut_sph") (ExxBool true)
           None).
  reflexivity.
Defined.

Lemma kernels_without_omega_witness :
  ShortRangeAFT.weighted_coulG Example.get_Gv_weights Example.get_coulG
    Example.gamma_point (AFTDF.mk Example.cell0 [[0; 0; 0]] None [1; 1; 1]%nat None)
    [0; 0; 0] ExxNone None = raise TypeError.
Proof.
  destruct (kernels_without_omega Example.get_Gv_weights Example.get_coulG
              Example.gamma_point
              (AFTDF.mk Example.cell0 [[0; 0; 0]] None [1; 1; 1]%nat None)
              [0; 0; 0] ExxNone None) as [H _]; [reflexivity | reflexivity | exact H].
Defined.

(** ** The builder: [get_jk] and the lazy [build] *)

Section GetJKFacts.

Variable mesh_to_cutoff : Cell.t -> list nat -> list R.
Variable estimate_omega_for_ke_cutoff : Cell.t -> R -> R.
Variable estimate_ke_cutoff_for_omega : Cell.t -> R -> R.
Variable cutoff_to_mesh : Cell.t -> R -> list nat.
Variable estimate_eta_for_ke_cutoff : Cell.t -> R -> R -> R.
Variable kpts_to_kmesh : Cell.t -> list (list R) -> list nat.
Variable get_phase : Cell.t -> list (list R) -> list nat -> Cell.t * Shape.t.
Variable translation_vectors_for_kmesh : Cell.t -> list nat -> list (list R).
Variable get_lattice_Ls : Cell.t -> R -> list (list R).
Variable sort_by_norm : list (list R) -> list (list R).
Variable _primitive_gto_cutoff : Cell.t -> R -> list (list R) * list (list R).
Variable cell_add : Cell.t -> Cell.t -> Cell.t.
Variable build_supcell : Cell.t -> list (list R) -> SupMol.t.
Variable intor_ovlp : SupMol.t -> nat * nat * nat * nat -> list (list R).
Variable intor_symmetric_ovlp : SupMol.t -> list (list R).
Variable Cell_nao : Cell.t -> nat.
Variable Cell_ao_loc : Cell.t -> list nat.
Variable aft_get_jk :
  AFTDF.t -> Shape.t -> nat -> list (list R) -> option (list (list R)) ->
  bool -> bool -> exx_arg -> result (option Shape.t * option Shape.t).

Local Abbreviation build :=
  (RangeSeparationJKBuilder.build mesh_to_cutoff estimate_omega_for_ke_cutoff
     estimate_ke_cutoff_for_omega cutoff_to_mesh estimate_eta_for_ke_cutoff
     kpts_to_kmesh get_phase translation_vectors_for_kmesh get_lattice_Ls sort_by_norm
     _primitive_gto_cutoff cell_add build_supcell intor_ovlp intor_symmetric_ovlp).

Local Abbreviation get_jk_body :=
  (RangeSeparationJKBuilder.get_jk_body Cell_nao Cell_ao_loc aft_get_jk).

Local Abbreviation get_jk :=
  (RangeSeparationJKBuilder.get_jk mesh_to_cutoff estimate_omega_for_ke_cutoff
     estimate_ke_cutoff_for_omega cutoff_to_mesh estimate_eta_for_ke_cutoff
     kpts_to_kmesh get_phase translation_vectors_for_kmesh get_lattice_Ls sort_by_norm
     _primitive_gto_cutoff cell_add build_supcell intor_ovlp intor_symmetric_ovlp
     Cell_nao Cell_ao_loc aft_get_jk).

(** The attributes of two builders agree, the density screening bound
    apart. [get_jk] writes that bound into the screening object of [vhfopt]
    on every call (lines 263-266); it is no field of [VHFOpt.t], of which
    the supercell, the integral screen and the tolerance are compared. *)
Local Abbreviation same_attributes a b :=
  (RangeSeparationJKBuilder.cell a = RangeSeparationJKBuilder.cell b /\
   RangeSeparationJKBuilder.stdout a = RangeSeparationJKBuilder.stdout b /\
   RangeSeparationJKBuilder.verbose a = RangeSeparationJKBuilder.verbose b /\
   RangeSeparationJKBuilder.max_memory a = RangeSeparationJKBuilder.max_memory b /\
   RangeSeparationJKBuilder.mesh a = RangeSeparationJKBuilder.mesh b /\
   RangeSeparationJKBuilder.kpts a = RangeSeparationJKBuilder.kpts b /\
   RangeSeparationJKBuilder.omega a = RangeSeparationJKBuilder.omega b /\
   RangeSeparationJKBuilder.cell_dense a = RangeSeparationJKBuilder.cell_dense b /\
   RangeSeparationJKBuilder.cell_sparse a = RangeSeparationJKBuilder.cell_sparse b /\
   RangeSeparationJKBuilder.bvkcell a = RangeSeparationJKBuilder.bvkcell b /\
   RangeSeparationJKBuilder.bvkmesh_Ls a = RangeSeparationJKBuilder.bvkmesh_Ls b /\
   RangeSeparationJKBuilder.phase a = RangeSeparationJKBuilder.phase b /\
   RangeSeparationJKBuilder.supmol a = RangeSeparationJKBuilder.supmol b /\
   RangeSeparationJKBuilder.supmol_dense a = RangeSeparationJKBuilder.supmol_dense b /\
   RangeSeparationJKBuilder.supmol_sparse a = RangeSeparationJKBuilder.supmol_sparse b /\
   RangeSeparationJKBuilder.bvkcell_shl_id a = RangeSeparationJKBuilder.bvkcell_shl_id b /\
   RangeSeparationJKBuilder.ovlp_mask a = RangeSeparationJKBuilder.ovlp_mask b /\
   RangeSeparationJKBuilder.lr_aft a = RangeSeparationJKBuilder.lr_aft b /\
   RangeSeparationJKBuilder.sr_aft a = RangeSeparationJKBuilder.sr_aft b /\
   RangeSeparationJKBuilder.ke_cutoff a = RangeSeparationJKBuilder.ke_cutoff b /\
   RangeSeparationJKBuilder.blockdim a = RangeSeparationJKBuilder.blockdim b /\
   RangeSeparationJKBuilder._keys a = RangeSeparationJKBuilder._keys b /\
   RangeSeparationJKBuilder.supmol_Ls a = RangeSeparationJKBuilder.supmol_Ls b /\
   option_map VHFOpt.mol (RangeSeparationJKBuilder.vhfopt a) =
     option_map VHFOpt.mol (RangeSeparationJKBuilder.vhfopt b) /\
   option_map VHFOpt.screen (RangeSeparationJKBuilder.vhfopt a) =
     option_map VHFOpt.screen (RangeSeparationJKBuilder.vhfopt b) /\
   option_map VHFOpt.direct_scf_tol (RangeSeparationJKBuilder.vhfopt a) =
     option_map VHFOpt.direct_scf_tol (RangeSeparationJKBuilder.vhfopt b)).

(** X22. [get_jk] builds at most once. A successful call on a builder that
    has a supercell runs no [build]; on a builder without one it runs
    [build] without arguments. Apart from that, the call assigns no
    attribute: the attributes of the builder after the call are those of
    the builder it evaluated on, the density screening bound apart. The
    builder after the call has a supercell, and the same call on it succeeds
    with J and K of the same shapes and again leaves the attributes as they
    are. *)
Theorem get_jk_builds_at_most_once (self self' : RangeSeparationJKBuilder.t)
    (dm_kpts : Density.t) (hermi : nat) (kpts_arg kpts_band : option (list (list R)))
    (with_j with_k : bool) (omega_arg : option R) (exxdiv : exx_arg)
    (jk : option Shape.t * option Shape.t) :
  get_jk self dm_kpts hermi kpts_arg kpts_band with_j with_k omega_arg exxdiv
    = ok (self', jk) ->
  RangeSeparationJKBuilder.supmol self' <> None /\
  (exists built,
     (RangeSeparationJKBuilder.supmol self <> None -> built = self) /\
     (RangeSeparationJKBuilder.supmol self = None -> build self None None = ok built) /\
     same_attributes self' built) /\
  (exists self'',
     get_jk self' dm_kpts hermi kpts_arg kpts_band with_j with_k omega_arg exxdiv
       = ok (self'', jk) /\
     same_attributes self'' self').
Proof.
  unfold RangeSeparationJKBuilder.get_jk. intros H.
  destruct omega_arg; [discriminate |].
  apply bind_ok in H as ([] & Hchk & H).
  destruct kpts_band; [discriminate |].
  apply bind_ok in H as (s1 & Hs1 & H).
  apply bind_ok in H as (jk' & Hjk & H).
  injection H as <- <-.
  assert (Hk : RangeSeparationJKBuilder.kpts s1 = RangeSeparationJKBuilder.kpts self /\
               RangeSeparationJKBuilder.supmol s1 <> None).
  { destruct (RangeSeparationJKBuilder.supmol self) eqn:Es.
    - injection Hs1 as <-. split; [reflexivity | rewrite Es; discriminate].
    - unfold RangeSeparationJKBuilder.build in Hs1.
      apply bind_ok in Hs1 as ([[om ke] mesh] & _ & Hs1).
      destruct (get_phase _ _ _) as [bvkcell phase].
      apply bind_ok in Hs1 as ([[cd cs] ke'] & _ & Hs1).
      apply bind_ok in Hs1 as (sm & _ & Hs1).
      apply bind_ok in Hs1 as (ids & _ & Hs1).
      apply bind_ok in Hs1 as (smooth & _ & Hs1).
      apply bind_ok in Hs1 as (ov & _ & Hs1).
      injection Hs1 as <-. split; [reflexivity | discriminate]. }
  destruct Hk as [Hk Hsup].
  split; [exact Hsup |]. split.
  - exists s1. split; [| split].
    + intros Hne. destruct (RangeSeparationJKBuilder.supmol self); [| congruence].
      now injection Hs1 as <-.
    + intros Hn. rewrite Hn in Hs1. exact Hs1.
    + repeat split.
  - exists s1. split; [| repeat split].
    assert (Hchk' : RangeSeparationJKBuilder.check_kpts s1 kpts_arg = ok tt).
    { unfold RangeSeparationJKBuilder.check_kpts in *. rewrite Hk. exact Hchk. }
    rewrite Hchk'. simpl bind.
    destruct (RangeSeparationJKBuilder.supmol s1); [| congruence].
    simpl bind. rewrite Hk, Hjk. reflexivity.
Qed.

(** X23. A density of the wrong size is rejected before anything is
    evaluated. On a builder that has been built, a density argument that is
    not four-dimensional and whose number of elements is no multiple of
    (number of k-points) x nao x nao, or any such density when that product
    is zero, makes [get_jk] raise ValueError. *)
Theorem get_jk_rejects_density_of_wrong_size (self : RangeSeparationJKBuilder.t)
    (dm_kpts : Density.t) (hermi : nat) (with_j with_k : bool) (exxdiv : exx_arg)
    (supmol : SupMol.t) (bvkcell : Cell.t) (shl_id locs : list nat) :
  let nkpts := length (RangeSeparationJKBuilder.kpts self) in
  let nao := Cell_nao (RangeSeparationJKBuilder.cell self) in
  RangeSeparationJKBuilder.supmol self = Some supmol ->
  RangeSeparationJKBuilder.bvkcell self = Some bvkcell ->
  RangeSeparationJKBuilder.bvkcell_shl_id self = Some shl_id ->
  Np.sequence (map (SplitCell.getitem (Cell_ao_loc bvkcell)) shl_id) = ok locs ->
  length (Density.shape dm_kpts) <> 4%nat ->
  (nkpts * nao * nao = 0 \/
   Shape.size (Density.shape dm_kpts) mod (nkpts * nao * nao) <> 0)%nat ->
  get_jk self dm_kpts hermi None None with_j with_k None exxdiv = raise ValueError.
Proof.
  intros nkpts nao Hsup Hbvk Hid Hloc Hnd Hsz.
  unfold RangeSeparationJKBuilder.get_jk. simpl bind. rewrite Hsup. simpl bind.
  unfold RangeSeparationJKBuilder.get_jk_body.
  rewrite Hbvk, Hsup, Hid. simpl bind. rewrite Hloc. simpl bind.
  apply Nat.eqb_neq in Hnd. rewrite Hnd. simpl negb. cbv iota.
  fold nkpts nao. unfold Shape.reshape_infer.
  assert (Et : Shape.size [nkpts; nao; nao] = (nkpts * nao * nao)%nat)
    by (simpl; lia).
  rewrite Et.
  destruct Hsz as [Hz | Hm].
  - rewrite Hz. reflexivity.
  - destruct (Nat.eqb (nkpts * nao * nao) 0); [reflexivity |].
    apply Nat.eqb_neq in Hm. rewrite Hm. reflexivity.
Qed.

End GetJKFacts.

Lemma get_jk_builds_at_most_once_witness :
  exists self'',
    Example.get_jk Example.built0 Example.dm3 1 None None true true None ExxNone
      = ok (self'', (Some [1; 2; 2]%nat, Some [1; 2; 2]%nat)) /\
    RangeSeparationJKBuilder.supmol self'' = Some Example.supmol1.
Proof.
  destruct (get_jk_builds_at_most_once Example.mesh_to_cutoff
              Example.estimate_omega_for_ke_cutoff Example.estimate_ke_cutoff_for_omega
              Example.cutoff_to_mesh Example.estimate_eta_for_ke_cutoff
              Example.kpts_to_kmesh Example.get_phase
              Example.translation_vectors_for_kmesh Example.get_lattice_Ls
              Example.sort_by_norm Example._primitive_gto_cutoff Example.cell_add
              Example.build_supcell Example.intor_ovlp Example.intor_symmetric_ovlp
              Example.Cell_nao Example.Cell_ao_loc Example.aft_get_jk
              Example.builder0 Example.built0 Example.dm3 1 None None true true None
              ExxNone (Some [1; 2; 2]%nat, Some [1; 2; 2]%nat)
              (get_jk_example_dm3 None true true (or_introl eq_refl)))
    as (_ & _ & (self'' & H & Hsame)).
  exists self''. split; [exact H |].
  destruct Hsame as (_ & _ & _ & _ & _ & _ & _ & _ & _ & _ & _ & _ & Hs & _).
  exact Hs.
Defined.

Lemma get_jk_rejects_density_of_wrong_size_witness :
  Example.get_jk Example.built0 Example.dm_bad 1 None None true true None ExxNone
    = raise ValueError.
Proof.
  apply (get_jk_rejects_density_of_wrong_size Example.mesh_to_cutoff
           Example.estimate_omega_for_ke_cutoff Example.estimate_ke_cutoff_for_omega
           Example.cutoff_to_mesh Example.estimate_eta_for_ke_cutoff
           Example.kpts_to_kmesh Example.get_phase
           Example.translation_vectors_for_kmesh Example.get_lattice_Ls
           Example.sort_by_norm Example._primitive_gto_cutoff Example.cell_add
           Example.build_supcell Example.intor_ovlp Example.intor_symmetric_ovlp
           Example.Cell_nao Example.Cell_ao_loc Example.aft_get_jk
           Example.built0 Example.dm_bad 1 true true ExxNone
           Example.supmol1 Example.cell1 [0; 1; 1]%nat [0; 1; 1]%nat);
    try reflexivity.
  - discriminate.
  - right. discriminate.
Defined.

(** ** The builder: the orbital indices of the smooth shells *)

Lemma StronglySorted_app_lt (l1 l2 : list nat) :
  StronglySorted lt l1 -> StronglySorted lt l2 ->
  (forall a b, In a l1 -> In b l2 -> (a < b)%nat) ->
  StronglySorted lt (l1 ++ l2).
Proof.
  intros H1 H2 H. induction H1 as [| x l1 Hs IH Hx]; simpl; [exact H2 |].
  constructor.
  - apply IH. intros a b Ha Hb. apply H; [now right | exact Hb].
  - apply Forall_app. split; [exact Hx |].
    apply Forall_forall. intros b Hb. apply H; [now left | exact Hb].
Qed.

Lemma StronglySorted_seq (s n : nat) : StronglySorted lt (seq s n).
Proof.
  revert s. induction n as [| n IH]; intros s; simpl; constructor; [apply IH |].
  apply Forall_forall. intros b Hb. apply in_seq in Hb. lia.
Qed.

Lemma sr_ao_idx_ranges (ao_loc bas_idx : list nat) :
  Forall (fun i => (S i < length ao_loc)%nat) bas_idx ->
  Np.sequence
    (map (fun i =>
            a <- SplitCell.getitem ao_loc i ;;
            b <- SplitCell.getitem ao_loc (S i) ;;
            ok (seq a (b - a)))
         bas_idx) =
  ok (map (fun i => seq (nth i ao_loc 0%nat) (nth (S i) ao_loc 0 - nth i ao_loc 0)%nat)
          bas_idx).
Proof.
  induction 1 as [| i rest Hi _ IH]; simpl; [reflexivity |].
  unfold SplitCell.getitem at 1 2.
  rewrite (nth_error_nth' ao_loc 0%nat) by lia.
  rewrite (nth_error_nth' ao_loc 0%nat) by lia.
  simpl. rewrite IH. reflexivity.
Qed.

(** X24. The orbital indices that [get_jk] collects for the smooth shells.
    For offsets that do not decrease and shell indices that increase
    strictly and are shells of the cell, [sr_ao_idx] succeeds; the indices it
    returns are exactly the orbitals of the listed shells, they increase
    strictly, so none is repeated, and all are below the last offset, the
    number of orbitals. With no shell listed it raises ValueError. *)
Theorem sr_ao_idx_valid (ao_loc bas_idx : list nat) :
  (forall p q, (p <= q < length ao_loc)%nat -> (nth p ao_loc 0 <= nth q ao_loc 0)%nat) ->
  StronglySorted lt bas_idx ->
  Forall (fun i => (S i < length ao_loc)%nat) bas_idx ->
  (bas_idx = [] -> RangeSeparationJKBuilder.sr_ao_idx ao_loc bas_idx = raise ValueError) /\
  (bas_idx <> [] ->
   exists idx,
     RangeSeparationJKBuilder.sr_ao_idx ao_loc bas_idx = ok idx /\
     (forall a, In a idx <->
        exists i, In i bas_idx /\ (nth i ao_loc 0 <= a < nth (S i) ao_loc 0)%nat) /\
     StronglySorted lt idx /\
     Forall (fun a => (a < nth (length ao_loc - 1) ao_loc 0)%nat) idx).
Proof.
  intros Hmono Hsort Hrange. split.
  - intros ->. reflexivity.
  - intros Hne. unfold RangeSeparationJKBuilder.sr_ao_idx.
    rewrite (sr_ao_idx_ranges ao_loc bas_idx Hrange). simpl bind.
    set (rng := fun i => seq (nth i ao_loc 0%nat)
                           (nth (S i) ao_loc 0 - nth i ao_loc 0)%nat).
    assert (Hin : forall l a, In a (concat (map rng l)) <->
              exists i, In i l /\ (nth i ao_loc 0 <= a < nth (S i) ao_loc 0)%nat).
    { intros l a. rewrite in_concat. split.
      - intros (r & Hr & Ha). apply in_map_iff in Hr as (i & <- & Hi).
        exists i. split; [exact Hi |]. unfold rng in Ha. apply in_seq in Ha. lia.
      - intros (i & Hi & Ha). exists (rng i). split; [now apply in_map |].
        unfold rng. apply in_seq. lia. }
    exists (concat (map rng bas_idx)).
    split; [destruct bas_idx; [congruence | reflexivity] |].
    split; [apply Hin |]. split.
    + clear Hne. induction Hsort as [| i rest Hs IH Hi]; simpl; [constructor |].
      inversion Hrange as [| ? ? Hi0 Hrest]; subst.
      apply StronglySorted_app_lt; [apply StronglySorted_seq | now apply IH |].
      intros a b Ha Hb. unfold rng in Ha. apply in_seq in Ha.
      apply Hin in Hb as (j & Hj & Hb).
      rewrite Forall_forall in Hi, Hrest.
      pose proof (Hi j Hj) as Hij. pose proof (Hrest j Hj) as Hjr.
      pose proof (Hmono (S i) j) as Hm. lia.
    + apply Forall_forall. intros a Ha. apply Hin in Ha as (i & Hi & Ha).
      rewrite Forall_forall in Hrange. pose proof (Hrange i Hi) as Hir.
      pose proof (Hmono (S i) (length ao_loc - 1)%nat) as Hm. lia.
Qed.

Lemma sr_ao_idx_valid_witness :
  exists idx,
    RangeSeparationJKBuilder.sr_ao_idx [0; 1; 4; 9]%nat [0; 2]%nat = ok idx /\
    StronglySorted lt idx /\ Forall (fun a => (a < 9)%nat) idx.
Proof.
  destruct (sr_ao_idx_valid [0; 1; 4; 9]%nat [0; 2]%nat) as [_ H].
  - intros p q Hpq. simpl in Hpq.
    destruct p as [| [| [| [| p]]]], q as [| [| [| [| q]]]]; simpl; lia.
  - repeat constructor.
  - repeat constructor; simpl; lia.
  - destruct H as (idx & H1 & _ & H3 & H4); [discriminate |].
    exists idx. split; [exact H1 |]. split; [exact H3 | exact H4].
Defined.

(** ** The builder: the k-points of the builder as the k-point argument *)

Lemma broadcast1_minus_self (row : list R) :
  Np.broadcast1 Rminus row row = ok (map (fun x => x - x) row).
Proof.
  unfold Np.broadcast1. destruct row as [| x [| y row]]; try reflexivity.
  rewrite Nat.eqb_refl. f_equal.
  set (l := x :: y :: row). clearbody l.
  induction l as [| a l IH]; simpl; [reflexivity |]. now rewrite IH.
Qed.

Lemma sequence_minus_self (k : list (list R)) :
  Np.sequence (map (fun row => Np.broadcast1 Rminus row row) k) =
  ok (map (map (fun x => x - x)) k).
Proof.
  induction k as [| row k IH]; simpl; [reflexivity |].
  rewrite broadcast1_minus_self. simpl. rewrite IH. reflexivity.
Qed.

Lemma sub2_self (k : list (list R)) :
  Np.sub2 k k = ok (map (map (fun x => x - x)) k).
Proof.
  unfold Np.sub2.
  assert (E : Np.broadcast1 (Np.broadcast1 Rminus) k k =
              ok (map (fun row => Np.broadcast1 Rminus row row) k)).
  { unfold Np.broadcast1 at 1. destruct k as [| x [| y k]]; try reflexivity.
    rewrite Nat.eqb_refl. f_equal.
    set (l := x :: y :: k). clearbody l.
    induction l as [| a l IH]; simpl; [reflexivity |]. now rewrite IH. }
  rewrite E. simpl bind. apply sequence_minus_self.
Qed.

Lemma fold_left_Rmax_zeros (l : list R) :
  Forall (fun x => x = 0) l -> fold_left Rmax l 0 = 0.
Proof.
  induction 1 as [| x l Hx _ IH]; simpl; [reflexivity |].
  subst x. rewrite Rmax_left by lra. exact IH.
Qed.

Lemma absmax2_zeros (k : list (list R)) :
  concat k <> [] -> Np.absmax2 (map (map (fun x => x - x)) k) = ok 0.
Proof.
  intros Hne. unfold Np.absmax2.
  assert (Hz : Forall (fun x => x = 0) (map Rabs (concat (map (map (fun x => x - x)) k)))).
  { apply Forall_forall. intros y Hy.
    apply in_map_iff in Hy as (z & <- & Hz). apply in_concat in Hz as (r & Hr & Hz).
    apply in_map_iff in Hr as (r0 & <- & _). apply in_map_iff in Hz as (x & <- & _).
    replace (x - x) with 0 by lra. apply Rabs_R0. }
  destruct (map Rabs (concat (map (map (fun x => x - x)) k))) as [| y l] eqn:E.
  - exfalso. apply Hne. apply map_eq_nil in E.
    rewrite <- concat_map in E. now apply map_eq_nil in E.
  - simpl. inversion Hz as [| ? ? Hy Hl]; subst.
    f_equal. now apply fold_left_Rmax_zeros.
Qed.

Section OwnKptsFacts.

Variable mesh_to_cutoff : Cell.t -> list nat -> list R.
Variable estimate_omega_for_ke_cutoff : Cell.t -> R -> R.
Variable estimate_ke_cutoff_for_omega : Cell.t -> R -> R.
Variable cutoff_to_mesh : Cell.t -> R -> list nat.
Variable estimate_eta_for_ke_cutoff : Cell.t -> R -> R -> R.
Variable kpts_to_kmesh : Cell.t -> list (list R) -> list nat.
Variable get_phase : Cell.t -> list (list R) -> list nat -> Cell.t * Shape.t.
Variable translation_vectors_for_kmesh : Cell.t -> list nat -> list (list R).
Variable get_lattice_Ls : Cell.t -> R -> list (list R).
Variable sort_by_norm : list (list R) -> list (list R).
Variable _primitive_gto_cutoff : Cell.t -> R -> list (list R) * list (list R).
Variable cell_add : Cell.t -> Cell.t -> Cell.t.
Variable build_supcell : Cell.t -> list (list R) -> SupMol.t.
Variable intor_ovlp : SupMol.t -> nat * nat * nat * nat -> list (list R).
Variable intor_symmetric_ovlp : SupMol.t -> list (list R).
Variable Cell_nao : Cell.t -> nat.
Variable Cell_ao_loc : Cell.t -> list nat.
Variable aft_get_jk :
  AFTDF.t -> Shape.t -> nat -> list (list R) -> option (list (list R)) ->
  bool -> bool -> exx_arg -> result (option Shape.t * option Shape.t).

Local Abbreviation get_jk :=
  (RangeSeparationJKBuilder.get_jk mesh_to_cutoff estimate_omega_for_ke_cutoff
     estimate_ke_cutoff_for_omega cutoff_to_mesh estimate_eta_for_ke_cutoff
     kpts_to_kmesh get_phase translation_vectors_for_kmesh get_lattice_Ls sort_by_norm
     _primitive_gto_cutoff cell_add build_supcell intor_ovlp intor_symmetric_ovlp
     Cell_nao Cell_ao_loc aft_get_jk).

(** X25. The k-points of the builder are always accepted as the k-point
    argument: when the builder has at least one k-point coordinate, the call
    with its own k-points is the call with no k-point argument. A builder
    with an empty k-point array raises ValueError for every k-point
    argument that is an empty array as well. *)
Theorem get_jk_accepts_own_kpts (self : RangeSeparationJKBuilder.t)
    (dm_kpts : Density.t) (hermi : nat) (with_j with_k : bool) (exxdiv : exx_arg) :
  let kpts := RangeSeparationJKBuilder.kpts self in
  (concat kpts <> [] ->
   get_jk self dm_kpts hermi (Some kpts) None with_j with_k None exxdiv =
   get_jk self dm_kpts hermi None None with_j with_k None exxdiv) /\
  (kpts = [] ->
   get_jk self dm_kpts hermi (Some []) None with_j with_k None exxdiv =
   raise ValueError).
Proof.
  intros kpts. split.
  - intros Hne. unfold RangeSeparationJKBuilder.get_jk,
      RangeSeparationJKBuilder.check_kpts.
    fold kpts. rewrite sub2_self. simpl bind. rewrite absmax2_zeros by exact Hne.
    simpl bind. rewrite Rgtb_false by lra. reflexivity.
  - intros E. unfold RangeSeparationJKBuilder.get_jk,
      RangeSeparationJKBuilder.check_kpts.
    fold kpts. rewrite E. reflexivity.
Qed.

End OwnKptsFacts.

Lemma get_jk_accepts_own_kpts_witness :
  Example.get_jk Example.builder0 Example.dm3 1 (Some [[0; 0; 0]]) None true true None
    ExxNone =
  Example.get_jk Example.builder0 Example.dm3 1 None None true true None ExxNone.
Proof.
  destruct (get_jk_accepts_own_kpts Example.mesh_to_cutoff
              Example.estimate_omega_for_ke_cutoff Example.estimate_ke_cutoff_for_omega
              Example.cutoff_to_mesh Example.estimate_eta_for_ke_cutoff
              Example.kpts_to_kmesh Example.get_phase
              Example.translation_vectors_for_kmesh Example.get_lattice_Ls
              Example.sort_by_norm Example._primitive_gto_cutoff Example.cell_add
              Example.build_supcell Example.intor_ovlp Example.intor_symmetric_ovlp
              Example.Cell_nao Example.Cell_ao_loc Example.aft_get_jk
              Example.builder0 Example.dm3 1 true true ExxNone) as [H _].
  apply H. discriminate.
Defined.
